(** * Roadmap.sh / python: the data-structure and algorithm scripts

    A shallow embedding of the core scripts of the repository

    - [05_DSA_Custom/05_binary_search_tree.py]  (module [BST])
    - [05_DSA_Custom/02_linked_lists.py]        (module [LinkedList])
    - [06_Algorithms/03_searching.py]           (module [Searching])
    - [06_Algorithms/02_sorting.py]             (module [Sorting])
    - [05_DSA_Custom/06_graphs.py]              (module [Graph])

    together with the properties the specification states about them.
    Python integers are modelled by [Z], Python lists by [list] with the
    index discipline of the interpreter written out (negative indices wrap,
    anything else out of range raises [IndexError]), dictionaries by
    [gmap], vertex identifiers by [nat].  Loops and recursive functions
    that are not structurally recursive take a fuel argument; the
    interpreter's own limit on the recursion depth is not modelled. *)

From Stdlib Require Import ZArith Lia.
From stdpp Require Import base option list sorting gmap strings.

#[local] Set Warnings "-clear-no-such-hyp".

Local Open Scope Z_scope.

(** ** Binary search tree *)

Module BST.

(** [class Node]: [None] is [Leaf]; a node object owns its two links. *)
Inductive tree : Type :=
| Leaf
| Node (left : tree) (val : Z) (right : tree).

(** [insert(root, key)]: the strict test [root.val < key] sends the key to
    the right, every other key (the equal one included) to the left. *)
Fixpoint insert (root : tree) (key : Z) : tree :=
  match root with
  | Leaf => Node Leaf key Leaf
  | Node l v r =>
      if v <? key then Node l v (insert r key) else Node (insert l key) v r
  end.

(** [inorder(root)]: the keys in the order in which they are printed. *)
Fixpoint inorder (root : tree) : list Z :=
  match root with
  | Leaf => []
  | Node l v r => inorder l ++ v :: inorder r
  end.

(** [search(root, key)]: returns [root] itself when it is [None] or holds
    the key. *)
Fixpoint search (root : tree) (key : Z) : tree :=
  match root with
  | Leaf => Leaf
  | Node l v r =>
      if v =? key then root
      else if v <? key then search r key
      else search l key
  end.

(** A tree built from the empty tree by inserting [keys] one after another,
    as the script does with [r = insert(r, k)]. *)
Definition build (keys : list Z) : tree := fold_left insert keys Leaf.

(** The ordering the code maintains: left keys are [<=] the node's key,
    right keys are strictly greater. *)
Fixpoint bst (t : tree) : Prop :=
  match t with
  | Leaf => True
  | Node l v r =>
      Forall (fun x => x <= v) (inorder l) /\
      Forall (fun x => v < x) (inorder r) /\
      bst l /\ bst r
  end.

Lemma inorder_insert t k : inorder (insert t k) ≡ₚ k :: inorder t.
Proof.
  induction t as [|l IHl v r IHr]; simpl; [done|].
  destruct (v <? k); simpl.
  - rewrite IHr. by rewrite <- !Permutation_middle, Permutation_swap.
  - by rewrite IHl.
Qed.

Lemma bst_insert t k : bst t -> bst (insert t k).
Proof.
  induction t as [|l IHl v r IHr]; simpl.
  - intros _. repeat split; constructor.
  - intros (Hl & Hr & Bl & Br).
    destruct (Z.ltb_spec v k); simpl; repeat split; auto.
    + rewrite inorder_insert. constructor; [lia|done].
    + rewrite inorder_insert. constructor; [lia|done].
Qed.

Lemma build_snoc keys k : build (keys ++ [k]) = insert (build keys) k.
Proof. unfold build. by rewrite fold_left_app. Qed.

Lemma bst_build keys : bst (build keys).
Proof.
  induction keys as [|k keys IH] using rev_ind; [exact I|].
  rewrite build_snoc. by apply bst_insert.
Qed.

Lemma inorder_build keys : inorder (build keys) ≡ₚ keys.
Proof.
  induction keys as [|k keys IH] using rev_ind; [done|].
  rewrite build_snoc, inorder_insert, IH.
  by rewrite Permutation_app_comm.
Qed.

Lemma bst_inorder_sorted t : bst t -> StronglySorted Z.le (inorder t).
Proof.
  induction t as [|l IHl v r IHr]; simpl; [constructor|].
  intros (Hl & Hr & Bl & Br).
  apply StronglySorted_app_2; [|auto|].
  - intros x y Hx Hy. rewrite Forall_forall in Hl, Hr.
    apply Hl in Hx. apply elem_of_cons in Hy as [->|Hy]; [done|].
    apply Hr in Hy. lia.
  - constructor; [auto|].
    eapply Forall_impl; [exact Hr|]. simpl. lia.
Qed.

Lemma search_found t k l v r : search t k = Node l v r -> v = k /\ k ∈ inorder t.
Proof.
  induction t as [|tl IHl tv tr IHr]; simpl; [done|].
  destruct (Z.eqb_spec tv k) as [->|Hne].
  - intros [= -> -> ->]. split; [done|].
    apply elem_of_app. right. apply list_elem_of_here.
  - destruct (tv <? k); intros H.
    + destruct (IHr H) as [-> ?]. split; [done|].
      apply elem_of_app. right. by apply list_elem_of_further.
    + destruct (IHl H) as [-> ?]. split; [done|].
      apply elem_of_app. by left.
Qed.

Lemma search_present t k :
  bst t -> k ∈ inorder t -> exists l r, search t k = Node l k r.
Proof.
  induction t as [|tl IHl tv tr IHr]; simpl.
  - intros _ H. by apply elem_of_nil in H.
  - intros (Hl & Hr & Bl & Br) Hin.
    destruct (Z.eqb_spec tv k) as [->|Hne]; [eauto|].
    rewrite Forall_forall in Hl, Hr.
    apply elem_of_app in Hin as [Hin|Hin].
    + destruct (Z.ltb_spec tv k); [apply Hl in Hin; lia | auto].
    + apply elem_of_cons in Hin as [->|Hin]; [done|].
      destruct (Z.ltb_spec tv k); [auto | apply Hr in Hin; lia].
Qed.

Lemma search_absent t k : k ∉ inorder t -> search t k = Leaf.
Proof.
  intros Hnot. destruct (search t k) as [|l v r] eqn:E; [done|].
  apply search_found in E as [_ ?]. contradiction.
Qed.

(** The equal key takes the [else] branch of [insert]. *)
Lemma insert_equal_key l k r : insert (Node l k r) k = Node (insert l k) k r.
Proof. simpl. by rewrite Z.ltb_irrefl. Qed.

(** Inserting [k] does not move the node at which [search] for [k] stops:
    that node only receives [k] in its left subtree. *)
Lemma search_insert_same t k l r :
  search t k = Node l k r ->
  search (insert t k) k = Node (insert l k) k r.
Proof.
  induction t as [|tl IHl tv tr IHr]; simpl; [done|].
  destruct (Z.eqb_spec tv k) as [->|Hne].
  - intros [= -> ->]. rewrite Z.ltb_irrefl. simpl. by rewrite Z.eqb_refl.
  - destruct (tv <? k) eqn:Hlt; simpl; intros H;
      destruct (Z.eqb_spec tv k); try done; rewrite Hlt; auto.
Qed.

(** C1, as the specification states it, at the smallest input: the tree
    holding the single key 5, into which 5 is inserted again.  The node
    that holds 5 keeps an empty right subtree, and the duplicate is its
    left child: the universally quantified claim "the duplicate goes to the
    right subtree of the node holding the equal key" is false. *)
Lemma duplicate_not_placed_right :
  search (build [5]) 5 = Node Leaf 5 Leaf /\
  insert (build [5]) 5 = Node (Node Leaf 5 Leaf) 5 Leaf /\
  ~ (forall (keys : list Z) (k : Z) (l r : tree),
       k ∈ keys ->
       search (build keys) k = Node l k r ->
       search (insert (build keys) k) k = Node l k (insert r k)).
Proof.
  split; [reflexivity|]. split; [reflexivity|].
  intros H.
  assert (5 ∈ [5]) as Hin by apply list_elem_of_here.
  specialize (H [5] 5 Leaf Leaf Hin eq_refl).
  vm_compute in H. discriminate H.
Qed.

(** C1 (amended): for every tree built by repeated [insert] and every key
    [k] already present, [search] finds a node holding [k], and inserting
    [k] again leaves that node in place with its right subtree untouched
    and the duplicate inserted into its LEFT subtree (ties go left: at every
    node, a key equal to the node's key descends leftward, and the left
    subtree gains exactly one more occurrence of [k]). *)
Theorem duplicate_placed_left (keys : list Z) (k : Z) :
  k ∈ keys ->
  (forall l r, insert (Node l k r) k = Node (insert l k) k r) /\
  exists l r,
    search (build keys) k = Node l k r /\
    search (insert (build keys) k) k = Node (insert l k) k r /\
    inorder (insert l k) ≡ₚ k :: inorder l.
Proof.
  intros Hin. split; [intros; apply insert_equal_key|].
  destruct (search_present (build keys) k) as (l & r & Hs).
  - apply bst_build.
  - by rewrite inorder_build.
  - exists l, r. split; [done|]. split.
    + by apply search_insert_same.
    + apply inorder_insert.
Qed.

(** The keys 5, 3, 5 and a third 5. *)
Lemma duplicate_placed_left_witness :
  5 ∈ [5; 3; 5] /\
  exists l r,
    search (build [5; 3; 5]) 5 = Node l 5 r /\
    search (insert (build [5; 3; 5]) 5) 5 = Node (insert l 5) 5 r.
Proof.
  assert (Hin : 5 ∈ [5; 3; 5]) by apply list_elem_of_here.
  split; [exact Hin|].
  destruct (duplicate_placed_left [5; 3; 5] 5 Hin) as (_ & l & r & H1 & H2 & _).
  exists l, r. by split.
Defined.

(** C4: for every sequence of keys inserted into the empty tree, the
    inorder traversal emits a permutation of the inserted keys (the same
    multiset, duplicates included) and emits it in non-decreasing order. *)
Theorem inorder_build_sorted_permutation (keys : list Z) :
  inorder (build keys) ≡ₚ keys /\
  Sorted Z.le (inorder (build keys)) /\
  StronglySorted Z.le (inorder (build keys)).
Proof.
  split; [apply inorder_build|].
  pose proof (bst_inorder_sorted _ (bst_build keys)) as H.
  split; [by apply StronglySorted_Sorted | done].
Qed.

(** C5: on a tree built by [insert] from the empty tree, [search] returns a
    node exactly when the key was inserted before, the node it returns
    holds the searched key, and for any other key it returns [None]. *)
Theorem search_build_iff_inserted (keys : list Z) (k : Z) :
  (k ∈ keys <-> exists l r, search (build keys) k = Node l k r) /\
  (k ∉ keys <-> search (build keys) k = Leaf) /\
  (forall l v r, search (build keys) k = Node l v r -> v = k).
Proof.
  assert (Hpres : k ∈ keys -> exists l r, search (build keys) k = Node l k r).
  { intros Hin. apply search_present; [apply bst_build|].
    by rewrite inorder_build. }
  assert (Habs : k ∉ keys -> search (build keys) k = Leaf).
  { intros Hnot. apply search_absent. by rewrite inorder_build. }
  split; [|split].
  - split; [done|]. intros (l & r & Hs).
    apply search_found in Hs as [_ Hin]. by rewrite inorder_build in Hin.
  - split; [done|]. intros Hs Hin.
    destruct (Hpres Hin) as (l & r & Hs'). congruence.
  - intros l v r Hs. by apply search_found in Hs as [? _].
Qed.

(** The scenario of the script and of the specification. *)
Example bst_script_scenario :
  let r := build [50; 30; 20; 40; 70; 60; 80] in
  inorder r = [20; 30; 40; 50; 60; 70; 80] /\
  search r 60 = Node Leaf 60 Leaf /\
  search r 65 = Leaf.
Proof. by vm_compute. Qed.

(** *** More about the tree operations *)

(** X1: [insert] keeps the ordering of any ordered tree, whatever built
    it, and adds exactly the inserted key: the inorder sequence of the
    result is a permutation of the key and the old sequence, and it is
    sorted. *)
Theorem insert_keeps_order (t : tree) (k : Z) :
  bst t ->
  bst (insert t k) /\
  inorder (insert t k) ≡ₚ k :: inorder t /\
  StronglySorted Z.le (inorder (insert t k)).
Proof.
  intros Ht. pose proof (bst_insert t k Ht) as Hins.
  split; [done|]. split; [apply inorder_insert|].
  by apply bst_inorder_sorted.
Qed.

Lemma insert_keeps_order_witness :
  bst (insert (Node (Node Leaf 2 Leaf) 5 Leaf) 3) /\
  inorder (insert (Node (Node Leaf 2 Leaf) 5 Leaf) 3) ≡ₚ
    3 :: inorder (Node (Node Leaf 2 Leaf) 5 Leaf) /\
  StronglySorted Z.le (inorder (insert (Node (Node Leaf 2 Leaf) 5 Leaf) 3)).
Proof.
  apply (insert_keeps_order (Node (Node Leaf 2 Leaf) 5 Leaf) 3).
  simpl. repeat split; repeat constructor; lia.
Defined.

(** [subtree s t]: the node [s] is [t] or one of its descendants. *)
Inductive subtree (s : tree) : tree -> Prop :=
| subtree_here : subtree s s
| subtree_left l v r : subtree s l -> subtree s (Node l v r)
| subtree_right l v r : subtree s r -> subtree s (Node l v r).

(** X2: on any tree, ordered or not, [search] never returns a node with
    another key or a node that is not in the tree: what it returns is
    [None] or a subtree of its argument whose root holds the key. *)
Theorem search_returns_subtree (t : tree) (k : Z) :
  search t k = Leaf \/
  exists l r, search t k = Node l k r /\ subtree (Node l k r) t /\
              k ∈ inorder t.
Proof.
  induction t as [|tl IHl tv tr IHr]; simpl; [by left|].
  destruct (Z.eqb_spec tv k) as [->|Hne].
  - right. exists tl, tr. split; [done|]. split; [constructor|].
    apply elem_of_app. right. apply list_elem_of_here.
  - destruct (tv <? k).
    + destruct IHr as [Hr|(l & r & Hr & Hsub & Hin)]; [by left|right].
      exists l, r. split; [done|]. split; [by apply subtree_right|].
      apply elem_of_app. right. by apply list_elem_of_further.
    + destruct IHl as [Hl|(l & r & Hl & Hsub & Hin)]; [by left|right].
      exists l, r. split; [done|]. split; [by apply subtree_left|].
      apply elem_of_app. by left.
Qed.

(** X3: insert, then look up.  On an ordered tree, [search] finds the key
    just inserted, and for every other key it finds a node after the
    insertion exactly when it found one before. *)
Theorem search_after_insert (t : tree) (k k' : Z) :
  bst t ->
  (exists l r, search (insert t k) k = Node l k r) /\
  (k' <> k -> (search (insert t k) k' = Leaf <-> search t k' = Leaf)).
Proof.
  intros Ht. pose proof (bst_insert t k Ht) as Hins.
  assert (Hiff : forall u x, bst u -> search u x = Leaf <-> x ∉ inorder u).
  { intros u x Hu. split.
    - intros Hs Hin. destruct (search_present u x Hu Hin) as (l & r & H').
      congruence.
    - apply search_absent. }
  split.
  - apply search_present; [done|]. rewrite inorder_insert. apply list_elem_of_here.
  - intros Hne. rewrite !Hiff by done. rewrite inorder_insert.
    rewrite not_elem_of_cons. naive_solver.
Qed.

Lemma search_after_insert_witness :
  (exists l r, search (insert (Node Leaf 5 Leaf) 7) 7 = Node l 7 r) /\
  (5 <> 7 -> (search (insert (Node Leaf 5 Leaf) 7) 5 = Leaf <->
              search (Node Leaf 5 Leaf) 5 = Leaf)).
Proof.
  apply (search_after_insert (Node Leaf 5 Leaf) 7 5).
  simpl. repeat split; constructor.
Defined.

(** The number of nodes on the longest path from the root. *)
Fixpoint height (t : tree) : nat :=
  match t with
  | Leaf => O
  | Node l _ r => S (Nat.max (height l) (height r))
  end.

(** The tree in which every node has only a right child. *)
Definition right_spine (keys : list Z) : tree :=
  foldr (fun k t => Node Leaf k t) Leaf keys.

Lemma insert_right_spine (keys : list Z) (k : Z) :
  Forall (fun x => x < k) keys ->
  insert (right_spine keys) k = right_spine (keys ++ [k]).
Proof.
  induction keys as [|x keys IH]; simpl; [done|].
  intros Hall. apply Forall_cons in Hall as [Hx Hall].
  destruct (Z.ltb_spec x k); [|lia]. by rewrite IH.
Qed.

Lemma height_right_spine (keys : list Z) :
  height (right_spine keys) = length keys.
Proof.
  induction keys as [|x keys IH]; simpl; [done|]. by rewrite IH.
Qed.

(** X4: there is no balancing.  Keys inserted in strictly ascending order
    give the degenerate tree in which every node has only a right child,
    so the height of the tree is the number of keys. *)
Theorem ascending_keys_degenerate (keys : list Z) :
  StronglySorted Z.lt keys ->
  build keys = right_spine keys /\ height (build keys) = length keys.
Proof.
  intros Hsorted.
  assert (Heq : build keys = right_spine keys).
  { induction keys as [|k keys IH] using rev_ind; [done|].
    apply StronglySorted_app in Hsorted as (Hlt & Hs & _).
    rewrite build_snoc, IH by done. apply insert_right_spine.
    apply Forall_forall. intros x Hx. apply Hlt; [done|apply list_elem_of_here]. }
  split; [done|]. rewrite Heq. apply height_right_spine.
Qed.

Lemma ascending_keys_degenerate_witness :
  build [1; 2; 3] = right_spine [1; 2; 3] /\
  height (build [1; 2; 3]) = length [1; 2; 3].
Proof.
  apply (ascending_keys_degenerate [1; 2; 3]).
  repeat constructor; lia.
Defined.

End BST.

(** ** Singly linked list *)

Module LinkedList.

(** A reference to a node object; Python's [None] is the absent reference. *)
Definition ref : Type := option nat.

(** [class Node]: a data field and a link to the next node. *)
Record node : Type := mkNode { data : Z; next : ref }.

(** The objects of the script: the node objects by identity, the [head]
    field of the one [LinkedList] object, and what was printed. *)
Record state : Type := mkState {
  heap : gmap nat node;
  head : ref;
  stdout : list string
}.

Definition empty : state := mkState ∅ None [].

(** [Node(new_data)]: a new object, distinct from every live one. *)
Definition alloc (h : gmap nat node) (d : Z) : nat * gmap nat node :=
  let p := fresh (dom h) in (p, <[p := mkNode d None]> h).

Definition set_next (h : gmap nat node) (p : nat) (n : ref) : gmap nat node :=
  alter (fun nd => mkNode (data nd) n) p h.

(** [push(self, new_data)] *)
Definition push (st : state) (new_data : Z) : state :=
  let '(new_node, h) := alloc (heap st) new_data in
  let h := set_next h new_node (head st) in
  mkState h (Some new_node) (stdout st).

Definition invalid_reference_message : string :=
  "The given previous node must inLinkedList.".

(** [insert_after(self, prev_node, new_data)]: with [prev_node is None] the
    method prints one line and returns; nothing else runs. *)
Definition insert_after (st : state) (prev_node : ref) (new_data : Z) : state :=
  match prev_node with
  | None =>
      mkState (heap st) (head st) (stdout st ++ [invalid_reference_message])
  | Some prev =>
      let '(new_node, h) := alloc (heap st) new_data in
      let prev_next := from_option next None (heap st !! prev) in
      let h := set_next h new_node prev_next in
      let h := set_next h prev (Some new_node) in
      mkState h (head st) (stdout st)
  end.

(** The loop [while (last.next): last = last.next] of [append]; the fuel
    bounds the number of links followed. *)
Fixpoint last_node (fuel : nat) (h : gmap nat node) (last : nat) : nat :=
  match fuel with
  | O => last
  | S fuel =>
      match h !! last with
      | Some (mkNode _ (Some n)) => last_node fuel h n
      | _ => last
      end
  end.

(** [append(self, new_data)] *)
Definition append (st : state) (new_data : Z) : state :=
  let '(new_node, h) := alloc (heap st) new_data in
  match head st with
  | None => mkState h (Some new_node) (stdout st)
  | Some hd =>
      let last := last_node (size h) h hd in
      mkState (set_next h last (Some new_node)) (head st) (stdout st)
  end.

(** The traversal of [print_list]: the data of the nodes met from [temp]
    on, following [next] links. *)
Fixpoint walk (fuel : nat) (h : gmap nat node) (temp : ref) : list Z :=
  match fuel, temp with
  | S fuel, Some p =>
      match h !! p with
      | Some nd => data nd :: walk fuel h (next nd)
      | None => []
      end
  | _, _ => []
  end.

Definition to_list (st : state) : list Z :=
  walk (S (size (heap st))) (heap st) (head st).

(** The node reached from the head by following [n] links
    ([llist.head.next] is [nth_ref st 1]). *)
Fixpoint follow (n : nat) (h : gmap nat node) (r : ref) : ref :=
  match n with
  | O => r
  | S n => follow n h (r ≫= fun p => h !! p ≫= next)
  end.

Definition nth_ref (st : state) (n : nat) : ref := follow n (heap st) (head st).

(** The script: [append 6; push 7; push 1; append 4;
    insert_after(head.next, 8)] prints [1 -> 7 -> 8 -> 6 -> 4]. *)
Example linked_list_script :
  let st := append (push (push (append empty 6) 7) 1) 4 in
  to_list (insert_after st (nth_ref st 1) 8) = [1; 7; 8; 6; 4].
Proof. by vm_compute. Qed.

(** C9: [insert_after] called with the absent reference returns normally,
    having printed the invalid-reference line, and mutates nothing: the
    node objects (every [next] link among them) and the head are the ones
    before the call, so the traversal and the length of the list are
    unchanged as well. *)
Theorem insert_after_none_no_mutation (st : state) (new_data : Z) :
  let st' := insert_after st None new_data in
  heap st' = heap st /\
  head st' = head st /\
  (forall p, next <$> heap st' !! p = next <$> heap st !! p) /\
  to_list st' = to_list st /\
  length (to_list st') = length (to_list st) /\
  stdout st' = stdout st ++ [invalid_reference_message].
Proof. simpl. by repeat split. Qed.

(** With a live reference, by contrast, the list does change. *)
Example insert_after_live_mutates :
  let st := push (push empty 2) 1 in
  to_list st = [1; 2] /\
  to_list (insert_after st (head st) 9) = [1; 9; 2] /\
  to_list (insert_after st None 9) = [1; 2].
Proof. by vm_compute. Qed.

(** *** Well-formed lists *)

(** Following [next] links from [r] one passes the nodes [ps], in this
    order, and arrives at [e]. *)
Fixpoint chain_to (h : gmap nat node) (r : ref) (ps : list nat) (e : ref) : Prop :=
  match ps with
  | [] => r = e
  | p :: ps => r = Some p /\ exists nd, h !! p = Some nd /\ chain_to h (next nd) ps e
  end.

(** The nodes of the list of [st] are [ps]: the links lead from the head
    through [ps] to [None], and no node occurs twice. *)
Definition nodes (st : state) (ps : list nat) : Prop :=
  chain_to (heap st) (head st) ps None /\ NoDup ps.

(** The list of [st] is finite and acyclic. *)
Definition wf (st : state) : Prop := exists ps, nodes st ps.

(** The data held by the nodes [ps]. *)
Definition data_of (h : gmap nat node) (ps : list nat) : list Z :=
  omap (fun p => data <$> h !! p) ps.

Lemma chain_to_app h r ps1 ps2 e :
  chain_to h r (ps1 ++ ps2) e <->
  exists m, chain_to h r ps1 m /\ chain_to h m ps2 e.
Proof.
  revert r. induction ps1 as [|p ps1 IH]; intros r; simpl.
  - split; [intros H; by exists r | by intros (m & -> & H)].
  - split.
    + intros (-> & nd & Hnd & Hc). apply IH in Hc as (m & H1 & H2).
      exists m. split; [|done]. split; [done|]. by exists nd.
    + intros (m & (-> & nd & Hnd & H1) & H2). split; [done|].
      exists nd. split; [done|]. apply IH. by exists m.
Qed.

Lemma chain_to_dom h r ps e p : chain_to h r ps e -> p ∈ ps -> p ∈ dom h.
Proof.
  revert r. induction ps as [|q ps IH]; intros r; simpl.
  - intros _ Hp. by apply elem_of_nil in Hp.
  - intros (-> & nd & Hnd & Hc) [->|Hp]%elem_of_cons; [|by eapply IH].
    apply elem_of_dom. by exists nd.
Qed.

(** Nodes that are not on the path may change. *)
Lemma chain_to_frame h h' r ps e :
  (forall p, p ∈ ps -> h' !! p = h !! p) ->
  chain_to h r ps e -> chain_to h' r ps e.
Proof.
  revert r. induction ps as [|q ps IH]; intros r Hsame; simpl; [done|].
  intros (-> & nd & Hnd & Hc). split; [done|]. exists nd. split.
  - rewrite Hsame; [done|]. apply list_elem_of_here.
  - apply IH; [|done]. intros p Hp. apply Hsame. by apply list_elem_of_further.
Qed.

Lemma data_of_frame h h' ps :
  (forall p, p ∈ ps -> data <$> h' !! p = data <$> h !! p) ->
  data_of h' ps = data_of h ps.
Proof.
  induction ps as [|q ps IH]; intros Hsame; simpl; [done|].
  unfold data_of in *. simpl.
  rewrite Hsame by apply list_elem_of_here.
  rewrite IH; [done|]. intros p Hp. apply Hsame. by apply list_elem_of_further.
Qed.

(** The traversal lists the data of the nodes, given enough fuel. *)
Lemma walk_chain h r ps fuel :
  chain_to h r ps None -> (length ps < fuel)%nat ->
  walk fuel h r = data_of h ps.
Proof.
  revert r fuel. induction ps as [|p ps IH]; intros r fuel; simpl.
  - intros -> _. by destruct fuel.
  - intros (-> & nd & Hnd & Hc) Hfuel. destruct fuel as [|fuel]; [lia|].
    simpl. unfold data_of. simpl. rewrite Hnd. simpl. f_equal.
    apply IH; [done|lia].
Qed.

Lemma nodes_length st ps : nodes st ps -> (length ps <= size (heap st))%nat.
Proof.
  intros [Hc Hnd]. rewrite <- size_dom, <- (size_list_to_set (C := gset nat) ps Hnd).
  apply subseteq_size. intros p Hp%elem_of_list_to_set. by eapply chain_to_dom.
Qed.

Lemma to_list_nodes st ps : nodes st ps -> to_list st = data_of (heap st) ps.
Proof.
  intros Hn. unfold to_list. apply walk_chain; [apply Hn|].
  pose proof (nodes_length st ps Hn). lia.
Qed.

Lemma follow_chain h r ps i :
  chain_to h r ps None -> follow i h r = ps !! i.
Proof.
  revert r ps. induction i as [|i IH]; intros r ps Hc; simpl.
  - destruct ps as [|p ps]; simpl in *; [done|]. by destruct Hc as [-> _].
  - destruct ps as [|p ps]; simpl in *.
    + subst r. simpl. clear. induction i; simpl; auto.
    + destruct Hc as (-> & nd & Hnd & Hc). simpl. rewrite Hnd. simpl.
      by apply IH.
Qed.

Lemma alloc_fresh h d : (alloc h d).1 ∉ dom h.
Proof. unfold alloc. simpl. apply is_fresh. Qed.

Lemma data_of_app h ps1 ps2 :
  data_of h (ps1 ++ ps2) = data_of h ps1 ++ data_of h ps2.
Proof. unfold data_of. apply omap_app. Qed.

(** Linking a new node [p] behind the node [q] of a list. *)
Lemma splice_chain h h' r ps1 q ps2 p ndq d :
  chain_to h r (ps1 ++ q :: ps2) None -> NoDup (ps1 ++ q :: ps2) ->
  p ∉ dom h -> h !! q = Some ndq ->
  h' !! p = Some (mkNode d (next ndq)) ->
  h' !! q = Some (mkNode (data ndq) (Some p)) ->
  (forall x, x <> p -> x <> q -> h' !! x = h !! x) ->
  chain_to h' r (ps1 ++ q :: p :: ps2) None /\
  NoDup (ps1 ++ q :: p :: ps2) /\
  data_of h' (ps1 ++ q :: p :: ps2) =
    data_of h ps1 ++ data ndq :: d :: data_of h ps2.
Proof.
  intros Hc Hnd Hp Hq Hp' Hq' Hother.
  assert (Hpnot : p ∉ ps1 ++ q :: ps2).
  { intros Hin. apply Hp. by eapply chain_to_dom. }
  apply NoDup_app in Hnd as (Hnd1 & Hdisj & Hnd2).
  apply NoDup_cons in Hnd2 as [Hq2 Hnd2].
  assert (Hq1 : q ∉ ps1).
  { intros Hin. apply (Hdisj q Hin). apply list_elem_of_here. }
  assert (Hp1 : p ∉ ps1).
  { intros Hin. apply Hpnot. apply elem_of_app. by left. }
  assert (Hp2 : p ∉ ps2).
  { intros Hin. apply Hpnot. apply elem_of_app. right.
    by apply list_elem_of_further. }
  assert (Hpq : p <> q).
  { intros ->. apply Hpnot. apply elem_of_app. right. apply list_elem_of_here. }
  assert (Hsame1 : forall x, x ∈ ps1 -> h' !! x = h !! x).
  { intros x Hx. apply Hother; intros ->; done. }
  assert (Hsame2 : forall x, x ∈ ps2 -> h' !! x = h !! x).
  { intros x Hx. apply Hother; intros ->; done. }
  apply chain_to_app in Hc as (m & Hc1 & Hc2). simpl in Hc2.
  destruct Hc2 as (-> & nd & Hnd & Hc2). rewrite Hq in Hnd. injection Hnd as <-.
  split; [|split].
  - apply chain_to_app. exists (Some q). split.
    + by apply (chain_to_frame h).
    + simpl. split; [done|]. eexists. split; [exact Hq'|]. simpl.
      split; [done|]. eexists. split; [exact Hp'|]. simpl.
      by apply (chain_to_frame h).
  - apply NoDup_app. split; [done|]. split.
    + intros x Hx [->|[->|Hx2]%elem_of_cons]%elem_of_cons; [done..|].
      apply (Hdisj x Hx). by apply list_elem_of_further.
    + apply NoDup_cons. split.
      * intros [->|Hin]%elem_of_cons; done.
      * by apply NoDup_cons.
  - rewrite data_of_app. f_equal.
    + apply data_of_frame. intros x Hx. by rewrite Hsame1.
    + unfold data_of. simpl. rewrite Hq', Hp'. simpl. do 2 f_equal.
      apply data_of_frame. intros x Hx. by rewrite Hsame2.
Qed.

(** The walk of [append] stops at the last node of the list. *)
Lemma last_node_chain h p0 ps q fuel :
  chain_to h (Some p0) (ps ++ [q]) None -> (length ps <= fuel)%nat ->
  last_node fuel h p0 = q.
Proof.
  revert p0 fuel. induction ps as [|a ps IH]; intros p0 fuel; simpl.
  - intros ([= ->] & nd & Hnd & Hnext) _. destruct fuel; simpl; [done|].
    rewrite Hnd. destruct nd as [dt nx]. simpl in Hnext. by subst nx.
  - intros ([= ->] & nd & Hnd & Hc) Hfuel. destruct fuel as [|fuel]; [lia|].
    simpl. rewrite Hnd. destruct nd as [dt nx]. simpl in Hc.
    destruct nx as [n|].
    + apply IH; [done|lia].
    + destruct ps; simpl in Hc; by destruct Hc.
Qed.

Lemma push_spec (st : state) (new_data : Z) :
  wf st ->
  wf (push st new_data) /\
  to_list (push st new_data) = new_data :: to_list st.
Proof.
  intros [ps Hn]. pose proof (to_list_nodes st ps Hn) as Hold.
  destruct Hn as [Hc Hnd].
  pose proof (alloc_fresh (heap st) new_data) as Hfresh.
  unfold push. unfold alloc in *. simpl in Hfresh.
  set (p := fresh (dom (heap st))) in *.
  assert (Hp : p ∉ ps). { intros Hin. apply Hfresh. by eapply chain_to_dom. }
  set (h' := set_next (<[p:=mkNode new_data None]> (heap st)) p (head st)).
  assert (Hp' : h' !! p = Some (mkNode new_data (head st))).
  { unfold h', set_next. by rewrite lookup_alter_eq, lookup_insert_eq. }
  assert (Hother : forall x, x ∈ ps -> h' !! x = heap st !! x).
  { intros x Hx. unfold h', set_next.
    rewrite lookup_alter_ne, lookup_insert_ne; [done|intros ->; done..]. }
  assert (Hn' : nodes (mkState h' (Some p) (stdout st)) (p :: ps)).
  { split; simpl.
    - split; [done|]. eexists. split; [exact Hp'|]. simpl.
      by apply (chain_to_frame (heap st)).
    - by apply NoDup_cons. }
  split; [by exists (p :: ps)|].
  rewrite (to_list_nodes _ _ Hn'), Hold. unfold data_of. simpl.
  rewrite Hp'. simpl. f_equal. apply data_of_frame.
  intros x Hx. by rewrite Hother.
Qed.

(** X5: [push] on a well-formed list leaves a well-formed list whose
    traversal is the pushed value followed by the old traversal. *)
Theorem push_prepends (st : state) (new_data : Z) :
  wf st ->
  wf (push st new_data) /\
  to_list (push st new_data) = new_data :: to_list st.
Proof. apply push_spec. Qed.

(** The first call of the script: a push on the empty list. *)
Lemma push_prepends_witness :
  wf (push empty 7) /\ to_list (push empty 7) = 7 :: to_list empty.
Proof.
  apply (push_prepends empty 7). exists []. split; [reflexivity|constructor].
Defined.

Lemma wf_empty : wf empty.
Proof. exists []. split; [reflexivity|constructor]. Qed.

Lemma data_of_length h r ps e :
  chain_to h r ps e -> length (data_of h ps) = length ps.
Proof.
  revert r. induction ps as [|p ps IH]; intros r; simpl; [done|].
  intros (-> & nd & Hnd & Hc). unfold data_of in *. simpl. rewrite Hnd. simpl.
  f_equal. by eapply IH.
Qed.

Lemma append_spec (st : state) (new_data : Z) :
  wf st ->
  wf (append st new_data) /\
  to_list (append st new_data) = to_list st ++ [new_data].
Proof.
  intros [ps Hn]. pose proof (to_list_nodes st ps Hn) as Hold.
  pose proof (nodes_length st ps Hn) as Hlen.
  destruct Hn as [Hc Hnd].
  pose proof (alloc_fresh (heap st) new_data) as Hfresh.
  unfold append. unfold alloc in *. simpl in Hfresh.
  set (p := fresh (dom (heap st))) in *.
  set (h1 := <[p:=mkNode new_data None]> (heap st)).
  assert (Hp : p ∉ ps). { intros Hin. apply Hfresh. by eapply chain_to_dom. }
  assert (Hsame : forall x, x ∈ ps -> h1 !! x = heap st !! x).
  { intros x Hx. unfold h1. rewrite lookup_insert_ne; [done|intros ->; done]. }
  destruct (head st) as [hd|] eqn:Hhead.
  - destruct ps as [|q ps' _] using rev_ind; [done|].
    assert (Hlast : last_node (size h1) h1 hd = q).
    { apply last_node_chain with (ps := ps').
      - by apply (chain_to_frame (heap st)).
      - unfold h1. rewrite map_size_insert_None
          by (by apply not_elem_of_dom).
        rewrite length_app in Hlen. simpl in Hlen. lia. }
    rewrite Hlast.
    assert (Hq : q ∈ ps' ++ [q]).
    { apply elem_of_app. right. apply list_elem_of_here. }
    assert (Hpq : p <> q) by (intros ->; done).
    pose proof Hc as Hc'. apply chain_to_app in Hc' as (m & _ & Hcq).
    simpl in Hcq. destruct Hcq as (-> & ndq & Hndq & Hnext).
    destruct (splice_chain (heap st) (set_next h1 q (Some p)) (Some hd)
                ps' q [] p ndq new_data) as (Hc2 & Hnd2 & Hdata);
      [exact Hc|exact Hnd|exact Hfresh|exact Hndq|..].
    + unfold set_next, h1. rewrite lookup_alter_ne, lookup_insert_eq by done.
      by rewrite Hnext.
    + unfold set_next, h1.
      by rewrite lookup_alter_eq, lookup_insert_ne, Hndq by done.
    + intros x Hxp Hxq. unfold set_next, h1.
      by rewrite lookup_alter_ne, lookup_insert_ne by done.
    + assert (Hn' : nodes (mkState (set_next h1 q (Some p)) (Some hd) (stdout st))
                      (ps' ++ [q; p])) by (by split).
      split; [by eexists|].
      rewrite (to_list_nodes _ _ Hn'), Hold. simpl. rewrite Hdata.
      rewrite data_of_app. unfold data_of at 3. simpl. rewrite Hndq. simpl.
      by rewrite <- app_assoc.
  - destruct ps as [|q ps]; [|by destruct Hc].
    assert (Hn' : nodes (mkState h1 (Some p) (stdout st)) [p]).
    { split; simpl; [|apply NoDup_singleton].
      split; [done|]. eexists. split; [apply lookup_insert_eq|done]. }
    split; [by eexists|].
    rewrite (to_list_nodes _ _ Hn'), Hold. unfold data_of. simpl.
    unfold h1. by rewrite lookup_insert_eq.
Qed.

(** X6: [append] on a well-formed list leaves a well-formed list whose
    traversal is the old traversal followed by the appended value; the walk
    to the last node ends within the fuel [append] gives it. *)
Theorem append_appends (st : state) (new_data : Z) :
  wf st ->
  wf (append st new_data) /\
  to_list (append st new_data) = to_list st ++ [new_data].
Proof. apply append_spec. Qed.

(** A list of one node. *)
Lemma append_appends_witness :
  wf (append (push empty 7) 4) /\
  to_list (append (push empty 7) 4) = to_list (push empty 7) ++ [4].
Proof.
  apply (append_appends (push empty 7) 4).
  apply (push_spec empty 7), wf_empty.
Defined.

(** X7: [insert_after] given the [i]-th node of a well-formed list puts the
    new value right behind the [i]-th value and keeps everything else in
    place; the list stays well-formed and grows by one. *)
Theorem insert_after_node (st : state) (i : nat) (prev : nat) (new_data : Z) :
  wf st -> nth_ref st i = Some prev ->
  wf (insert_after st (Some prev) new_data) /\
  to_list (insert_after st (Some prev) new_data) =
    take (S i) (to_list st) ++ new_data :: drop (S i) (to_list st) /\
  length (to_list (insert_after st (Some prev) new_data)) =
    S (length (to_list st)).
Proof.
  intros [ps Hn] Hnth. pose proof (to_list_nodes st ps Hn) as Hold.
  destruct Hn as [Hc Hnd].
  unfold nth_ref in Hnth. rewrite (follow_chain _ _ ps i Hc) in Hnth.
  pose proof (take_drop_middle ps i prev Hnth) as Hps.
  set (ps1 := take i ps) in *. set (ps2 := drop (S i) ps) in *.
  rewrite <- Hps in Hc, Hnd, Hold.
  pose proof (alloc_fresh (heap st) new_data) as Hfresh.
  unfold insert_after. unfold alloc in *. simpl in Hfresh.
  set (p := fresh (dom (heap st))) in *.
  pose proof Hc as Hc'. apply chain_to_app in Hc' as (m & Hc1 & Hcq).
  simpl in Hcq. destruct Hcq as (-> & ndq & Hndq & Hc2).
  assert (Hpq : p <> prev).
  { intros ->. apply Hfresh. apply elem_of_dom. by eexists. }
  rewrite Hndq. simpl.
  set (h' := set_next (set_next (<[p:=mkNode new_data None]> (heap st)) p (next ndq))
               prev (Some p)).
  destruct (splice_chain (heap st) h' (head st) ps1 prev ps2 p ndq new_data)
    as (Hc3 & Hnd3 & Hdata); [exact Hc|exact Hnd|exact Hfresh|exact Hndq|..].
  - unfold h', set_next.
    by rewrite lookup_alter_ne, lookup_alter_eq, lookup_insert_eq by done.
  - unfold h', set_next.
    by rewrite lookup_alter_eq, lookup_alter_ne, lookup_insert_ne, Hndq by done.
  - intros x Hxp Hxq. unfold h', set_next.
    by rewrite !lookup_alter_ne, lookup_insert_ne by done.
  - assert (Hn' : nodes (mkState h' (head st) (stdout st))
                    (ps1 ++ prev :: p :: ps2)) by (by split).
    assert (Hlen1 : length (data_of (heap st) ps1) = i).
    { rewrite (data_of_length _ _ _ _ Hc1). unfold ps1.
      apply length_take_le. apply lookup_lt_Some in Hnth. lia. }
    assert (Hold' : to_list st =
              (data_of (heap st) ps1 ++ [data ndq]) ++ data_of (heap st) ps2).
    { rewrite Hold, data_of_app, <- app_assoc. f_equal.
      unfold data_of. simpl. by rewrite Hndq. }
    assert (Hres : to_list (mkState h' (head st) (stdout st)) =
                   take (S i) (to_list st) ++ new_data :: drop (S i) (to_list st)).
    { rewrite (to_list_nodes _ _ Hn'), Hold'. simpl. rewrite Hdata.
      rewrite take_app_length', drop_app_length'
        by (rewrite length_app; simpl; lia).
      by rewrite <- app_assoc. }
    split; [by eexists|]. split; [exact Hres|].
    rewrite Hres, length_app. simpl. rewrite length_take, length_drop.
    assert (i < length (to_list st))%nat; [|lia].
    rewrite Hold', !length_app. simpl. lia.
Qed.

(** The call of the script on a shorter list: the node behind the head of
    [7 -> 6]. *)
Lemma insert_after_node_witness :
  to_list (insert_after (append (push empty 7) 6) (Some 1%nat) 8) =
  take 2 (to_list (append (push empty 7) 6)) ++
  8 :: drop 2 (to_list (append (push empty 7) 6)).
Proof.
  apply (insert_after_node (append (push empty 7) 6) 1 1 8).
  - apply append_spec, push_spec, wf_empty.
  - reflexivity.
Defined.

(** X8: [insert_after] given a node that is not one of the list's nodes
    (a free-standing node, or a node of another list) does not report
    anything and does not change the list: its traversal and its length are
    the ones before the call. *)
Theorem insert_after_foreign_node (st : state) (ps : list nat) (prev : nat)
    (new_data : Z) :
  nodes st ps -> prev ∉ ps ->
  nodes (insert_after st (Some prev) new_data) ps /\
  to_list (insert_after st (Some prev) new_data) = to_list st /\
  stdout (insert_after st (Some prev) new_data) = stdout st.
Proof.
  intros Hn Hprev. pose proof (to_list_nodes st ps Hn) as Hold.
  destruct Hn as [Hc Hnd].
  pose proof (alloc_fresh (heap st) new_data) as Hfresh.
  unfold insert_after. unfold alloc in *. simpl in Hfresh.
  set (p := fresh (dom (heap st))) in *.
  set (h' := set_next (set_next (<[p:=mkNode new_data None]> (heap st)) p _)
               prev (Some p)).
  assert (Hp : p ∉ ps). { intros Hin. apply Hfresh. by eapply chain_to_dom. }
  assert (Hsame : forall x, x ∈ ps -> h' !! x = heap st !! x).
  { intros x Hx. unfold h', set_next.
    rewrite !lookup_alter_ne, lookup_insert_ne; [done|intros ->; done..]. }
  assert (Hn' : nodes (mkState h' (head st) (stdout st)) ps).
  { split; [|done]. simpl. by apply (chain_to_frame (heap st)). }
  split; [done|]. split; [|done].
  rewrite (to_list_nodes _ _ Hn'), Hold. simpl. apply data_of_frame.
  intros x Hx. by rewrite Hsame.
Qed.

(** [n = Node(d)] in a script: a new node object that no list holds
    yet. *)
Definition new_node (st : state) (d : Z) : nat * state :=
  let '(n, h) := alloc (heap st) d in (n, mkState h (head st) (stdout st)).

(** The list [1 -> 2] and a free-standing [n = Node(99)] (the object 2):
    [insert_after(n, 8)] links the new node behind [n], and the list is
    still [1 -> 2]. *)
Lemma insert_after_foreign_node_witness :
  new_node (push (push empty 2) 1) 99 =
    (2%nat, (new_node (push (push empty 2) 1) 99).2) /\
  to_list (new_node (push (push empty 2) 1) 99).2 = [1; 2] /\
  heap (new_node (push (push empty 2) 1) 99).2 !! 2%nat =
    Some (mkNode 99 None) /\
  heap (insert_after (new_node (push (push empty 2) 1) 99).2 (Some 2%nat) 8)
    !! 2%nat = Some (mkNode 99 (Some 3%nat)) /\
  nodes (insert_after (new_node (push (push empty 2) 1) 99).2 (Some 2%nat) 8)
    [1; 0]%nat /\
  to_list (insert_after (new_node (push (push empty 2) 1) 99).2 (Some 2%nat) 8) =
    to_list (new_node (push (push empty 2) 1) 99).2 /\
  stdout (insert_after (new_node (push (push empty 2) 1) 99).2 (Some 2%nat) 8) =
    stdout (new_node (push (push empty 2) 1) 99).2.
Proof.
  split; [reflexivity|]. split; [reflexivity|]. split; [reflexivity|].
  split; [reflexivity|].
  apply (insert_after_foreign_node (new_node (push (push empty 2) 1) 99).2
           [1; 0]%nat 2 8).
  - split.
    + split; [reflexivity|]. eexists. split; [reflexivity|].
      split; [reflexivity|]. eexists. split; [reflexivity|]. reflexivity.
    + apply NoDup_cons. split; [|apply NoDup_singleton].
      intros Hin%list_elem_of_singleton. discriminate Hin.
  - intros [Hin|Hin%list_elem_of_singleton]%elem_of_cons; discriminate Hin.
Defined.

(** A call of [push] or [append]. *)
Inductive op : Type := Push (d : Z) | Append (d : Z).

Definition run_op (st : state) (o : op) : state :=
  match o with
  | Push d => push st d
  | Append d => append st d
  end.

(** The same call on a sequence of values. *)
Definition model_op (l : list Z) (o : op) : list Z :=
  match o with
  | Push d => d :: l
  | Append d => l ++ [d]
  end.

(** X9: whatever sequence of [push] and [append] calls is made on a new
    [LinkedList()], the list stays finite and acyclic, and its traversal
    is what the same sequence of prepend and append steps makes of the
    empty sequence; in particular its length is the number of calls. *)
Theorem pushes_and_appends (ops : list op) :
  wf (fold_left run_op ops empty) /\
  to_list (fold_left run_op ops empty) = fold_left model_op ops [] /\
  length (to_list (fold_left run_op ops empty)) = length ops.
Proof.
  induction ops as [|o ops IH] using rev_ind.
  - split; [apply wf_empty|]. by split.
  - destruct IH as (Hwf & Hlist & Hlen). rewrite !fold_left_app. simpl.
    destruct o as [d|d]; simpl.
    + destruct (push_spec _ d Hwf) as [Hwf' Heq].
      split; [done|]. rewrite Heq, Hlist. split; [done|].
      rewrite length_app. simpl. rewrite <- Hlist. lia.
    + destruct (append_spec _ d Hwf) as [Hwf' Heq].
      split; [done|]. rewrite Heq, Hlist. split; [done|].
      rewrite !length_app. simpl. rewrite <- Hlist. lia.
Qed.

End LinkedList.

(** ** The fragment of Python the algorithm scripts use *)

Module Py.

(** The exceptions the scripts can raise. *)
Inductive exn : Type := IndexError | ValueError.

(** The outcome of running a piece of code: a value, an exception, or
    [OutOfFuel] when the bound put on a loop or on a recursion was reached
    (the theorems show it is never reached with the bounds they name). *)
Inductive result (A : Type) : Type :=
| Ok (a : A)
| Raise (e : exn)
| OutOfFuel.
Arguments Ok {A} a.
Arguments Raise {A} e.
Arguments OutOfFuel {A}.

Definition bind {A B} (m : result A) (k : A -> result B) : result B :=
  match m with
  | Ok a => k a
  | Raise e => Raise e
  | OutOfFuel => OutOfFuel
  end.

#[global] Instance result_ret : MRet result := fun A a => Ok a.
#[global] Instance result_bind : MBind result := fun A B k m => bind m k.

(** List indexing as the interpreter does it: [-len <= i < 0] counts from
    the end, [0 <= i < len] from the start, anything else is an
    [IndexError]. *)
Definition norm_index (len i : Z) : option nat :=
  let j := if i <? 0 then i + len else i in
  if (0 <=? j) && (j <? len) then Some (Z.to_nat j) else None.

Definition getitem {A} (l : list A) (i : Z) : result A :=
  match norm_index (Z.of_nat (length l)) i ≫= fun j => l !! j with
  | Some a => Ok a
  | None => Raise IndexError
  end.

Definition setitem {A} (l : list A) (i : Z) (v : A) : result (list A) :=
  match norm_index (Z.of_nat (length l)) i with
  | Some j => Ok (<[j := v]> l)
  | None => Raise IndexError
  end.

(** [len(l)] *)
Definition len {A} (l : list A) : Z := Z.of_nat (length l).

(** [range(lo, hi)] *)
Definition range (lo hi : Z) : list Z := seqZ lo (hi - lo).

(** [for x in xs: body], threading the state of the loop. *)
Fixpoint for_each {S X} (xs : list X) (body : X -> S -> result S) (s : S)
  : result S :=
  match xs with
  | [] => Ok s
  | x :: xs => bind (body x s) (for_each xs body)
  end.

(** [while cond: body] *)
Fixpoint while {S} (fuel : nat) (cond : S -> bool) (body : S -> result S)
  (s : S) : result S :=
  if cond s then
    match fuel with
    | O => OutOfFuel
    | S fuel => bind (body s) (while fuel cond body)
    end
  else Ok s.

Lemma getitem_Ok {A} (l : list A) (i : Z) (a : A) :
  0 <= i -> l !! Z.to_nat i = Some a -> getitem l i = Ok a.
Proof.
  intros Hi Hl. pose proof (lookup_lt_Some _ _ _ Hl) as Hlt.
  unfold getitem, norm_index.
  destruct (Z.ltb_spec i 0); [lia|].
  destruct (Z.leb_spec 0 i); [|lia].
  destruct (Z.ltb_spec i (Z.of_nat (length l))); [|lia].
  simpl. by rewrite Hl.
Qed.

Lemma getitem_nat {A} (l : list A) (i : nat) (a : A) :
  l !! i = Some a -> getitem l (Z.of_nat i) = Ok a.
Proof. intros H. apply getitem_Ok; [lia|]. by rewrite Nat2Z.id. Qed.

Lemma getitem_inv {A} (l : list A) (i : Z) (a : A) :
  0 <= i -> getitem l i = Ok a -> l !! Z.to_nat i = Some a.
Proof.
  intros Hi. unfold getitem, norm_index.
  destruct (Z.ltb_spec i 0); [lia|].
  destruct ((0 <=? i) && (i <? Z.of_nat (length l))); simpl; [|done].
  destruct (l !! Z.to_nat i); [|done]. by intros [= ->].
Qed.

Lemma setitem_Ok {A} (l : list A) (i : Z) (v : A) :
  0 <= i < len l -> setitem l i v = Ok (<[Z.to_nat i := v]> l).
Proof.
  unfold len. intros Hi. unfold setitem, norm_index.
  destruct (Z.ltb_spec i 0); [lia|].
  destruct (Z.leb_spec 0 i); [|lia].
  destruct (Z.ltb_spec i (Z.of_nat (length l))); [|lia].
  done.
Qed.

Lemma range_nil lo hi : hi <= lo -> range lo hi = [].
Proof.
  intros H. unfold range. apply seqZ_nil. lia.
Qed.

Lemma range_cons lo hi : lo < hi -> range lo hi = lo :: range (lo + 1) hi.
Proof.
  intros H. unfold range. rewrite seqZ_cons by lia.
  f_equal. f_equal; lia.
Qed.

Lemma range_snoc lo hi : lo <= hi -> range lo (hi + 1) = range lo hi ++ [hi].
Proof.
  intros H. unfold range.
  replace (hi + 1 - lo) with ((hi - lo) + 1) by lia.
  rewrite seqZ_app by lia. f_equal.
  replace (lo + (hi - lo)) with hi by lia. reflexivity.
Qed.

Lemma len_app {A} (l1 l2 : list A) : len (l1 ++ l2) = len l1 + len l2.
Proof. unfold len. rewrite length_app. lia. Qed.

Lemma len_cons {A} (a : A) (l : list A) : len (a :: l) = 1 + len l.
Proof. unfold len. simpl. lia. Qed.

Lemma len_nonneg {A} (l : list A) : 0 <= len l.
Proof. unfold len. lia. Qed.

(** Arithmetic goals about lengths of concatenations. *)
Ltac len_lia :=
  unfold len in *; repeat rewrite length_app in *; simpl length in *; lia.

(** Reading and writing the element that follows a prefix of known
    length. *)
Lemma getitem_middle {A} (l1 l2 : list A) (a : A) (i : Z) :
  i = len l1 -> getitem (l1 ++ a :: l2) i = Ok a.
Proof.
  intros ->. apply getitem_Ok; [apply len_nonneg|].
  unfold len. rewrite Nat2Z.id. apply list_lookup_middle. done.
Qed.

Lemma setitem_middle {A} (l1 l2 : list A) (a v : A) (i : Z) :
  i = len l1 -> setitem (l1 ++ a :: l2) i v = Ok (l1 ++ v :: l2).
Proof.
  intros ->. rewrite setitem_Ok.
  - unfold len. rewrite Nat2Z.id.
    replace (length l1) with (length l1 + 0)%nat by lia.
    by rewrite insert_app_r.
  - rewrite len_app, len_cons.
    pose proof (len_nonneg l1). pose proof (len_nonneg l2). lia.
Qed.

End Py.

(** ** Searching *)

Module Searching.
Import Py.

(** [linear_search(arr, x)]: the body of [for i in range(len(arr))], with
    its early [return i]; falling out of the loop returns [-1]. *)
Fixpoint linear_search_loop (arr : list Z) (x : Z) (indices : list Z)
  : result Z :=
  match indices with
  | [] => Ok (-1)
  | i :: indices =>
      a ← getitem arr i;
      if a =? x then Ok i else linear_search_loop arr x indices
  end.

Definition linear_search (arr : list Z) (x : Z) : result Z :=
  linear_search_loop arr x (range 0 (len arr)).

(** [binary_search(arr, low, high, x)]; [//] is floor division.  The fuel
    bounds the depth of the recursion. *)
Fixpoint binary_search (fuel : nat) (arr : list Z) (low high x : Z)
  : result Z :=
  if high >=? low then
    match fuel with
    | O => OutOfFuel
    | S fuel =>
        let mid := (high + low) `div` 2 in
        a ← getitem arr mid;
        if a =? x then Ok mid
        else if a >? x then binary_search fuel arr low (mid - 1) x
        else binary_search fuel arr (mid + 1) high x
    end
  else Ok (-1).

(** In an ascending sequence, a later position holds a value at least as
    large. *)
Lemma sorted_lookup_le (arr : list Z) (i j : nat) (a b : Z) :
  StronglySorted Z.le arr -> (i <= j)%nat ->
  arr !! i = Some a -> arr !! j = Some b -> a <= b.
Proof.
  intros Hs. revert i j. induction Hs as [|c arr Hs IH Hall]; intros i j Hij Hi Hj.
  - done.
  - destruct i as [|i], j as [|j]; simpl in *; simplify_eq; try lia.
    + rewrite Forall_forall in Hall. apply Hall.
      apply list_elem_of_lookup. eauto.
    + apply (IH i j); [lia|done..].
Qed.

(** What the linear scan from position [lo] returns: the first position
    from [lo] on that holds [x], or [-1] when there is none. *)
Lemma linear_search_loop_spec (arr : list Z) (x : Z) (n : nat) (lo : Z) :
  0 <= lo -> lo + Z.of_nat n = len arr ->
  exists r, linear_search_loop arr x (range lo (len arr)) = Ok r /\
    ((r = -1 /\ forall j, lo <= j < len arr -> arr !! Z.to_nat j <> Some x) \/
     (lo <= r < len arr /\ arr !! Z.to_nat r = Some x /\
      forall j, lo <= j < r -> arr !! Z.to_nat j <> Some x)).
Proof.
  revert lo. induction n as [|n IH]; intros lo Hlo Hn.
  - rewrite range_nil by lia. exists (-1). split; [done|]. left.
    split; [done|]. intros j Hj. lia.
  - rewrite range_cons by lia. simpl.
    destruct (lookup_lt_is_Some_2 arr (Z.to_nat lo)) as [a Ha];
      [unfold len in Hn; lia|].
    rewrite (getitem_Ok _ _ _ Hlo Ha). simpl.
    destruct (Z.eqb_spec a x) as [->|Hne].
    + exists lo. split; [done|]. right. split; [lia|]. split; [done|].
      intros j Hj. lia.
    + destruct (IH (lo + 1)) as (r & Hr & Hcase); [lia..|].
      exists r. split; [done|].
      assert (Hlo' : forall j, lo <= j < lo + 1 -> arr !! Z.to_nat j <> Some x).
      { intros j Hj. replace j with lo by lia. congruence. }
      destruct Hcase as [[-> Hnone]|(Hr1 & Hr2 & Hnone)].
      * left. split; [done|]. intros j Hj.
        destruct (decide (j < lo + 1)); [apply Hlo'; lia | apply Hnone; lia].
      * right. split; [lia|]. split; [done|]. intros j Hj.
        destruct (decide (j < lo + 1)); [apply Hlo'; lia | apply Hnone; lia].
Qed.

(** What the recursive halving returns on an ascending sequence: a
    position of the window that holds [x], or [-1] when the window holds no
    [x]. *)
Lemma binary_search_spec (fuel : nat) (arr : list Z) (low high x : Z) :
  StronglySorted Z.le arr ->
  0 <= low -> high < len arr -> high - low + 1 <= Z.of_nat fuel ->
  exists r, binary_search fuel arr low high x = Ok r /\
    ((r = -1 /\ forall j, low <= j <= high -> arr !! Z.to_nat j <> Some x) \/
     (low <= r <= high /\ arr !! Z.to_nat r = Some x)).
Proof.
  intros Hs. revert low high.
  induction fuel as [|fuel IH]; intros low high Hlow Hhigh Hfuel; simpl.
  - destruct (Z.geb_spec high low); [lia|].
    exists (-1). split; [done|]. left. split; [done|]. intros; lia.
  - destruct (Z.geb_spec high low) as [Hge|Hlt].
    2:{ exists (-1). split; [done|]. left. split; [done|]. intros; lia. }
    set (mid := (high + low) `div` 2).
    assert (Hmid : low <= mid <= high).
    { unfold mid. split.
      - apply Z.div_le_lower_bound; lia.
      - apply Z.div_le_upper_bound; lia. }
    destruct (lookup_lt_is_Some_2 arr (Z.to_nat mid)) as [a Ha];
      [unfold len in Hhigh; lia|].
    rewrite (getitem_Ok arr mid a) by (done || lia). simpl.
    destruct (Z.eqb_spec a x) as [->|Hne].
    { exists mid. split; [done|]. right. by split. }
    destruct (Z.gtb_spec a x) as [Hgt|Hle].
    + destruct (IH low (mid - 1)) as (r & Hr & Hcase); [lia..|].
      exists r. split; [done|].
      destruct Hcase as [[-> Hnone]|[Hr1 Hr2]]; [left|right; split; [lia|done]].
      split; [done|]. intros j Hj Hjx.
      destruct (decide (j <= mid - 1)); [by apply (Hnone j); [lia|]|].
      assert (a <= x); [|lia].
      apply (sorted_lookup_le arr (Z.to_nat mid) (Z.to_nat j)); [done|lia|done..].
    + destruct (IH (mid + 1) high) as (r & Hr & Hcase); [lia..|].
      exists r. split; [done|].
      destruct Hcase as [[-> Hnone]|[Hr1 Hr2]]; [left|right; split; [lia|done]].
      split; [done|]. intros j Hj Hjx.
      destruct (decide (mid + 1 <= j)); [by apply (Hnone j); [lia|]|].
      assert (x <= a); [|lia].
      apply (sorted_lookup_le arr (Z.to_nat j) (Z.to_nat mid)); [done|lia|done..].
Qed.

(** C8: on every sequence sorted in ascending order and for every target,
    both searches return normally, [binary_search(arr, 0, len(arr)-1, x)]
    returns [-1] exactly when [linear_search(arr, x)] does, and whenever
    either returns something else it is a valid index at which the sequence
    holds the target.  Fuel [len(arr)] is enough for the recursion. *)
Theorem binary_search_agrees_with_linear_search
  (arr : list Z) (x : Z) (fuel : nat) :
  Sorted Z.le arr -> (length arr <= fuel)%nat ->
  exists rb rl,
    binary_search fuel arr 0 (len arr - 1) x = Ok rb /\
    linear_search arr x = Ok rl /\
    (rb = -1 <-> rl = -1) /\
    (rb <> -1 -> 0 <= rb < len arr /\ getitem arr rb = Ok x) /\
    (rl <> -1 -> 0 <= rl < len arr /\ getitem arr rl = Ok x).
Proof.
  intros Hsorted Hfuel.
  assert (Hs : StronglySorted Z.le arr).
  { apply Sorted_StronglySorted; [|done]. intros a b c; lia. }
  destruct (binary_search_spec fuel arr 0 (len arr - 1) x Hs)
    as (rb & Hrb & Hb); [unfold len; lia..|].
  destruct (linear_search_loop_spec arr x (length arr) 0)
    as (rl & Hrl & Hl); [unfold len; lia..|].
  exists rb, rl. split; [done|]. split; [done|].
  destruct Hb as [[-> Hbnone]|[Hb1 Hb2]], Hl as [[-> Hlnone]|(Hl1 & Hl2 & _)].
  - repeat split; done.
  - exfalso. apply (Hbnone rl); [lia|done].
  - exfalso. apply (Hlnone rb); [lia|done].
  - repeat split; try lia; by apply getitem_Ok; [lia|].
Qed.

(** The sequence and the target of the script. *)
Lemma binary_search_agrees_with_linear_search_witness :
  exists rb rl,
    binary_search 5 [2; 3; 4; 10; 40] 0 (len [2; 3; 4; 10; 40] - 1) 10 = Ok rb /\
    linear_search [2; 3; 4; 10; 40] 10 = Ok rl /\
    (rb = -1 <-> rl = -1) /\
    (rb <> -1 -> 0 <= rb < len [2; 3; 4; 10; 40] /\
                 getitem [2; 3; 4; 10; 40] rb = Ok 10) /\
    (rl <> -1 -> 0 <= rl < len [2; 3; 4; 10; 40] /\
                 getitem [2; 3; 4; 10; 40] rl = Ok 10).
Proof.
  apply (binary_search_agrees_with_linear_search [2; 3; 4; 10; 40] 10 5).
  - repeat constructor; lia.
  - simpl; lia.
Defined.

(** The script's runs, and a run with duplicates in which the two
    searches find different positions. *)
Example searching_script :
  linear_search [2; 3; 4; 10; 40] 10 = Ok 3 /\
  binary_search 5 [2; 3; 4; 10; 40] 0 4 10 = Ok 3 /\
  linear_search [1; 1; 1] 1 = Ok 0 /\
  binary_search 3 [1; 1; 1] 0 2 1 = Ok 1 /\
  binary_search 0 [] 0 (-1) 7 = Ok (-1).
Proof. by vm_compute. Qed.

(** *** More about the two searches *)

(** X10: on any sequence, sorted or not, [linear_search] returns the
    position of the first occurrence of the target, and [-1] exactly when
    the target does not occur; it never raises. *)
Theorem linear_search_first_occurrence (arr : list Z) (x : Z) :
  exists r, linear_search arr x = Ok r /\
    ((r = -1 /\ x ∉ arr) \/
     (0 <= r < len arr /\ arr !! Z.to_nat r = Some x /\
      forall j, (j < Z.to_nat r)%nat -> arr !! j <> Some x)).
Proof.
  destruct (linear_search_loop_spec arr x (length arr) 0)
    as (r & Hr & Hcase); [unfold len; lia..|].
  exists r. split; [done|].
  destruct Hcase as [[-> Hnone]|(Hr1 & Hr2 & Hnone)]; [left|right].
  - split; [done|]. intros [j Hj]%list_elem_of_lookup.
    apply (Hnone (Z.of_nat j)).
    + apply lookup_lt_Some in Hj. unfold len. lia.
    + by rewrite Nat2Z.id.
  - split; [done|]. split; [done|]. intros j Hj Hjx.
    apply (Hnone (Z.of_nat j)); [lia|]. by rewrite Nat2Z.id.
Qed.

Lemma getitem_out_of_range {A} (l : list A) (i : Z) :
  len l <= i -> getitem l i = Raise IndexError.
Proof.
  unfold len. intros Hi. unfold getitem, norm_index.
  destruct (Z.ltb_spec i 0); [lia|].
  destruct (Z.leb_spec 0 i); [|lia].
  destruct (Z.ltb_spec i (Z.of_nat (length l))); [lia|]. done.
Qed.

(** X11: [binary_search] on a window that lies inside the sequence returns
    within a recursion depth logarithmic in the width of the window - depth
    [d] is enough for a window of fewer than [2^d] positions - and, sorted
    sequence or not, what it returns is [-1] or a position of the window at
    which the sequence holds the target; it does not raise [IndexError]. *)
Theorem binary_search_logarithmic (fuel : nat) (arr : list Z) (low high x : Z) :
  0 <= low -> high < len arr -> high - low + 1 < 2 ^ Z.of_nat fuel ->
  exists r, binary_search fuel arr low high x = Ok r /\
    (r = -1 \/ (low <= r <= high /\ getitem arr r = Ok x)).
Proof.
  revert low high.
  induction fuel as [|fuel IH]; intros low high Hlow Hhigh Hfuel; simpl.
  - simpl in Hfuel. destruct (Z.geb_spec high low); [lia|].
    exists (-1). split; [done|]. by left.
  - destruct (Z.geb_spec high low) as [Hge|Hlt].
    2:{ exists (-1). split; [done|]. by left. }
    rewrite Nat2Z.inj_succ, Z.pow_succ_r in Hfuel by lia.
    set (mid := (high + low) `div` 2).
    assert (Hmid : 2 * mid <= high + low < 2 * mid + 2).
    { unfold mid. pose proof (Z.div_mod (high + low) 2 ltac:(lia)).
      pose proof (Z.mod_pos_bound (high + low) 2 ltac:(lia)). lia. }
    destruct (lookup_lt_is_Some_2 arr (Z.to_nat mid)) as [a Ha];
      [unfold len in Hhigh; lia|].
    rewrite (getitem_Ok arr mid a) by (done || lia). simpl.
    destruct (Z.eqb_spec a x) as [->|Hne].
    { exists mid. split; [done|]. right. split; [lia|].
      apply getitem_Ok; [lia|done]. }
    destruct (a >? x).
    + destruct (IH low (mid - 1)) as (r & Hr & Hcase); [lia..|].
      exists r. split; [done|].
      destruct Hcase as [->|[Hr1 Hr2]]; [by left|right]. split; [lia|done].
    + destruct (IH (mid + 1) high) as (r & Hr & Hcase); [lia..|].
      exists r. split; [done|].
      destruct Hcase as [->|[Hr1 Hr2]]; [by left|right]. split; [lia|done].
Qed.

(** The sequence of the script: five positions, depth three. *)
Lemma binary_search_logarithmic_witness :
  exists r, binary_search 3 [2; 3; 4; 10; 40] 0 4 10 = Ok r /\
    (r = -1 \/ (0 <= r <= 4 /\ getitem [2; 3; 4; 10; 40] r = Ok 10)).
Proof.
  apply (binary_search_logarithmic 3 [2; 3; 4; 10; 40] 0 4 10);
    [lia | unfold len; simpl; lia | simpl; lia].
Defined.

(** X12: the upper bound is inclusive.  Called with [high = len(arr)]
    instead of [len(arr) - 1], [binary_search] for a target larger than
    every element walks off the end of the sequence and raises
    [IndexError] instead of returning [-1]. *)
Theorem binary_search_past_the_end (fuel : nat) (arr : list Z) (low x : Z) :
  (forall a, a ∈ arr -> a < x) -> 0 <= low <= len arr ->
  len arr - low + 1 <= Z.of_nat fuel ->
  binary_search fuel arr low (len arr) x = Raise IndexError.
Proof.
  intros Hsmall. revert low.
  induction fuel as [|fuel IH]; intros low Hlow Hfuel; [lia|]. simpl.
  destruct (Z.geb_spec (len arr) low) as [_|?]; [|lia].
  set (mid := (len arr + low) `div` 2).
  assert (Hmid : 2 * mid <= len arr + low < 2 * mid + 2).
  { unfold mid. pose proof (Z.div_mod (len arr + low) 2 ltac:(lia)).
    pose proof (Z.mod_pos_bound (len arr + low) 2 ltac:(lia)). lia. }
  destruct (decide (mid < len arr)) as [Hin|Hout].
  - destruct (lookup_lt_is_Some_2 arr (Z.to_nat mid)) as [a Ha];
      [unfold len in Hin; lia|].
    rewrite (getitem_Ok arr mid a) by (done || lia). simpl.
    assert (a < x) by (apply Hsmall, list_elem_of_lookup; eauto).
    destruct (Z.eqb_spec a x); [lia|]. destruct (Z.gtb_spec a x); [lia|].
    apply IH; lia.
  - by rewrite getitem_out_of_range by lia.
Qed.

(** The sequence of the script and a target beyond its last element. *)
Lemma binary_search_past_the_end_witness :
  binary_search 6 [2; 3; 4; 10; 40] 0 (len [2; 3; 4; 10; 40]) 50 =
  Raise IndexError.
Proof.
  apply (binary_search_past_the_end 6 [2; 3; 4; 10; 40] 0 50).
  - intros a Ha%list_elem_of_In. simpl in Ha.
    destruct Ha as [<-|[<-|[<-|[<-|[<-|[]]]]]]; lia.
  - unfold len; simpl; lia.
  - unfold len; simpl; lia.
Defined.

End Searching.

(** ** Sorting *)

Module Sorting.
Import Py.

(** The comparisons the scripts apply to the elements: [a < b], [a <= b]
    and [a > b]. *)
Class Compare (A : Type) : Type := MkCompare {
  less : A -> A -> bool;
  less_eq : A -> A -> bool;
  greater : A -> A -> bool
}.

(** Comparable elements: [<=] is a total preorder, [<] is its strict part
    and [>] is [<] with the operands exchanged.  Two elements may compare
    equal without being the same object. *)
Class TotalOrder (A : Type) {cmp : Compare A} : Prop := MkTotalOrder {
  less_eq_total : forall a b, less_eq a b = true \/ less_eq b a = true;
  less_eq_trans : forall a b c,
    less_eq a b = true -> less_eq b c = true -> less_eq a c = true;
  less_less_eq : forall a b, less a b = negb (less_eq b a);
  greater_less : forall a b, greater a b = less b a
}.

(** Python integers. *)
#[global] Instance Z_compare : Compare Z :=
  {| less := Z.ltb; less_eq := Z.leb; greater := Z.gtb |}.

#[global] Instance Z_total_order : TotalOrder Z.
Proof.
  split; simpl.
  - intros a b. destruct (Z.leb_spec a b); [by left|right].
    apply Z.leb_le. lia.
  - intros a b c Hab%Z.leb_le Hbc%Z.leb_le. apply Z.leb_le. lia.
  - intros a b. destruct (Z.ltb_spec a b), (Z.leb_spec b a); (done || lia).
  - intros a b. apply Z.gtb_ltb.
Qed.

(** Objects ordered by an integer field. *)
Definition compare_by {A : Type} (key : A -> Z) : Compare A :=
  {| less := fun a b => key a <? key b;
     less_eq := fun a b => key a <=? key b;
     greater := fun a b => key a >? key b |}.

Lemma compare_by_total_order {A : Type} (key : A -> Z) :
  @TotalOrder A (compare_by key).
Proof.
  split; simpl.
  - intros a b. destruct (Z.leb_spec (key a) (key b)); [by left|right].
    apply Z.leb_le. lia.
  - intros a b c Hab%Z.leb_le Hbc%Z.leb_le. apply Z.leb_le. lia.
  - intros a b.
    destruct (Z.ltb_spec (key a) (key b)), (Z.leb_spec (key b) (key a));
      (done || lia).
  - intros a b. apply Z.gtb_ltb.
Qed.

Section sorting.

Context {A : Type} {cmp : Compare A} {ord : TotalOrder A}.

(** [arr[i], arr[j] = arr[j], arr[i]]: the right-hand side is read first,
    then the two targets are assigned from left to right. *)
Definition swap (arr : list A) (i j : Z) : result (list A) :=
  vj ← getitem arr j;
  vi ← getitem arr i;
  arr ← setitem arr i vj;
  setitem arr j vi.

(** *** Bubble sort *)

(** The body of the inner loop at [j]. *)
Definition bubble_step (j : Z) (arr : list A) : result (list A) :=
  a ← getitem arr j;
  b ← getitem arr (j + 1);
  if greater a b then swap arr j (j + 1) else Ok arr.

(** [bubble_sort(arr)] *)
Definition bubble_sort (arr : list A) : result (list A) :=
  let n := len arr in
  for_each (range 0 n)
    (fun i arr => for_each (range 0 (n - i - 1)) bubble_step arr) arr.

(** *** Merge sort *)

(** The variables of the merge loops: the array written to and the three
    cursors. *)
Record merge_state : Type := MergeState {
  m_arr : list A; m_i : Z; m_j : Z; m_k : Z
}.

(** [while i < len(L) and j < len(R)]: the strict test [L[i] < R[j]]
    copies from the left half; otherwise (the tie included) the right
    half's element is copied. *)
Definition merge_both_cond (L R : list A) (s : merge_state) : bool :=
  (m_i s <? len L) && (m_j s <? len R).

Definition merge_both_body (L R : list A) (s : merge_state)
  : result merge_state :=
  l ← getitem L (m_i s);
  r ← getitem R (m_j s);
  if less l r then
    arr ← setitem (m_arr s) (m_k s) l;
    Ok (MergeState arr (m_i s + 1) (m_j s) (m_k s + 1))
  else
    arr ← setitem (m_arr s) (m_k s) r;
    Ok (MergeState arr (m_i s) (m_j s + 1) (m_k s + 1)).

(** [while i < len(L)] *)
Definition merge_left_cond (L : list A) (s : merge_state) : bool :=
  m_i s <? len L.

Definition merge_left_body (L : list A) (s : merge_state)
  : result merge_state :=
  l ← getitem L (m_i s);
  arr ← setitem (m_arr s) (m_k s) l;
  Ok (MergeState arr (m_i s + 1) (m_j s) (m_k s + 1)).

(** [while j < len(R)] *)
Definition merge_right_cond (R : list A) (s : merge_state) : bool :=
  m_j s <? len R.

Definition merge_right_body (R : list A) (s : merge_state)
  : result merge_state :=
  r ← getitem R (m_j s);
  arr ← setitem (m_arr s) (m_k s) r;
  Ok (MergeState arr (m_i s) (m_j s + 1) (m_k s + 1)).

(** The three loops that follow the recursive calls. *)
Definition merge_into (arr L R : list A) : result (list A) :=
  let bound := length arr in
  s ← while bound (merge_both_cond L R) (merge_both_body L R)
        (MergeState arr 0 0 0);
  s ← while bound (merge_left_cond L) (merge_left_body L) s;
  s ← while bound (merge_right_cond R) (merge_right_body R) s;
  Ok (m_arr s).

(** [merge_sort(arr)]: the slices [arr[:mid]] and [arr[mid:]] are copies;
    each is sorted by a recursive call and the two are merged back into
    [arr].  The fuel bounds the depth of the recursion. *)
Fixpoint merge_sort (fuel : nat) (arr : list A) : result (list A) :=
  if len arr >? 1 then
    match fuel with
    | O => OutOfFuel
    | S fuel =>
        let mid := len arr `div` 2 in
        let L := take (Z.to_nat mid) arr in
        let R := drop (Z.to_nat mid) arr in
        L ← merge_sort fuel L;
        R ← merge_sort fuel R;
        merge_into arr L R
    end
  else Ok arr.

(** *** Quick sort *)

(** The body of the loop of [partition] at [j], on the pair [(arr, i)]. *)
Definition partition_step (pivot : A) (j : Z) (s : list A * Z)
  : result (list A * Z) :=
  let '(arr, i) := s in
  aj ← getitem arr j;
  if less_eq aj pivot then
    let i := i + 1 in
    arr ← swap arr i j;
    Ok (arr, i)
  else Ok (arr, i).

(** [partition(arr, low, high)]: the array after the call and the
    returned index. *)
Definition partition (arr : list A) (low high : Z) : result (list A * Z) :=
  let i := low - 1 in
  pivot ← getitem arr high;
  '(arr, i) ← for_each (range low high) (partition_step pivot) (arr, i);
  arr ← swap arr (i + 1) high;
  Ok (arr, i + 1).

(** [quick_sort(arr, low, high)]; the fuel bounds the depth of the
    recursion. *)
Fixpoint quick_sort (fuel : nat) (arr : list A) (low high : Z)
  : result (list A) :=
  if len arr =? 1 then Ok arr
  else if low <? high then
    match fuel with
    | O => OutOfFuel
    | S fuel =>
        '(arr, pi) ← partition arr low high;
        arr ← quick_sort fuel arr low (pi - 1);
        quick_sort fuel arr (pi + 1) high
    end
  else Ok arr.

(** Swapping two distinct positions, and a position with itself. *)
Lemma swap_distinct (l1 l2 l3 : list A) (a b : A) (i j : Z) :
  i = len l1 -> j = len l1 + 1 + len l2 ->
  swap (l1 ++ a :: l2 ++ b :: l3) i j = Ok (l1 ++ b :: l2 ++ a :: l3).
Proof.
  intros Hi Hj. unfold swap.
  assert (Hj' : j = len (l1 ++ a :: l2)) by (rewrite len_app, len_cons; lia).
  replace (l1 ++ a :: l2 ++ b :: l3) with ((l1 ++ a :: l2) ++ b :: l3) at 1
    by (by rewrite <- app_assoc).
  rewrite (getitem_middle _ _ _ _ Hj'). simpl.
  rewrite (getitem_middle _ _ _ _ Hi). simpl.
  rewrite (setitem_middle _ _ _ _ _ Hi). simpl.
  assert (Hj'' : j = len (l1 ++ b :: l2)) by (rewrite len_app, len_cons; lia).
  replace (l1 ++ b :: l2 ++ b :: l3) with ((l1 ++ b :: l2) ++ b :: l3)
    by (by rewrite <- app_assoc).
  rewrite (setitem_middle _ _ _ _ _ Hj''). by rewrite <- app_assoc.
Qed.

Lemma swap_same (l1 l2 : list A) (a : A) (i : Z) :
  i = len l1 -> swap (l1 ++ a :: l2) i i = Ok (l1 ++ a :: l2).
Proof.
  intros Hi. unfold swap.
  rewrite (getitem_middle _ _ _ _ Hi). simpl.
  rewrite (setitem_middle _ _ _ _ _ Hi). simpl.
  by rewrite (setitem_middle _ _ _ _ _ Hi).
Qed.

(** The order on elements and what a sort has to deliver. *)
Definition ord_le (a b : A) : Prop := less_eq a b = true.

Definition sorted_permutation_of (arr out : list A) : Prop :=
  out ≡ₚ arr /\ StronglySorted ord_le out.

Lemma ord_le_refl (a : A) : ord_le a a.
Proof. by destruct (less_eq_total a a). Qed.

Lemma ord_le_trans (a b c : A) : ord_le a b -> ord_le b c -> ord_le a c.
Proof. apply less_eq_trans. Qed.

Lemma not_less_eq (a b : A) : less_eq a b = false -> ord_le b a.
Proof. intros Hab. destruct (less_eq_total a b); [congruence|done]. Qed.

Lemma less_true (a b : A) : less a b = true -> ord_le a b.
Proof.
  rewrite less_less_eq. intros Hab%negb_true_iff. by apply not_less_eq.
Qed.

Lemma less_false (a b : A) : less a b = false -> ord_le b a.
Proof. rewrite less_less_eq. by intros Hab%negb_false_iff. Qed.

Lemma greater_true (a b : A) : greater a b = true -> ord_le b a.
Proof. rewrite greater_less. apply less_true. Qed.

Lemma greater_false (a b : A) : greater a b = false -> ord_le a b.
Proof. rewrite greater_less. apply less_false. Qed.

Lemma ord_le_Forall (a b : A) (l : list A) :
  ord_le a b -> Forall (ord_le b) l -> Forall (ord_le a) l.
Proof.
  intros Hab Hall. eapply Forall_impl; [exact Hall|].
  intros c. by apply ord_le_trans.
Qed.

Lemma for_each_app {S X} (xs ys : list X) (body : X -> S -> result S) (s : S) :
  for_each (xs ++ ys) body s = bind (for_each xs body s) (for_each ys body).
Proof.
  revert s. induction xs as [|x xs IH]; intros s; simpl; [done|].
  destruct (body x s); simpl; auto.
Qed.

Lemma for_each_cons {S X} (x : X) (xs : list X) (body : X -> S -> result S) (s : S) :
  for_each (x :: xs) body s = bind (body x s) (for_each xs body).
Proof. reflexivity. Qed.

(** *** Bubble sort is a sort *)

(** One pass of the inner loop over the first [n + 1] elements, as a
    function on lists. *)
Fixpoint bubble_pass (n : nat) (l : list A) : list A :=
  match n, l with
  | S n, a :: b :: rest =>
      if greater a b then b :: bubble_pass n (a :: rest)
      else a :: bubble_pass n (b :: rest)
  | _, _ => l
  end.

Lemma bubble_step_middle (pre rest : list A) (a b : A) (j : Z) :
  j = len pre ->
  bubble_step j (pre ++ a :: b :: rest) =
  Ok (pre ++ (if greater a b then b :: a :: rest else a :: b :: rest)).
Proof.
  intros Hj. unfold bubble_step.
  rewrite (getitem_middle _ _ _ _ Hj). simpl.
  assert (Hj1 : j + 1 = len (pre ++ [a])) by len_lia.
  replace (pre ++ a :: b :: rest) with ((pre ++ [a]) ++ b :: rest) at 1
    by (by rewrite <- app_assoc).
  rewrite (getitem_middle _ _ _ _ Hj1). simpl.
  destruct (greater a b); [|done].
  apply (swap_distinct pre [] rest a b); [done|len_lia].
Qed.

Lemma bubble_inner_loop (n : nat) (pre l : list A) (j : Z) :
  j = len pre -> (n < length l)%nat ->
  for_each (range j (j + Z.of_nat n)) bubble_step (pre ++ l) =
  Ok (pre ++ bubble_pass n l).
Proof.
  revert pre l j. induction n as [|n IH]; intros pre l j Hj Hn.
  - rewrite range_nil by lia. by destruct l.
  - destruct l as [|a [|b rest]]; simpl in Hn; [lia..|].
    rewrite range_cons by lia. simpl.
    rewrite (bubble_step_middle _ _ _ _ _ Hj). simpl.
    assert (Hj1 : j + 1 = len (pre ++ [if greater a b then b else a]))
      by len_lia.
    replace (j + Z.of_nat (S n)) with (j + 1 + Z.of_nat n) by lia.
    destruct (greater a b).
    + replace (pre ++ b :: a :: rest) with ((pre ++ [b]) ++ a :: rest)
        by (by rewrite <- app_assoc).
      rewrite (IH _ _ _ Hj1) by (simpl; lia). by rewrite <- app_assoc.
    + replace (pre ++ a :: b :: rest) with ((pre ++ [a]) ++ b :: rest)
        by (by rewrite <- app_assoc).
      rewrite (IH _ _ _ Hj1) by (simpl; lia). by rewrite <- app_assoc.
Qed.

Lemma bubble_pass_perm (n : nat) (l : list A) : bubble_pass n l ≡ₚ l.
Proof.
  revert l. induction n as [|n IH]; intros l; [by destruct l|].
  destruct l as [|a [|b rest]]; simpl; [done..|].
  destruct (greater a b).
  - rewrite IH. apply Permutation_swap.
  - by rewrite IH.
Qed.

Lemma bubble_pass_app (n : nat) (l suf : list A) :
  (n < length l)%nat -> bubble_pass n (l ++ suf) = bubble_pass n l ++ suf.
Proof.
  revert l. induction n as [|n IH]; intros l Hn.
  - by destruct l.
  - destruct l as [|a [|b rest]]; simpl in Hn; [lia..|]. simpl.
    destruct (greater a b); simpl; f_equal.
    + apply (IH (a :: rest)). simpl; lia.
    + apply (IH (b :: rest)). simpl; lia.
Qed.

(** A pass over the whole of [l] leaves a largest element last. *)
Lemma bubble_pass_max (n : nat) (l : list A) :
  length l = S n ->
  exists l' mx, bubble_pass n l = l' ++ [mx] /\
    Forall (fun x => ord_le x mx) l.
Proof.
  revert l. induction n as [|n IH]; intros l Hl.
  - destruct l as [|a [|]]; simplify_eq/=.
    exists [], a. split; [done|]. constructor; [apply ord_le_refl|constructor].
  - destruct l as [|a [|b rest]]; simplify_eq/=.
    destruct (greater a b) eqn:Hgt.
    + apply greater_true in Hgt.
      destruct (IH (a :: rest)) as (l' & mx & Hp & Hall); [simpl; lia|].
      exists (b :: l'), mx. rewrite Hp. split; [done|].
      inversion Hall; subst. repeat constructor; try done.
      by apply (ord_le_trans b a mx).
    + apply greater_false in Hgt.
      destruct (IH (b :: rest)) as (l' & mx & Hp & Hall); [simpl; lia|].
      exists (a :: l'), mx. rewrite Hp. split; [done|].
      inversion Hall; subst. repeat constructor; try done.
      by apply (ord_le_trans a b mx).
Qed.

(** After [i] rounds of the outer loop the last [i] positions hold, in
    ascending order, elements that are at least as large as all the
    others. *)
Lemma bubble_outer_loop (arr : list A) (i : nat) :
  (i <= length arr)%nat ->
  exists pre suf,
    for_each (range 0 (Z.of_nat i))
      (fun i arr' => for_each (range 0 (len arr - i - 1)) bubble_step arr')
      arr = Ok (pre ++ suf) /\
    pre ++ suf ≡ₚ arr /\ length suf = i /\
    StronglySorted ord_le suf /\
    (forall x y, x ∈ pre -> y ∈ suf -> ord_le x y).
Proof.
  induction i as [|i IH]; intros Hi.
  - exists arr, []. rewrite range_nil by lia. simpl. rewrite app_nil_r.
    split; [done|]. split; [done|]. split; [done|]. split; [constructor|].
    intros x y _ Hy. by apply elem_of_nil in Hy.
  - destruct IH as (pre & suf & Hrun & Hperm & Hlen & Hsorted & Hle); [lia|].
    replace (Z.of_nat (S i)) with (Z.of_nat i + 1) by lia.
    rewrite range_snoc by lia. rewrite for_each_app, Hrun. simpl.
    assert (Hlenpre : (length pre + i = length arr)%nat).
    { rewrite <- Hlen, <- length_app. by rewrite Hperm. }
    destruct (bubble_pass_max (length pre - 1) pre) as (l' & mx & Hpass & Hmax);
      [lia|].
    replace (len arr - Z.of_nat i - 1) with (0 + Z.of_nat (length pre - 1))
      by (unfold len; lia).
    rewrite (bubble_inner_loop _ [] (pre ++ suf) 0 eq_refl)
      by (rewrite length_app; lia).
    simpl. rewrite bubble_pass_app by lia. rewrite Hpass.
    assert (Hpp : l' ++ [mx] ≡ₚ pre) by (rewrite <- Hpass; apply bubble_pass_perm).
    exists l', (mx :: suf). rewrite <- app_assoc. simpl.
    split; [done|]. split.
    { rewrite <- Hperm, <- Hpp. by rewrite <- app_assoc. }
    split; [simpl; lia|].
    assert (Hmxin : mx ∈ pre).
    { rewrite <- Hpp. apply elem_of_app. right. apply list_elem_of_here. }
    split.
    + constructor; [done|]. apply Forall_forall. intros y Hy. by apply Hle.
    + intros x y Hx Hy.
      assert (Hxin : x ∈ pre).
      { rewrite <- Hpp. apply elem_of_app. by left. }
      apply elem_of_cons in Hy as [->|Hy]; [|by apply Hle].
      rewrite Forall_forall in Hmax. by apply Hmax.
Qed.

Lemma bubble_sort_correct (arr : list A) :
  exists out, bubble_sort arr = Ok out /\ sorted_permutation_of arr out.
Proof.
  destruct (bubble_outer_loop arr (length arr)) as
    (pre & suf & Hrun & Hperm & Hlen & Hsorted & _); [lia|].
  assert (pre = []) as ->.
  { apply length_zero_iff_nil. apply Permutation_length in Hperm.
    rewrite length_app in Hperm. lia. }
  exists suf. split; [exact Hrun | by split].
Qed.

(** *** Merge sort is a sort *)

(** What the three merge loops compute, as a function on lists: the left
    head is taken only when it is strictly smaller. *)
Fixpoint merge (l1 : list A) : list A -> list A :=
  fix merge_right (l2 : list A) : list A :=
    match l1, l2 with
    | [], _ => l2
    | _, [] => l1
    | a :: l1', b :: l2' =>
        if less a b then a :: merge l1' l2 else b :: merge_right l2'
    end.

Lemma merge_nil_r (l1 : list A) : merge l1 [] = l1.
Proof. by destruct l1. Qed.

Lemma merge_perm (l1 l2 : list A) : merge l1 l2 ≡ₚ l1 ++ l2.
Proof.
  revert l2. induction l1 as [|a l1 IH1]; intros l2; [by destruct l2|].
  induction l2 as [|b l2 IH2]; [by rewrite app_nil_r|]. simpl.
  destruct (less a b).
  - by rewrite IH1.
  - simpl in IH2. rewrite IH2. rewrite <- Permutation_middle.
    apply Permutation_swap.
Qed.

Lemma merge_sorted (l1 l2 : list A) :
  StronglySorted ord_le l1 -> StronglySorted ord_le l2 ->
  StronglySorted ord_le (merge l1 l2).
Proof.
  revert l2. induction l1 as [|a l1 IH1]; intros l2 H1 H2; [by destruct l2|].
  induction l2 as [|b l2 IH2]; [done|]. simpl.
  apply StronglySorted_cons in H1 as H1'. destruct H1' as [Ha H1'].
  apply StronglySorted_cons in H2 as H2'. destruct H2' as [Hb H2'].
  destruct (less a b) eqn:Hlt.
  - apply less_true in Hlt.
    constructor; [by apply IH1|].
    rewrite merge_perm. apply Forall_app. split; [done|].
    constructor; [done|]. by apply (ord_le_Forall a b).
  - apply less_false in Hlt.
    constructor; [by apply IH2|].
    change (Forall (ord_le b) (merge (a :: l1) l2)).
    rewrite merge_perm. apply Forall_app. split; [|done].
    constructor; [done|]. by apply (ord_le_Forall b a).
Qed.

(** When no left element is strictly smaller than a right one (ties
    included), the whole right half is copied before the left half. *)
Lemma merge_right_first (l1 l2 : list A) :
  (forall a b, a ∈ l1 -> b ∈ l2 -> ord_le b a) ->
  merge l1 l2 = l2 ++ l1.
Proof.
  intros Hle. destruct l1 as [|a l1]; [by rewrite app_nil_r; destruct l2|].
  induction l2 as [|b l2 IH]; [done|]. simpl.
  rewrite less_less_eq.
  rewrite (Hle a b (list_elem_of_here _ _) (list_elem_of_here _ _)). simpl.
  f_equal. apply IH. intros a' b' Ha' Hb'. apply Hle; [done|].
  by apply list_elem_of_further.
Qed.

Lemma take_S_insert (arr : list A) (k : nat) (x : A) :
  (k < length arr)%nat -> take (S k) (<[k := x]> arr) = take k arr ++ [x].
Proof.
  intros Hk. rewrite (take_S_r _ _ x) by (by apply list_lookup_insert_eq).
  by rewrite take_insert_ge.
Qed.

Lemma drop_lookup_cons (l : list A) (i : nat) (x : A) :
  l !! i = Some x -> drop i l = x :: drop (S i) l.
Proof. intros H. by rewrite (drop_S _ _ _ H). Qed.

(** The loop that copies the rest of the right half. *)
Lemma merge_right_loop (R : list A) (n fuel : nat) (arr : list A) (i : Z) (j k : nat) :
  (n + j = length R)%nat -> (k + n = length arr)%nat -> (n <= fuel)%nat ->
  while fuel (merge_right_cond R) (merge_right_body R)
    (MergeState arr i (Z.of_nat j) (Z.of_nat k)) =
  Ok (MergeState (take k arr ++ drop j R) i (len R) (len arr)).
Proof.
  revert fuel arr j k. induction n as [|n IH]; intros fuel arr j k Hj Hk Hfuel.
  - assert (Hc : merge_right_cond R (MergeState arr i (Z.of_nat j) (Z.of_nat k)) = false).
    { unfold merge_right_cond, len. simpl. apply Z.ltb_ge. lia. }
    destruct fuel; simpl; rewrite Hc;
      rewrite drop_ge, app_nil_r, take_ge by lia;
      do 2 f_equal; unfold len; lia.
  - destruct fuel as [|fuel]; [lia|]. simpl.
    assert (Hc : merge_right_cond R (MergeState arr i (Z.of_nat j) (Z.of_nat k)) = true).
    { unfold merge_right_cond, len. simpl. apply Z.ltb_lt. lia. }
    rewrite Hc. unfold merge_right_body. simpl.
    destruct (lookup_lt_is_Some_2 R j) as [r Hr]; [lia|].
    rewrite (getitem_nat _ _ _ Hr). simpl.
    rewrite setitem_Ok by (unfold len; lia). simpl.
    rewrite Nat2Z.id.
    replace (Z.of_nat j + 1) with (Z.of_nat (S j)) by lia.
    replace (Z.of_nat k + 1) with (Z.of_nat (S k)) by lia.
    rewrite IH by (rewrite ?length_insert; lia).
    rewrite take_S_insert by lia. rewrite (drop_lookup_cons _ _ _ Hr).
    rewrite <- app_assoc. simpl. do 2 f_equal.
    unfold len. by rewrite length_insert.
Qed.

(** The loop that copies the rest of the left half. *)
Lemma merge_left_loop (L : list A) (n fuel : nat) (arr : list A) (j : Z) (i k : nat) :
  (n + i = length L)%nat -> (k + n = length arr)%nat -> (n <= fuel)%nat ->
  while fuel (merge_left_cond L) (merge_left_body L)
    (MergeState arr (Z.of_nat i) j (Z.of_nat k)) =
  Ok (MergeState (take k arr ++ drop i L) (len L) j (len arr)).
Proof.
  revert fuel arr i k. induction n as [|n IH]; intros fuel arr i k Hi Hk Hfuel.
  - assert (Hc : merge_left_cond L (MergeState arr (Z.of_nat i) j (Z.of_nat k)) = false).
    { unfold merge_left_cond, len. simpl. apply Z.ltb_ge. lia. }
    destruct fuel; simpl; rewrite Hc;
      rewrite drop_ge, app_nil_r, take_ge by lia;
      do 2 f_equal; unfold len; lia.
  - destruct fuel as [|fuel]; [lia|]. simpl.
    assert (Hc : merge_left_cond L (MergeState arr (Z.of_nat i) j (Z.of_nat k)) = true).
    { unfold merge_left_cond, len. simpl. apply Z.ltb_lt. lia. }
    rewrite Hc. unfold merge_left_body. simpl.
    destruct (lookup_lt_is_Some_2 L i) as [l Hl]; [lia|].
    rewrite (getitem_nat _ _ _ Hl). simpl.
    rewrite setitem_Ok by (unfold len; lia). simpl.
    rewrite Nat2Z.id.
    replace (Z.of_nat i + 1) with (Z.of_nat (S i)) by lia.
    replace (Z.of_nat k + 1) with (Z.of_nat (S k)) by lia.
    rewrite IH by (rewrite ?length_insert; lia).
    rewrite take_S_insert by lia. rewrite (drop_lookup_cons _ _ _ Hl).
    rewrite <- app_assoc. simpl. do 2 f_equal.
    unfold len. by rewrite length_insert.
Qed.

Lemma while_false {S} (fuel : nat) (cond : S -> bool) (body : S -> result S) (s : S) :
  cond s = false -> while fuel cond body s = Ok s.
Proof. intros H. destruct fuel; simpl; by rewrite H. Qed.

Lemma merge_nil_l (l2 : list A) : merge [] l2 = l2.
Proof. by destruct l2. Qed.

Lemma merge_cons_cons (a b : A) (l1 l2 : list A) :
  merge (a :: l1) (b :: l2) =
  if less a b then a :: merge l1 (b :: l2) else b :: merge (a :: l1) l2.
Proof. reflexivity. Qed.

(** The three loops together, started with the cursors at [i], [j] and
    [k = i + j]: the positions below [k] are kept and the rest receives
    the merge of what is left of the two halves. *)
Lemma merge_loops_spec (L R : list A) (n f1 f2 f3 : nat) (arr : list A) (i j k : nat) :
  (n + i + j = length L + length R)%nat ->
  (i <= length L)%nat -> (j <= length R)%nat -> k = (i + j)%nat ->
  (length arr = length L + length R)%nat ->
  (n <= f1)%nat -> (n <= f2)%nat -> (n <= f3)%nat ->
  bind (while f1 (merge_both_cond L R) (merge_both_body L R)
          (MergeState arr (Z.of_nat i) (Z.of_nat j) (Z.of_nat k)))
    (fun s => bind (while f2 (merge_left_cond L) (merge_left_body L) s)
    (fun s => bind (while f3 (merge_right_cond R) (merge_right_body R) s)
    (fun s => Ok (m_arr s)))) =
  Ok (take k arr ++ merge (drop i L) (drop j R)).
Proof.
  revert f1 arr i j k.
  induction n as [|n IH]; intros f1 arr i j k Hn Hi Hj Hk Harr Hf1 Hf2 Hf3.
  - assert (i = length L /\ j = length R) as [-> ->] by lia.
    rewrite while_false by (unfold merge_both_cond, len; simpl;
                            apply andb_false_iff; left; apply Z.ltb_ge; lia).
    simpl.
    rewrite while_false by (unfold merge_left_cond, len; simpl;
                            apply Z.ltb_ge; lia).
    simpl.
    rewrite while_false by (unfold merge_right_cond, len; simpl;
                            apply Z.ltb_ge; lia).
    simpl. rewrite !drop_all, take_ge by lia. by rewrite app_nil_r.
  - destruct (decide (i < length L)%nat) as [Hil|Hil];
      [destruct (decide (j < length R)%nat) as [Hjl|Hjl]|].
    + (* both halves have an element left *)
      destruct f1 as [|f1]; [lia|]. simpl.
      assert (Hc : merge_both_cond L R
                (MergeState arr (Z.of_nat i) (Z.of_nat j) (Z.of_nat k)) = true).
      { unfold merge_both_cond, len. simpl. apply andb_true_iff.
        split; apply Z.ltb_lt; lia. }
      rewrite Hc. unfold merge_both_body. simpl.
      destruct (lookup_lt_is_Some_2 L i) as [l Hl]; [lia|].
      destruct (lookup_lt_is_Some_2 R j) as [r Hr]; [lia|].
      rewrite (getitem_nat _ _ _ Hl). simpl.
      rewrite (getitem_nat _ _ _ Hr). simpl.
      rewrite (drop_lookup_cons _ _ _ Hl), (drop_lookup_cons _ _ _ Hr).
      rewrite merge_cons_cons.
      rewrite <- (drop_lookup_cons _ _ _ Hl), <- (drop_lookup_cons _ _ _ Hr).
      destruct (less l r).
      * rewrite setitem_Ok by (unfold len; lia). simpl. rewrite Nat2Z.id.
        replace (Z.of_nat i + 1) with (Z.of_nat (S i)) by lia.
        replace (Z.of_nat k + 1) with (Z.of_nat (S k)) by lia.
        rewrite IH by (rewrite ?length_insert; lia).
        rewrite take_S_insert by lia. by rewrite <- app_assoc.
      * rewrite setitem_Ok by (unfold len; lia). simpl. rewrite Nat2Z.id.
        replace (Z.of_nat j + 1) with (Z.of_nat (S j)) by lia.
        replace (Z.of_nat k + 1) with (Z.of_nat (S k)) by lia.
        rewrite IH by (rewrite ?length_insert; lia).
        rewrite take_S_insert by lia. by rewrite <- app_assoc.
    + (* the right half is used up *)
      rewrite while_false by (unfold merge_both_cond, len; simpl;
                              apply andb_false_iff; right; apply Z.ltb_ge; lia).
      simpl.
      rewrite (merge_left_loop L (length L - i)) by lia. simpl.
      rewrite while_false by (unfold merge_right_cond, len; simpl;
                              apply Z.ltb_ge; lia).
      simpl. rewrite (drop_ge R) by lia. by rewrite merge_nil_r.
    + (* the left half is used up *)
      rewrite while_false by (unfold merge_both_cond, len; simpl;
                              apply andb_false_iff; left; apply Z.ltb_ge; lia).
      simpl.
      rewrite while_false by (unfold merge_left_cond, len; simpl;
                              apply Z.ltb_ge; lia).
      simpl.
      rewrite (merge_right_loop R (length R - j)) by lia. simpl.
      rewrite (drop_ge L) by lia. by rewrite merge_nil_l.
Qed.

Lemma merge_into_spec (arr L R : list A) :
  (length arr = length L + length R)%nat ->
  merge_into arr L R = Ok (merge L R).
Proof.
  intros Harr.
  apply (merge_loops_spec L R (length arr) (length arr) (length arr)
           (length arr) arr 0 0 0); lia.
Qed.

(** [merge_sort] returns, with its argument replaced by the merge of its
    two sorted halves. *)
Lemma merge_sort_unfold (fuel : nat) (arr : list A) :
  (length arr <= fuel)%nat ->
  exists out, merge_sort fuel arr = Ok out /\ length out = length arr /\
    (1 < length arr \/ out = arr)%nat /\
    (1 < length arr -> exists fuel' L R,
        fuel = S fuel' /\
        merge_sort fuel' (take (length arr / 2) arr) = Ok L /\
        merge_sort fuel' (drop (length arr / 2) arr) = Ok R /\
        out = merge L R)%nat.
Proof.
  revert arr. induction fuel as [|fuel IH]; intros arr Hfuel.
  - exists arr. destruct arr; simpl in *; [|lia].
    repeat split; [by right | lia].
  - destruct (decide (1 < length arr)%nat) as [Hlen|Hlen].
    2:{ exists arr. simpl.
        destruct (Z.gtb_spec (len arr) 1); [unfold len in *; lia|].
        repeat split; [by right | lia]. }
    simpl. destruct (Z.gtb_spec (len arr) 1); [|unfold len in *; lia].
    assert (Hmid : Z.to_nat (len arr `div` 2) = (length arr / 2)%nat).
    { unfold len. rewrite <- (Nat2Z.id (length arr / 2)). f_equal.
      by rewrite Nat2Z.inj_div. }
    rewrite Hmid.
    assert (Hhalf : (1 <= length arr / 2 < length arr)%nat).
    { split; [apply Nat.div_le_lower_bound; lia|].
      apply Nat.Div0.div_lt_upper_bound; lia. }
    destruct (IH (take (length arr / 2) arr)) as (L & HL & HlenL & _);
      [rewrite length_take; lia|].
    destruct (IH (drop (length arr / 2) arr)) as (R & HR & HlenR & _);
      [rewrite length_drop; lia|].
    rewrite HL, HR. simpl.
    rewrite length_take in HlenL. rewrite length_drop in HlenR.
    rewrite merge_into_spec by lia.
    exists (merge L R). split; [done|]. split.
    { rewrite merge_perm, length_app. lia. }
    split; [by left|]. intros _. by exists fuel, L, R.
Qed.

Lemma merge_sort_correct (fuel : nat) (arr : list A) :
  (length arr <= fuel)%nat ->
  exists out, merge_sort fuel arr = Ok out /\ sorted_permutation_of arr out.
Proof.
  revert arr. induction fuel as [|fuel IH]; intros arr Hfuel;
    destruct (merge_sort_unfold _ arr Hfuel) as (out & Hrun & _ & Hsmall & Hbig);
    exists out; (split; [done|]).
  - destruct arr; simpl in *; [|lia].
    destruct Hsmall as [?| ->]; [lia|]. split; [done|constructor].
  - destruct (decide (1 < length arr)%nat) as [Hlen|Hlen].
    2:{ destruct Hsmall as [?| ->]; [lia|]. split; [done|].
        destruct arr as [|a [|]]; simpl in *; try lia; repeat constructor. }
    destruct (Hbig Hlen) as (fuel' & L & R & [= <-] & HL & HR & ->).
    assert (Hhalf : (1 <= length arr / 2 < length arr)%nat).
    { split; [apply Nat.div_le_lower_bound; lia|].
      apply Nat.Div0.div_lt_upper_bound; lia. }
    destruct (IH (take (length arr / 2) arr)) as (L' & HL' & HpL & HsL);
      [rewrite length_take; lia|].
    destruct (IH (drop (length arr / 2) arr)) as (R' & HR' & HpR & HsR);
      [rewrite length_drop; lia|].
    rewrite HL in HL'. rewrite HR in HR'.
    injection HL' as <-. injection HR' as <-.
    split; [|by apply merge_sorted].
    rewrite merge_perm, HpL, HpR. by rewrite take_drop.
Qed.

(** *** Quick sort is a sort *)

(** Lists equal up to the bracketing of their concatenation. *)
Ltac list_eq :=
  repeat first [rewrite <- !app_assoc | rewrite app_nil_r | progress simpl];
  reflexivity.

(** The second group after its head has traded places with the element
    that follows the group. *)
Definition rotate (large : list A) : list A :=
  match large with
  | [] => []
  | b :: large => large ++ [b]
  end.

Lemma rotate_perm (large : list A) : rotate large ≡ₚ large.
Proof.
  destruct large as [|b large]; simpl; [done|].
  by rewrite Permutation_app_comm.
Qed.

Lemma len_rotate (large : list A) : len (rotate large) = len large.
Proof. unfold len. by rewrite rotate_perm. Qed.

(** One round of the loop of [partition], the window laid out as the
    elements found [<= pivot], those found [> pivot], and those not yet
    looked at; [i] points at the last of the first group. *)
Lemma partition_step_le (pv aj : A) (pre small large rest : list A) (i j : Z) :
  j = len pre + len small + len large -> i = len pre + len small - 1 ->
  less_eq aj pv = true ->
  partition_step pv j (pre ++ small ++ large ++ aj :: rest, i) =
  Ok (pre ++ (small ++ [aj]) ++ rotate large ++ rest, i + 1).
Proof.
  intros Hj Hi Hle. unfold partition_step.
  replace (pre ++ small ++ large ++ aj :: rest)
    with ((pre ++ small ++ large) ++ aj :: rest) by list_eq.
  rewrite (getitem_middle _ _ _ j) by len_lia. simpl. rewrite Hle.
  destruct large as [|b large].
  - replace ((pre ++ small ++ []) ++ aj :: rest)
      with ((pre ++ small) ++ aj :: rest) by list_eq.
    assert (i + 1 = j) as -> by len_lia.
    rewrite swap_same by len_lia. simpl. do 2 f_equal. list_eq.
  - replace ((pre ++ small ++ b :: large) ++ aj :: rest)
      with ((pre ++ small) ++ b :: large ++ aj :: rest) by list_eq.
    rewrite swap_distinct by len_lia. simpl. do 2 f_equal. list_eq.
Qed.

Lemma partition_step_gt (pv aj : A) (pre rest : list A) (i j : Z) :
  j = len pre -> less_eq aj pv = false ->
  partition_step pv j (pre ++ aj :: rest, i) = Ok (pre ++ aj :: rest, i).
Proof.
  intros Hj Hgt. unfold partition_step.
  rewrite (getitem_middle _ _ _ j) by done. simpl. by rewrite Hgt.
Qed.

Lemma partition_loop (pv : A) (pre post rest small large : list A) (i j : Z) :
  j = len pre + len small + len large -> i = len pre + len small - 1 ->
  Forall (fun x => less_eq x pv = true) small ->
  Forall (fun x => less_eq x pv = false) large ->
  exists small' large',
    for_each (range j (j + len rest)) (partition_step pv)
      (pre ++ small ++ large ++ rest ++ pv :: post, i) =
    Ok (pre ++ small' ++ large' ++ pv :: post, len pre + len small' - 1) /\
    small' ++ large' ≡ₚ small ++ large ++ rest /\
    Forall (fun x => less_eq x pv = true) small' /\
    Forall (fun x => less_eq x pv = false) large'.
Proof.
  revert small large i j.
  induction rest as [|aj rest IH]; intros small large i j Hj Hi Hsmall Hlarge.
  - exists small, large. rewrite range_nil by (unfold len; simpl; lia).
    simpl. rewrite Hi, app_nil_r. done.
  - rewrite range_cons by len_lia.
    replace (j + len (aj :: rest)) with (j + 1 + len rest) by len_lia.
    destruct (less_eq aj pv) eqn:Hcmp.
    + destruct (IH (small ++ [aj]) (rotate large) (i + 1) (j + 1)) as
        (small' & large' & Hrun & Hperm & Hs' & Hl').
      { rewrite len_rotate. len_lia. }
      { len_lia. }
      { apply Forall_app. split; [done|]. by constructor. }
      { by rewrite rotate_perm. }
      exists small', large'.
      rewrite for_each_cons, <- app_comm_cons.
      rewrite (partition_step_le pv aj pre small large) by done.
      unfold bind at 1. rewrite <- Hrun. split; [done|]. split; [|done].
      rewrite Hperm, rotate_perm. rewrite <- !app_assoc.
      apply Permutation_app_head. simpl.
      by rewrite <- Permutation_middle.
    + destruct (IH small (large ++ [aj]) i (j + 1)) as
        (small' & large' & Hrun & Hperm & Hs' & Hl'); [len_lia..|done| |].
      { apply Forall_app. split; [done|]. by constructor. }
      exists small', large'.
      rewrite for_each_cons, <- app_comm_cons.
      replace (pre ++ small ++ large ++ aj :: rest ++ pv :: post)
        with ((pre ++ small ++ large) ++ aj :: rest ++ pv :: post) by list_eq.
      rewrite partition_step_gt by first [exact Hcmp | len_lia]. unfold bind at 1.
      replace ((pre ++ small ++ large) ++ aj :: rest ++ pv :: post)
        with (pre ++ small ++ (large ++ [aj]) ++ rest ++ pv :: post) by list_eq.
      rewrite Hrun. split; [done|]. split; [|done].
      rewrite Hperm. by rewrite <- !app_assoc.
Qed.

(** [partition] on the window [seg ++ [pv]] that follows [pre]: the pivot
    ends between the elements [<=] it and the elements [>] it, and its
    position is returned. *)
Lemma partition_spec (pv : A) (pre seg post : list A) (low high : Z) :
  low = len pre -> high = low + len seg ->
  exists left right,
    partition (pre ++ seg ++ pv :: post) low high =
    Ok (pre ++ left ++ pv :: right ++ post, low + len left) /\
    left ++ right ≡ₚ seg /\
    Forall (fun x => less_eq x pv = true) left /\
    Forall (fun x => less_eq x pv = false) right.
Proof.
  intros Hlow Hhigh.
  destruct (partition_loop pv pre post seg [] [] (low - 1) low) as
    (small & large & Hrun & Hperm & Hs & Hl); [len_lia..|constructor|constructor|].
  simpl in Hrun, Hperm.
  assert (Hlen : len small + len large = len seg).
  { unfold len. rewrite <- Hperm, length_app. lia. }
  exists small, (rotate large). unfold partition.
  replace (pre ++ seg ++ pv :: post) with ((pre ++ seg) ++ pv :: post) at 1
    by list_eq.
  subst high.
  rewrite (getitem_middle _ _ _ (low + len seg)) by len_lia.
  unfold mbind, result_bind, bind at 1. rewrite Hrun. unfold bind at 1.
  split; [|split; [by rewrite rotate_perm | split; [done | by rewrite rotate_perm]]].
  replace (len pre + len small - 1 + 1) with (low + len small) by lia.
  destruct large as [|b large].
  - replace (pre ++ small ++ [] ++ pv :: post)
      with ((pre ++ small) ++ pv :: post) by list_eq.
    assert (low + len seg = low + len small) as -> by len_lia.
    rewrite swap_same by len_lia. simpl. do 2 f_equal. list_eq.
  - replace (pre ++ small ++ (b :: large) ++ pv :: post)
      with ((pre ++ small) ++ b :: large ++ pv :: post) by list_eq.
    rewrite swap_distinct by len_lia. simpl. do 2 f_equal. list_eq.
Qed.

(** [quick_sort] on the window [seg] between [pre] and [post]: the window
    comes out sorted and nothing else is touched. *)
Lemma quick_sort_window (fuel : nat) (pre seg post : list A) (low high : Z) :
  low = len pre -> high = low + len seg - 1 -> (length seg <= fuel)%nat ->
  exists seg',
    quick_sort fuel (pre ++ seg ++ post) low high = Ok (pre ++ seg' ++ post) /\
    seg' ≡ₚ seg /\ StronglySorted ord_le seg'.
Proof.
  revert pre seg post low high.
  induction fuel as [|fuel IH]; intros pre seg post low high Hlow Hhigh Hfuel.
  - destruct seg; simpl in Hfuel; [|lia]. exists [].
    split; [|split; [done|constructor]].
    simpl. destruct (len (pre ++ post) =? 1); [done|].
    destruct (Z.ltb_spec low high); [len_lia|done].
  - assert (Hshort : (length seg <= 1)%nat -> StronglySorted ord_le seg).
    { destruct seg as [|a [|]]; simpl; intros; try lia; repeat constructor. }
    simpl. destruct (Z.eqb_spec (len (pre ++ seg ++ post)) 1) as [Hone|_].
    { exists seg. split; [done|]. split; [done|]. apply Hshort. len_lia. }
    destruct (Z.ltb_spec low high) as [Hlt|Hge].
    2:{ exists seg. split; [done|]. split; [done|]. apply Hshort. len_lia. }
    destruct seg as [|pv seg0 _] using rev_ind; [len_lia|].
    rewrite length_app in Hfuel. simpl in Hfuel.
    destruct (partition_spec pv pre seg0 post low high) as
      (left & right & Hpart & Hperm & Hleft & Hright); [len_lia..|].
    replace (pre ++ (seg0 ++ [pv]) ++ post) with (pre ++ seg0 ++ pv :: post)
      by list_eq.
    rewrite Hpart. unfold mbind, result_bind, bind at 1.
    assert (Hlen : (length left + length right = length seg0)%nat).
    { by rewrite <- Hperm, length_app. }
    destruct (IH pre left (pv :: right ++ post) low (low + len left - 1)) as
      (left' & Hrun1 & Hperm1 & Hsorted1); [len_lia..|lia|].
    rewrite Hrun1. unfold bind at 1.
    assert (Hlen1 : length left' = length left) by (by rewrite Hperm1).
    destruct (IH (pre ++ left' ++ [pv]) right post (low + len left + 1) high) as
      (right' & Hrun2 & Hperm2 & Hsorted2); [len_lia..|lia|].
    replace (pre ++ left' ++ pv :: right ++ post)
      with ((pre ++ left' ++ [pv]) ++ right ++ post) by list_eq.
    rewrite Hrun2. exists (left' ++ pv :: right').
    split; [f_equal; list_eq|]. split.
    + rewrite Hperm1, Hperm2, <- Hperm. rewrite <- app_assoc.
      apply Permutation_app_head. by rewrite <- Permutation_middle, Permutation_app_comm.
    + apply StronglySorted_app_2; [|done|].
      * intros x y Hx Hy. rewrite Hperm1 in Hx.
        rewrite Forall_forall in Hleft, Hright. apply Hleft in Hx.
        apply elem_of_cons in Hy as [->|Hy]; [done|].
        rewrite Hperm2 in Hy. apply Hright, not_less_eq in Hy.
        by apply (ord_le_trans x pv y).
      * constructor; [done|]. rewrite Hperm2.
        eapply Forall_impl; [exact Hright|]. intros y Hy. by apply not_less_eq.
Qed.

Lemma quick_sort_correct (fuel : nat) (arr : list A) :
  (length arr <= fuel)%nat ->
  exists out, quick_sort fuel arr 0 (len arr - 1) = Ok out /\
    sorted_permutation_of arr out.
Proof.
  intros Hfuel.
  destruct (quick_sort_window fuel [] arr [] 0 (len arr - 1)) as
    (out & Hrun & Hperm & Hsorted); [len_lia..|done|].
  simpl in Hrun. rewrite !app_nil_r in Hrun. by exists out.
Qed.

(** A larger bound on the recursion depth does not change a result. *)
Lemma merge_sort_fuel_mono (fuel fuel' : nat) (arr out : list A) :
  merge_sort fuel arr = Ok out -> (fuel <= fuel')%nat ->
  merge_sort fuel' arr = Ok out.
Proof.
  revert fuel' arr out.
  induction fuel as [|fuel IH]; intros fuel' arr out Hrun Hle.
  - simpl in Hrun. destruct fuel'; simpl; by destruct (len arr >? 1).
  - destruct fuel' as [|fuel']; [lia|]. simpl in *.
    destruct (len arr >? 1); [|done].
    destruct (merge_sort fuel (take _ arr)) as [L| |] eqn:HL; try done.
    destruct (merge_sort fuel (drop _ arr)) as [R| |] eqn:HR; try done.
    rewrite (IH fuel' _ _ HL), (IH fuel' _ _ HR) by lia. done.
Qed.

Lemma quick_sort_fuel_mono (fuel fuel' : nat) (arr out : list A) (low high : Z) :
  quick_sort fuel arr low high = Ok out -> (fuel <= fuel')%nat ->
  quick_sort fuel' arr low high = Ok out.
Proof.
  revert fuel' arr out low high.
  induction fuel as [|fuel IH]; intros fuel' arr out low high Hrun Hle.
  - simpl in Hrun. destruct fuel'; simpl;
      destruct (len arr =? 1); try done; by destruct (low <? high).
  - destruct fuel' as [|fuel']; [lia|]. simpl in *.
    destruct (len arr =? 1); [done|]. destruct (low <? high); [|done].
    destruct (partition arr low high) as [[arr1 p]| |]; try done. simpl in *.
    destruct (quick_sort fuel arr1 low (p - 1)) as [arr2| |] eqn:H1; try done.
    rewrite (IH fuel' _ _ _ _ H1) by lia. simpl in *.
    apply IH; [done|lia].
Qed.

(** On a tie the first merge loop copies the right half's element. *)
Lemma merge_both_body_tie (L R : list A) (s : merge_state) (l r : A) :
  getitem L (m_i s) = Ok l -> getitem R (m_j s) = Ok r ->
  ord_le r l -> 0 <= m_k s < len (m_arr s) ->
  merge_both_body L R s =
  Ok (MergeState (<[Z.to_nat (m_k s) := r]> (m_arr s))
        (m_i s) (m_j s + 1) (m_k s + 1)).
Proof.
  intros Hl Hr Hle Hk. unfold merge_both_body. rewrite Hl, Hr. simpl.
  rewrite less_less_eq, Hle. simpl. by rewrite setitem_Ok.
Qed.

(** A sequence whose elements all compare equal comes out reversed. *)
Lemma merge_sort_equal_keys (fuel : nat) (arr : list A) :
  (length arr <= fuel)%nat ->
  (forall a b, a ∈ arr -> b ∈ arr -> ord_le a b) ->
  merge_sort fuel arr = Ok (reverse arr).
Proof.
  revert arr. induction fuel as [|fuel IH]; intros arr Hfuel Heq;
    destruct (merge_sort_unfold _ arr Hfuel) as (out & Hrun & _ & Hsmall & Hbig);
    rewrite Hrun; f_equal.
  - destruct arr; simpl in *; [|lia]. by destruct Hsmall as [?| ->]; [lia|].
  - destruct (decide (1 < length arr)%nat) as [Hlen|Hlen].
    2:{ destruct Hsmall as [?| ->]; [lia|].
        destruct arr as [|a [|]]; simpl in *; try lia; done. }
    destruct (Hbig Hlen) as (fuel' & L & R & [= <-] & HL & HR & ->).
    assert (Hhalf : (1 <= length arr / 2 < length arr)%nat).
    { split; [apply Nat.div_le_lower_bound; lia|].
      apply Nat.Div0.div_lt_upper_bound; lia. }
    assert (Hsub : forall x, x ∈ take (length arr / 2) arr \/
                             x ∈ drop (length arr / 2) arr -> x ∈ arr).
    { intros x Hx. rewrite <- (take_drop (length arr / 2) arr).
      by apply elem_of_app. }
    rewrite IH in HL by (rewrite ?length_take; auto; lia).
    rewrite IH in HR by (rewrite ?length_drop; auto; lia).
    injection HL as <-. injection HR as <-.
    rewrite merge_right_first.
    + by rewrite <- reverse_app, take_drop.
    + intros a b Ha Hb. rewrite elem_of_reverse in Ha, Hb.
      apply Heq; apply Hsub; [by right | by left].
Qed.

End sorting.

(** Two elements compare equal. *)
Definition tie {A : Type} {cmp : Compare A} (a b : A) : bool :=
  less_eq a b && less_eq b a.

(** The order of equal elements is kept: the elements that compare equal
    to a given one appear in the same order before and after. *)
Definition stable {A : Type} {cmp : Compare A} (arr out : list A) : Prop :=
  forall a, filter (fun x => Is_true (tie x a)) out =
            filter (fun x => Is_true (tie x a)) arr.

(** C2, as the specification states it, on two records ordered by their
    first field, with the same key 1 and the tags 0 and 1.  On the tie the
    first merge loop writes the right half's record and advances [j], not
    [i]; the sorted sequence holds the two records in the opposite order;
    so [merge_sort] is not stable. *)
Lemma merge_sort_not_stable :
  merge_both_body (cmp := compare_by fst) [(1, 0)] [(1, 1)]
    (MergeState [(1, 0); (1, 1)] 0 0 0) =
    Ok (MergeState [(1, 1); (1, 1)] 0 1 1) /\
  merge_sort (cmp := compare_by fst) 2 [(1, 0); (1, 1)] =
    Ok [(1, 1); (1, 0)] /\
  ~ (forall (arr out : list (Z * Z)) (fuel : nat),
       (length arr <= fuel)%nat ->
       merge_sort (cmp := compare_by fst) fuel arr = Ok out ->
       stable (cmp := compare_by fst) arr out).
Proof.
  split; [reflexivity|]. split; [reflexivity|].
  intros Hstable.
  specialize (Hstable [(1, 0); (1, 1)] [(1, 1); (1, 0)] 2%nat (le_n _) eq_refl
                (1, 0)).
  vm_compute in Hstable. discriminate Hstable.
Qed.

(** C2 (amended): [merge_sort] is right-biased on ties and therefore not
    stable.  When the head of the left half and the head of the right half
    compare equal, the merge copies the right element into the output and
    advances the right cursor; as a consequence a sequence whose elements
    all compare equal is returned in reverse order. *)
Theorem merge_sort_right_biased_on_ties
  {A : Type} {cmp : Compare A} {ord : TotalOrder A}
  (arr : list A) (fuel : nat) :
  (length arr <= fuel)%nat ->
  (forall a b, a ∈ arr -> b ∈ arr -> tie a b = true) ->
  merge_sort fuel arr = Ok (reverse arr) /\
  (forall (L R : list A) (s : merge_state) (l r : A),
     getitem L (m_i s) = Ok l -> getitem R (m_j s) = Ok r ->
     tie l r = true -> 0 <= m_k s < len (m_arr s) ->
     merge_both_body L R s =
     Ok (MergeState (<[Z.to_nat (m_k s) := r]> (m_arr s))
           (m_i s) (m_j s + 1) (m_k s + 1))).
Proof.
  intros Hfuel Heq. split.
  - apply merge_sort_equal_keys; [done|].
    intros a b Ha Hb. by destruct (andb_prop _ _ (Heq a b Ha Hb)).
  - intros L R s l r Hl Hr Htie Hk.
    apply (merge_both_body_tie L R s l r); try done.
    by destruct (andb_prop _ _ Htie).
Qed.

(** Three records with the same key come out in reverse order. *)
Lemma merge_sort_right_biased_on_ties_witness :
  merge_sort (cmp := compare_by fst) 3 [(7, 0); (7, 1); (7, 2)] =
  Ok [(7, 2); (7, 1); (7, 0)].
Proof.
  apply (merge_sort_right_biased_on_ties (cmp := compare_by fst)
           (ord := compare_by_total_order fst) [(7, 0); (7, 1); (7, 2)] 3).
  - simpl. lia.
  - intros a b Ha%list_elem_of_In Hb%list_elem_of_In. simpl in Ha, Hb.
    destruct Ha as [<-|[<-|[<-|[]]]], Hb as [<-|[<-|[<-|[]]]]; reflexivity.
Defined.

(** C3: for every finite input sequence of comparable elements, each of
    [bubble_sort(arr)], [merge_sort(arr)] and
    [quick_sort(arr, 0, len(arr) - 1)] returns normally and leaves in [arr]
    a permutation of the input arranged in non-decreasing order.  A
    recursion depth of [len(arr)] is enough for the two recursive sorts, and
    any larger bound gives the same result. *)
Theorem sorts_give_sorted_permutation
  {A : Type} {cmp : Compare A} {ord : TotalOrder A} (arr : list A) :
  exists b m q,
    bubble_sort arr = Ok b /\
    (forall fuel, (length arr <= fuel)%nat -> merge_sort fuel arr = Ok m) /\
    (forall fuel, (length arr <= fuel)%nat ->
       quick_sort fuel arr 0 (len arr - 1) = Ok q) /\
    (b ≡ₚ arr /\ Sorted ord_le b) /\
    (m ≡ₚ arr /\ Sorted ord_le m) /\
    (q ≡ₚ arr /\ Sorted ord_le q).
Proof.
  destruct (bubble_sort_correct arr) as (b & Hb & Hpb & Hsb).
  destruct (merge_sort_correct (length arr) arr (le_n _)) as (m & Hm & Hpm & Hsm).
  destruct (quick_sort_correct (length arr) arr (le_n _)) as (q & Hq & Hpq & Hsq).
  exists b, m, q. split; [done|].
  split; [|split; [|by repeat split; try apply StronglySorted_Sorted]].
  - intros fuel Hfuel. by apply (merge_sort_fuel_mono (length arr)).
  - intros fuel Hfuel. by apply (quick_sort_fuel_mono (length arr)).
Qed.

(** On Python integers. *)
Lemma sorts_give_sorted_permutation_witness :
  exists b m q : list Z,
    bubble_sort [3; 1; 2] = Ok b /\
    (forall fuel, (3 <= fuel)%nat -> merge_sort fuel [3; 1; 2] = Ok m) /\
    (forall fuel, (3 <= fuel)%nat -> quick_sort fuel [3; 1; 2] 0 2 = Ok q) /\
    (b ≡ₚ [3; 1; 2] /\ Sorted ord_le b) /\
    (m ≡ₚ [3; 1; 2] /\ Sorted ord_le m) /\
    (q ≡ₚ [3; 1; 2] /\ Sorted ord_le q).
Proof. exact (sorts_give_sorted_permutation (ord := Z_total_order) [3; 1; 2]). Defined.

(** The three runs of the script, and the scenario of the specification. *)
Example sorting_script :
  bubble_sort [64; 34; 25; 12; 22; 11; 90] = Ok [11; 12; 22; 25; 34; 64; 90] /\
  merge_sort 6 [12; 11; 13; 5; 6; 7] = Ok [5; 6; 7; 11; 12; 13] /\
  quick_sort 6 [10; 7; 8; 9; 1; 5] 0 5 = Ok [1; 5; 7; 8; 9; 10] /\
  merge_sort 7 [64; 34; 25; 12; 22; 11; 90] = Ok [11; 12; 22; 25; 34; 64; 90] /\
  quick_sort 7 [64; 34; 25; 12; 22; 11; 90] 0 6 =
    Ok [11; 12; 22; 25; 34; 64; 90].
Proof. by vm_compute. Qed.

(** *** More about the three sorts *)

Section sorting_more.

Context {A : Type} {cmp : Compare A} {ord : TotalOrder A}.

(** The [i] first rounds of the outer loop of [bubble_sort], as a function
    on lists: round [k] is a pass over the first [len(arr) - k] elements. *)
Definition bubble_rounds (arr : list A) (i : nat) : list A :=
  fold_left (fun l k => bubble_pass (length arr - k - 1) l) (seq 0 i) arr.

Lemma bubble_pass_length (n : nat) (l : list A) :
  length (bubble_pass n l) = length l.
Proof. by rewrite bubble_pass_perm. Qed.

Lemma bubble_rounds_S (arr : list A) (i : nat) :
  bubble_rounds arr (S i) =
  bubble_pass (length arr - i - 1) (bubble_rounds arr i).
Proof. unfold bubble_rounds. by rewrite seq_S, fold_left_app. Qed.

Lemma bubble_rounds_length (arr : list A) (i : nat) :
  length (bubble_rounds arr i) = length arr.
Proof.
  induction i as [|i IH]; [done|].
  by rewrite bubble_rounds_S, bubble_pass_length.
Qed.

Lemma bubble_sort_rounds (arr : list A) (i : nat) :
  (i <= length arr)%nat ->
  for_each (range 0 (Z.of_nat i))
    (fun i arr' => for_each (range 0 (len arr - i - 1)) bubble_step arr')
    arr = Ok (bubble_rounds arr i).
Proof.
  induction i as [|i IH]; intros Hi.
  - by rewrite range_nil by lia.
  - replace (Z.of_nat (S i)) with (Z.of_nat i + 1) by lia.
    rewrite range_snoc by lia. rewrite for_each_app, IH by lia. simpl.
    replace (len arr - Z.of_nat i - 1)
      with (0 + Z.of_nat (length arr - i - 1)) by (unfold len; lia).
    rewrite (bubble_inner_loop _ [] (bubble_rounds arr i) 0 eq_refl)
      by (rewrite bubble_rounds_length; lia).
    simpl. by rewrite bubble_rounds_S.
Qed.

(** Two elements that tie with a third tie with each other. *)
Lemma tie_less_eq (a b c : A) :
  tie a c = true -> tie b c = true -> less_eq a b = true.
Proof.
  unfold tie. intros [Hac _]%andb_true_iff [_ Hcb]%andb_true_iff.
  by apply (less_eq_trans a c b).
Qed.

Lemma bubble_pass_stable (n : nat) (l : list A) : stable l (bubble_pass n l).
Proof.
  intros c. revert l. induction n as [|n IH]; intros l; [by destruct l|].
  destruct l as [|a [|b rest]]; simpl; [done..|].
  destruct (greater a b) eqn:Hgt.
  - rewrite !filter_cons. rewrite IH. rewrite filter_cons.
    destruct (decide (Is_true (tie a c))) as [Ha|Ha],
             (decide (Is_true (tie b c))) as [Hb|Hb]; try done.
    apply Is_true_true in Ha, Hb.
    rewrite greater_less, less_less_eq in Hgt.
    by rewrite (tie_less_eq a b c Ha Hb) in Hgt.
  - rewrite !filter_cons. by rewrite IH.
Qed.

(** X13: [bubble_sort] is stable: it swaps two neighbours only when the
    first is strictly greater, so elements that compare equal leave the
    sort in the order in which they entered it. *)
Theorem bubble_sort_stable (arr : list A) :
  exists out, bubble_sort arr = Ok out /\ stable arr out.
Proof.
  exists (bubble_rounds arr (length arr)).
  split; [exact (bubble_sort_rounds arr (length arr) (le_n _))|].
  generalize (length arr). intros i. induction i as [|i IH]; [done|].
  rewrite bubble_rounds_S. intros c.
  rewrite (bubble_pass_stable _ _ c). apply IH.
Qed.

Lemma bubble_pass_sorted (n : nat) (l : list A) :
  StronglySorted ord_le l -> bubble_pass n l = l.
Proof.
  revert l. induction n as [|n IH]; intros l Hl; [by destruct l|].
  destruct l as [|a [|b rest]]; simpl; [done..|].
  apply StronglySorted_cons in Hl as [Ha Hl].
  apply Forall_cons in Ha as [Hab _].
  rewrite greater_less, less_less_eq, Hab. simpl. f_equal. by apply IH.
Qed.

(** X14: on a sequence already in non-decreasing order [bubble_sort] makes
    no swap and returns the sequence as it is; hence sorting twice gives
    what sorting once gives. *)
Theorem bubble_sort_sorted_input (arr : list A) :
  (StronglySorted ord_le arr -> bubble_sort arr = Ok arr) /\
  (forall out, bubble_sort arr = Ok out -> bubble_sort out = Ok out).
Proof.
  assert (Hsorted : forall l, StronglySorted ord_le l -> bubble_sort l = Ok l).
  { intros l Hl.
    assert (Hrounds : forall i, bubble_rounds l i = l).
    { induction i as [|i IH]; [done|].
      by rewrite bubble_rounds_S, IH, bubble_pass_sorted. }
    rewrite <- (Hrounds (length l)) at 2.
    exact (bubble_sort_rounds l (length l) (le_n _)). }
  split; [apply Hsorted|].
  intros out Hout. apply Hsorted.
  destruct (bubble_sort_correct arr) as (out' & Hout' & _ & Hs).
  rewrite Hout in Hout'. by injection Hout' as <-.
Qed.

(** X15: the contract of [partition] (Lomuto, last element as pivot).
    On the window [seg ++ [pivot]] that starts at [low] and ends at
    [high], with [pre] before it and [post] behind it, [partition] returns
    normally, leaves [pre] and [post] untouched, and rearranges the window
    as [left ++ [pivot] ++ right], where [left] holds the elements of
    [seg] that are [<= pivot] and [right] those that are [> pivot]; the
    index it returns is the position of the pivot. *)
Theorem partition_contract (pivot : A) (pre seg post : list A) (low high : Z) :
  low = len pre -> high = low + len seg ->
  exists left right,
    partition (pre ++ seg ++ pivot :: post) low high =
    Ok (pre ++ left ++ pivot :: right ++ post, low + len left) /\
    left ++ right ≡ₚ seg /\
    Forall (fun x => less_eq x pivot = true) left /\
    Forall (fun x => less_eq x pivot = false) right /\
    getitem (pre ++ left ++ pivot :: right ++ post) (low + len left) = Ok pivot.
Proof.
  intros Hlow Hhigh.
  destruct (partition_spec pivot pre seg post low high Hlow Hhigh)
    as (left & right & Hrun & Hperm & Hl & Hr).
  exists left, right. repeat (split; [done|]).
  replace (pre ++ left ++ pivot :: right ++ post)
    with ((pre ++ left) ++ pivot :: right ++ post) by (by rewrite <- app_assoc).
  apply getitem_middle. rewrite len_app. lia.
Qed.

(** X16: [quick_sort(arr, low, high)] works inside its window: the
    elements before [low] and after [high] stay where they are, and the
    window comes out as a sorted permutation of what it held. *)
Theorem quick_sort_in_window (fuel : nat) (pre seg post : list A) (low high : Z) :
  low = len pre -> high = low + len seg - 1 -> (length seg <= fuel)%nat ->
  exists seg',
    quick_sort fuel (pre ++ seg ++ post) low high = Ok (pre ++ seg' ++ post) /\
    seg' ≡ₚ seg /\ Sorted ord_le seg'.
Proof.
  intros Hlow Hhigh Hfuel.
  destruct (quick_sort_window fuel pre seg post low high Hlow Hhigh Hfuel)
    as (seg' & Hrun & Hperm & Hsorted).
  exists seg'. split; [done|]. split; [done|]. by apply StronglySorted_Sorted.
Qed.

(** X17: the three merge loops.  Given two sorted sequences [L] and [R]
    and an array of [len(L) + len(R)] positions, they overwrite every
    position of the array, whatever it held, and leave in it a sorted
    permutation of the elements of [L] and [R]. *)
Theorem merge_into_sorted (arr arr' L R : list A) :
  length arr = (length L + length R)%nat -> length arr' = length arr ->
  StronglySorted ord_le L -> StronglySorted ord_le R ->
  exists out,
    merge_into arr L R = Ok out /\ merge_into arr' L R = Ok out /\
    out ≡ₚ L ++ R /\ Sorted ord_le out.
Proof.
  intros Harr Harr' HL HR. exists (merge L R).
  rewrite !merge_into_spec by lia. split; [done|]. split; [done|].
  split; [apply merge_perm|]. by apply StronglySorted_Sorted, merge_sorted.
Qed.

Lemma merge_sort_log_returns (fuel : nat) (arr : list A) :
  (length arr <= 2 ^ fuel)%nat ->
  exists out, merge_sort fuel arr = Ok out /\ length out = length arr.
Proof.
  revert arr. induction fuel as [|fuel IH]; intros arr Hlen; simpl in *.
  - destruct (Z.gtb_spec (len arr) 1); [unfold len in *; lia|]. by exists arr.
  - destruct (Z.gtb_spec (len arr) 1) as [Hbig|]; [|by exists arr].
    assert (Hmid : Z.to_nat (len arr `div` 2) = (length arr / 2)%nat).
    { unfold len. rewrite <- (Nat2Z.id (length arr / 2)). f_equal.
      by rewrite Nat2Z.inj_div. }
    rewrite Hmid.
    assert (Hhalf : (length arr / 2 <= 2 ^ fuel /\
                     length arr - length arr / 2 <= 2 ^ fuel)%nat).
    { pose proof (Nat.div_mod_eq (length arr) 2).
      pose proof (Nat.mod_upper_bound (length arr) 2). lia. }
    destruct (IH (take (length arr / 2) arr)) as (L & HL & HlenL);
      [rewrite length_take; lia|].
    destruct (IH (drop (length arr / 2) arr)) as (R & HR & HlenR);
      [rewrite length_drop; lia|].
    rewrite HL, HR. simpl.
    rewrite length_take in HlenL. rewrite length_drop in HlenR.
    assert (length arr / 2 <= length arr)%nat
      by (apply Nat.Div0.div_le_upper_bound; lia).
    rewrite merge_into_spec by lia.
    exists (merge L R). split; [done|].
    rewrite merge_perm, length_app. lia.
Qed.

(** X18: the recursion of [merge_sort] is logarithmically deep: a depth of
    [d] is enough for a sequence of at most [2^d] elements, and gives the
    sorted permutation. *)
Theorem merge_sort_logarithmic (fuel : nat) (arr : list A) :
  (length arr <= 2 ^ fuel)%nat ->
  exists out, merge_sort fuel arr = Ok out /\
    out ≡ₚ arr /\ Sorted ord_le out.
Proof.
  intros Hlen.
  destruct (merge_sort_log_returns fuel arr Hlen) as (out & Hrun & _).
  exists out. split; [done|].
  destruct (merge_sort_correct (Nat.max fuel (length arr)) arr)
    as (out' & Hrun' & Hperm & Hsorted); [lia|].
  rewrite (merge_sort_fuel_mono fuel _ arr out Hrun) in Hrun' by lia.
  injection Hrun' as <-. split; [done|]. by apply StronglySorted_Sorted.
Qed.

End sorting_more.

(** Three records, two of them with the same key. *)
Lemma bubble_sort_stable_witness :
  exists out,
    bubble_sort (cmp := compare_by fst) [(2, 0); (1, 0); (1, 1)] = Ok out /\
    stable (cmp := compare_by fst) [(2, 0); (1, 0); (1, 1)] out.
Proof.
  exact (bubble_sort_stable (ord := compare_by_total_order fst)
           [(2, 0); (1, 0); (1, 1)]).
Defined.

(** A sorted sequence of integers. *)
Lemma bubble_sort_sorted_input_witness :
  (StronglySorted ord_le [1; 2; 2] -> bubble_sort [1; 2; 2] = Ok [1; 2; 2]) /\
  (forall out, bubble_sort [1; 2; 2] = Ok out -> bubble_sort out = Ok out).
Proof. exact (bubble_sort_sorted_input (ord := Z_total_order) [1; 2; 2]). Defined.

(** The first call of [partition] in the script's run of quick sort. *)
Lemma partition_contract_witness :
  exists left right : list Z,
    partition ([] ++ [10; 7; 8; 9; 1] ++ 5 :: []) 0 5 =
    Ok ([] ++ left ++ 5 :: right ++ [], 0 + len left) /\
    left ++ right ≡ₚ [10; 7; 8; 9; 1] /\
    Forall (fun x => less_eq x 5 = true) left /\
    Forall (fun x => less_eq x 5 = false) right /\
    getitem ([] ++ left ++ 5 :: right ++ []) (0 + len left) = Ok 5.
Proof.
  apply (partition_contract (A := Z) 5 [] [10; 7; 8; 9; 1] [] 0 5); reflexivity.
Defined.

(** Sorting the three middle elements of a sequence of five. *)
Lemma quick_sort_in_window_witness :
  exists seg' : list Z,
    quick_sort 3 ([9] ++ [3; 1; 2] ++ [0]) 1 3 = Ok ([9] ++ seg' ++ [0]) /\
    seg' ≡ₚ [3; 1; 2] /\ Sorted ord_le seg'.
Proof.
  apply (quick_sort_in_window (ord := Z_total_order) 3 [9] [3; 1; 2] [0] 1 3);
    [reflexivity | reflexivity | simpl; lia].
Defined.

(** Two sorted halves of two elements. *)
Lemma merge_into_sorted_witness :
  exists out : list Z,
    merge_into [0; 0; 0; 0] [1; 4] [2; 3] = Ok out /\
    merge_into [9; 9; 9; 9] [1; 4] [2; 3] = Ok out /\
    out ≡ₚ [1; 4] ++ [2; 3] /\ Sorted ord_le out.
Proof.
  apply (merge_into_sorted (ord := Z_total_order)
           [0; 0; 0; 0] [9; 9; 9; 9] [1; 4] [2; 3]);
    [reflexivity | reflexivity | |]; repeat constructor.
Defined.

(** The sequence of the script: six elements, depth three. *)
Lemma merge_sort_logarithmic_witness :
  exists out : list Z,
    merge_sort 3 [12; 11; 13; 5; 6; 7] = Ok out /\
    out ≡ₚ [12; 11; 13; 5; 6; 7] /\ Sorted ord_le out.
Proof.
  apply (merge_sort_logarithmic (ord := Z_total_order) 3 [12; 11; 13; 5; 6; 7]).
  simpl. lia.
Defined.

Lemma Z_sorted_unique (arr out out' : list Z) :
  sorted_permutation_of arr out -> sorted_permutation_of arr out' ->
  out = out'.
Proof.
  intros [Hp Hs] [Hp' Hs'].
  apply (StronglySorted_unique_strong ord_le); [|done|done|by rewrite Hp, Hp'].
  intros a b _ _ Hab%Z.leb_le Hba%Z.leb_le. lia.
Qed.

(** X19: on Python integers the three sorts return the same list, and
    sorting that list again with any of them returns it unchanged. *)
Theorem sorts_agree_on_integers (arr : list Z) :
  exists out,
    bubble_sort arr = Ok out /\
    merge_sort (length arr) arr = Ok out /\
    quick_sort (length arr) arr 0 (len arr - 1) = Ok out /\
    bubble_sort out = Ok out /\
    merge_sort (length out) out = Ok out /\
    quick_sort (length out) out 0 (len out - 1) = Ok out.
Proof.
  destruct (bubble_sort_correct arr) as (b & Hb & Hsb).
  destruct (merge_sort_correct (length arr) arr (le_n _)) as (m & Hm & Hsm).
  destruct (quick_sort_correct (length arr) arr (le_n _)) as (q & Hq & Hsq).
  rewrite <- (Z_sorted_unique arr b m Hsb Hsm) in Hm.
  rewrite <- (Z_sorted_unique arr b q Hsb Hsq) in Hq.
  exists b. split; [done|]. split; [done|]. split; [done|].
  assert (Hself : sorted_permutation_of b b) by (split; [done|apply Hsb]).
  destruct (bubble_sort_correct b) as (b' & Hb' & Hsb').
  destruct (merge_sort_correct (length b) b (le_n _)) as (m' & Hm' & Hsm').
  destruct (quick_sort_correct (length b) b (le_n _)) as (q' & Hq' & Hsq').
  pose proof (Z_sorted_unique b b' b Hsb' Hself) as ->.
  pose proof (Z_sorted_unique b m' b Hsm' Hself) as ->.
  pose proof (Z_sorted_unique b q' b Hsq' Hself) as ->.
  done.
Qed.

End Sorting.

(** ** Directed graph, BFS and DFS *)

Module Graph.
Import Py.

(** Vertex identifiers are non-negative integers; [self.graph] is a
    [defaultdict(list)] from vertices to adjacency sequences. *)
Abbreviation graph := (gmap nat (list nat)).

(** [self.graph[k]] read from a [defaultdict(list)]: a missing key is
    created with the empty list, which is returned. *)
Definition getitem_default (g : graph) (k : nat) : list nat * graph :=
  match g !! k with
  | Some l => (l, g)
  | None => ([], <[k := []]> g)
  end.

(** [add_edge(self, u, v)]: [self.graph[u].append(v)] *)
Definition add_edge (g : graph) (u v : nat) : graph :=
  let '(l, g) := getitem_default g u in <[u := l ++ [v]]> g.

(** The graph after a sequence of [add_edge] calls on a new [Graph()]. *)
Definition build (edges : list (nat * nat)) : graph :=
  fold_left (fun g e => add_edge g e.1 e.2) edges ∅.

(** [max(self.graph)]: the largest key; a [ValueError] on the empty
    dictionary. *)
Definition max_key (g : graph) : result nat :=
  match elements (dom g) with
  | [] => Raise ValueError
  | ks => Ok (max_list ks)
  end.

(** *** BFS *)

(** The variables of [bfs]: the dictionary, the marker list, the queue
    and what has been printed. *)
Record bfs_state : Type := BfsState {
  b_graph : graph;
  b_visited : list bool;
  b_queue : list nat;
  b_out : list nat
}.

(** The body of [for i in self.graph[s]]: the marker is read first, then
    the vertex is queued and marked. *)
Definition bfs_visit (i : nat) (st : bfs_state) : result bfs_state :=
  seen ← getitem (b_visited st) (Z.of_nat i);
  if bool_decide (seen = false) then
    let queue := b_queue st ++ [i] in
    visited ← setitem (b_visited st) (Z.of_nat i) true;
    Ok (BfsState (b_graph st) visited queue (b_out st))
  else Ok st.

(** The body of [while queue]: [queue.pop(0)], the print, and the loop over
    the adjacency sequence of the vertex taken off the queue. *)
Definition bfs_body (st : bfs_state) : result bfs_state :=
  match b_queue st with
  | [] => Raise IndexError
  | s :: queue =>
      let out := b_out st ++ [s] in
      let '(ns, g) := getitem_default (b_graph st) s in
      for_each ns bfs_visit (BfsState g (b_visited st) queue out)
  end.

Definition bfs_cond (st : bfs_state) : bool :=
  bool_decide (b_queue st <> []).

(** [bfs(self, s)]: the dictionary after the call and the vertices in the
    order printed.  The fuel bounds the number of rounds of the [while]
    loop. *)
(** The statements of [bfs] before the loop:
    [visited = [False] * (max(self.graph) + 1)], [queue.append(s)],
    [visited[s] = True]. *)
Definition bfs_markers (g : graph) : result (list bool) :=
  m ← max_key g;
  Ok (replicate (m + 1) false).

Definition bfs_init (g : graph) (s : nat) : result bfs_state :=
  visited ← bfs_markers g;
  let queue := [s] in
  visited ← setitem visited (Z.of_nat s) true;
  Ok (BfsState g visited queue []).

Definition bfs (fuel : nat) (g : graph) (s : nat) : result (graph * list nat) :=
  st ← bfs_init g s;
  st ← while fuel bfs_cond bfs_body st;
  Ok (b_graph st, b_out st).

(** What [bfs] leaves behind when it stops, by returning or by raising.
    [self.graph] is one object written in place: what has been written
    and printed when a statement raises stays written and printed.  In one
    round of [while queue], [print(s)] and the lookup [self.graph[s]] come
    before the first marker is read, and the [for] loop neither prints nor
    writes to the dictionary; so this is the dictionary and the output
    when the round is left, at its end or by an exception in the [for]
    loop. *)
Definition bfs_body_store (st : bfs_state) : graph * list nat :=
  match b_queue st with
  | [] => (b_graph st, b_out st)
  | s :: _ => ((getitem_default (b_graph st) s).2, b_out st ++ [s])
  end.

(** The dictionary and the output when the [while] loop is left (or when
    the rounds allowed are used up). *)
Fixpoint bfs_loop_store (fuel : nat) (st : bfs_state) : graph * list nat :=
  if bfs_cond st then
    match fuel with
    | O => (b_graph st, b_out st)
    | S fuel =>
        match bfs_body st with
        | Ok st' => bfs_loop_store fuel st'
        | _ => bfs_body_store st
        end
    end
  else (b_graph st, b_out st).

(** The dictionary and the output when [bfs] is left: the statements
    before the loop write nothing to the dictionary and print no vertex. *)
Definition bfs_store (fuel : nat) (g : graph) (s : nat) : graph * list nat :=
  match bfs_init g s with
  | Ok st => bfs_loop_store fuel st
  | _ => (g, [])
  end.

(** *** DFS *)

(** What [dfs_util] works on: the dictionary, the [visited] set shared by
    all the recursive calls, and what has been printed. *)
Record dfs_state : Type := DfsState {
  d_graph : graph;
  d_visited : gset nat;
  d_out : list nat
}.

(** [dfs_util(self, v, visited)]; the fuel bounds the depth of the
    recursion. *)
Fixpoint dfs_util (fuel : nat) (v : nat) (st : dfs_state) : result dfs_state :=
  match fuel with
  | O => OutOfFuel
  | S fuel =>
      let visited := {[v]} ∪ d_visited st in
      let out := d_out st ++ [v] in
      let '(ns, g) := getitem_default (d_graph st) v in
      for_each ns
        (fun neighbour st =>
           if decide (neighbour ∈ d_visited st) then Ok st
           else dfs_util fuel neighbour st)
        (DfsState g visited out)
  end.

(** [dfs(self, v)] *)
Definition dfs (fuel : nat) (g : graph) (v : nat) : result (graph * list nat) :=
  st ← dfs_util fuel v (DfsState g ∅ []);
  Ok (d_graph st, d_out st).

(** *** Reachability *)

(** The adjacency sequence of a vertex, empty when it is not a key. *)
Definition adj (g : graph) (u : nat) : list nat := default [] (g !! u).

Definition edge (g : graph) (u v : nat) : Prop := v ∈ adj g u.

Definition reachable (g : graph) (s v : nat) : Prop := rtc (edge g) s v.

(** The graph of the script. *)
Definition script_graph : graph :=
  build [(0, 1); (0, 2); (1, 2); (2, 0); (2, 3); (3, 3)]%nat.

(** *** Loop invariants *)

(** An invariant indexed by the part of the sequence already iterated
    over holds after a [for] loop that ends normally. *)
Lemma for_each_inv {S X} (I : list X -> S -> Prop) (xs : list X)
    (body : X -> S -> result S) (s s' : S) :
  I [] s ->
  (forall done x s1 s2,
     I done s1 -> x ∈ xs -> body x s1 = Ok s2 -> I (done ++ [x]) s2) ->
  for_each xs body s = Ok s' -> I xs s'.
Proof.
  intros Hinit Hstep.
  assert (Hgen : forall todo done s,
            (forall x, x ∈ todo -> x ∈ xs) -> I done s ->
            for_each todo body s = Ok s' -> I (done ++ todo) s').
  { induction todo as [|x todo IH]; intros done s1 Hsub Hdone Hrun; simpl in Hrun.
    - injection Hrun as <-. by rewrite app_nil_r.
    - destruct (body x s1) as [s2| |] eqn:Hbody; try done. simpl in Hrun.
      replace (done ++ x :: todo) with ((done ++ [x]) ++ todo)
        by (by rewrite <- app_assoc).
      apply (IH _ s2); [|eapply Hstep; eauto|done].
      + intros y Hy. apply Hsub. by apply list_elem_of_further.
      + apply Hsub. apply list_elem_of_here. }
  intros Hrun. by apply (Hgen xs [] s).
Qed.

(** A [for] loop whose body ends normally under the invariant ends
    normally. *)
Lemma for_each_total {S X} (I : list X -> S -> Prop) (xs : list X)
    (body : X -> S -> result S) (s : S) :
  I [] s ->
  (forall done x s1, I done s1 -> x ∈ xs ->
     exists s2, body x s1 = Ok s2 /\ I (done ++ [x]) s2) ->
  exists s', for_each xs body s = Ok s' /\ I xs s'.
Proof.
  intros Hinit Hstep.
  assert (Hgen : forall todo done s,
            (forall x, x ∈ todo -> x ∈ xs) -> I done s ->
            exists s', for_each todo body s = Ok s' /\ I (done ++ todo) s').
  { induction todo as [|x todo IH]; intros done s1 Hsub Hdone; simpl.
    - exists s1. by rewrite app_nil_r.
    - destruct (Hstep done x s1 Hdone) as (s2 & Hbody & Hs2).
      { apply Hsub. apply list_elem_of_here. }
      rewrite Hbody. simpl.
      replace (done ++ x :: todo) with ((done ++ [x]) ++ todo)
        by (by rewrite <- app_assoc).
      apply IH; [|done].
      intros y Hy. apply Hsub. by apply list_elem_of_further. }
  by apply (Hgen xs [] s).
Qed.

(** An invariant holds, and the condition is false, after a [while] loop
    that ends normally. *)
Lemma while_inv {S} (I : S -> Prop) (fuel : nat) (cond : S -> bool)
    (body : S -> result S) (s s' : S) :
  (forall s1 s2, I s1 -> cond s1 = true -> body s1 = Ok s2 -> I s2) ->
  I s -> while fuel cond body s = Ok s' -> I s' /\ cond s' = false.
Proof.
  intros Hstep. revert s.
  induction fuel as [|fuel IH]; intros s Hs; simpl;
    destruct (cond s) eqn:Hc; try done.
  - by intros [= <-].
  - destruct (body s) as [s1| |] eqn:Hbody; try done. simpl.
    apply IH. eauto.
  - by intros [= <-].
Qed.

(** *** The dictionary during a traversal *)

Lemma getitem_default_spec (g : graph) (k : nat) :
  (getitem_default g k).1 = adj g k /\
  (getitem_default g k).2 !! k = Some (adj g k) /\
  (forall k', k' <> k -> (getitem_default g k).2 !! k' = g !! k').
Proof.
  unfold getitem_default, adj. destruct (g !! k) as [l|] eqn:Hk; simpl.
  - by rewrite Hk.
  - split; [done|]. split; [by rewrite lookup_insert_eq|].
    intros k' Hne. by rewrite lookup_insert_ne.
Qed.

(** *** BFS: one neighbour *)

Lemma bfs_visit_out_of_range (i : nat) (st : bfs_state) :
  (length (b_visited st) <= i)%nat -> bfs_visit i st = Raise IndexError.
Proof.
  intros Hi. unfold bfs_visit, getitem, norm_index.
  destruct (Z.ltb_spec (Z.of_nat i) 0); [lia|].
  destruct (Z.leb_spec 0 (Z.of_nat i)); [|lia].
  destruct (Z.ltb_spec (Z.of_nat i) (Z.of_nat (length (b_visited st)))); [lia|].
  done.
Qed.

Lemma bfs_visit_seen (i : nat) (st : bfs_state) :
  b_visited st !! i = Some true -> bfs_visit i st = Ok st.
Proof.
  intros Hi. unfold bfs_visit. by rewrite (getitem_nat _ _ _ Hi).
Qed.

Lemma bfs_visit_unseen (i : nat) (st : bfs_state) :
  b_visited st !! i = Some false ->
  bfs_visit i st =
  Ok (BfsState (b_graph st) (<[i := true]> (b_visited st))
        (b_queue st ++ [i]) (b_out st)).
Proof.
  intros Hi. unfold bfs_visit. rewrite (getitem_nat _ _ _ Hi). simpl.
  apply lookup_lt_Some in Hi.
  rewrite setitem_Ok by (unfold len; lia). simpl. by rewrite Nat2Z.id.
Qed.

(** The three cases of [bfs_visit]. *)
Lemma bfs_visit_cases (i : nat) (st : bfs_state) :
  ((length (b_visited st) <= i)%nat /\ bfs_visit i st = Raise IndexError) \/
  (b_visited st !! i = Some true /\ bfs_visit i st = Ok st) \/
  (b_visited st !! i = Some false /\
   bfs_visit i st =
   Ok (BfsState (b_graph st) (<[i := true]> (b_visited st))
         (b_queue st ++ [i]) (b_out st))).
Proof.
  destruct (b_visited st !! i) as [[]|] eqn:Hi.
  - right. left. split; [done|]. by apply bfs_visit_seen.
  - right. right. split; [done|]. by apply bfs_visit_unseen.
  - left. apply lookup_ge_None in Hi. split; [done|].
    by apply bfs_visit_out_of_range.
Qed.

(** The outcomes [bfs] can have when its fuel does not run out. *)
Definition ok_or_index_error {A} (r : result A) : Prop :=
  match r with
  | Ok _ => True
  | Raise e => e = IndexError
  | OutOfFuel => False
  end.

Lemma bfs_visits_outcome (ns : list nat) (st : bfs_state) :
  ok_or_index_error (for_each ns bfs_visit st).
Proof.
  revert st. induction ns as [|x ns IH]; intros st; simpl; [done|].
  destruct (bfs_visit_cases x st) as [[_ H]|[[_ H]|[_ H]]]; rewrite H; simpl;
    [done|apply IH..].
Qed.

Lemma bfs_body_outcome (st : bfs_state) : ok_or_index_error (bfs_body st).
Proof.
  unfold bfs_body. destruct (b_queue st); [done|].
  destruct (getitem_default _ _). apply bfs_visits_outcome.
Qed.

(** *** BFS: the invariant of the [while] loop *)

Section bfs_invariant.

(** The graph and the start vertex [bfs] was called with, and the length
    of the marker list. *)
Context (g0 : graph) (s0 : nat) (n : nat).

Record bfs_inv (st : bfs_state) : Prop := BfsInv {
  inv_len : length (b_visited st) = n;
  inv_seen : forall v,
    b_visited st !! v = Some true <-> v ∈ b_out st ++ b_queue st;
  inv_nodup : NoDup (b_out st ++ b_queue st);
  inv_start : s0 ∈ b_out st ++ b_queue st;
  inv_reach : forall v, v ∈ b_out st ++ b_queue st -> reachable g0 s0 v;
  inv_closed : forall u w,
    u ∈ b_out st -> w ∈ adj g0 u -> w ∈ b_out st ++ b_queue st;
  inv_graph : forall v,
    b_graph st !! v =
    if decide (v ∈ b_out st) then Some (adj g0 v) else g0 !! v
}.

(** The invariant of the inner loop over the neighbours of [u], [done]
    being the neighbours already handled. *)
Record visit_inv (u : nat) (done : list nat) (st : bfs_state) : Prop := VisitInv {
  vis_len : length (b_visited st) = n;
  vis_seen : forall v,
    b_visited st !! v = Some true <-> v ∈ b_out st ++ b_queue st;
  vis_nodup : NoDup (b_out st ++ b_queue st);
  vis_start : s0 ∈ b_out st ++ b_queue st;
  vis_reach : forall v, v ∈ b_out st ++ b_queue st -> reachable g0 s0 v;
  vis_popped : u ∈ b_out st;
  vis_closed : forall u' w,
    u' ∈ b_out st -> u' <> u -> w ∈ adj g0 u' -> w ∈ b_out st ++ b_queue st;
  vis_done : forall w, w ∈ done -> w ∈ b_out st ++ b_queue st;
  vis_graph : forall v,
    b_graph st !! v =
    if decide (v ∈ b_out st) then Some (adj g0 v) else g0 !! v
}.

Lemma bfs_inv_adj (st : bfs_state) (v : nat) :
  bfs_inv st -> adj (b_graph st) v = adj g0 v.
Proof.
  intros Hinv. unfold adj at 1. rewrite (inv_graph _ Hinv).
  by destruct (decide (v ∈ b_out st)).
Qed.

Lemma visit_inv_step (u : nat) (done : list nat) (x : nat) (st st' : bfs_state) :
  visit_inv u done st -> x ∈ adj g0 u -> bfs_visit x st = Ok st' ->
  visit_inv u (done ++ [x]) st'.
Proof.
  intros Hinv Hx Hrun.
  destruct (bfs_visit_cases x st) as [[_ H]|[[Hseen H]|[Hunseen H]]];
    rewrite H in Hrun; [done| |]; injection Hrun as <-.
  - destruct Hinv. split; try done.
    intros w [Hw|Hw%list_elem_of_singleton]%elem_of_app; [auto|].
    subst w. by apply vis_seen0.
  - destruct Hinv. simpl in *.
    assert (Hfresh : x ∉ b_out st ++ b_queue st).
    { intros Hin. apply vis_seen0 in Hin. congruence. }
    assert (Hxreach : reachable g0 s0 x).
    { eapply rtc_r; [apply vis_reach0|exact Hx].
      apply elem_of_app. by left. }
    split; simpl.
    + by rewrite length_insert.
    + intros v. rewrite list_lookup_insert_Some, app_assoc, elem_of_app,
        list_elem_of_singleton, <- vis_seen0.
      pose proof (lookup_lt_Some _ _ _ Hunseen) as Hlt. split.
      * intros [(-> & _ & _)|[_ ?]]; auto.
      * intros [Hv| ->]; [|left; done].
        destruct (decide (x = v)) as [->|]; [congruence|]. by right.
    + rewrite app_assoc. apply NoDup_app. split; [done|]. split.
      * intros v Hv ->%list_elem_of_singleton. done.
      * apply NoDup_singleton.
    + rewrite app_assoc. apply elem_of_app. by left.
    + intros v. rewrite app_assoc.
      intros [Hv| ->%list_elem_of_singleton]%elem_of_app; auto.
    + done.
    + intros u' w Hu' Hne Hw. rewrite app_assoc. apply elem_of_app. left. eauto.
    + intros w. rewrite app_assoc.
      intros [Hw| ->%list_elem_of_singleton]%elem_of_app; apply elem_of_app.
      * left. auto.
      * right. by apply list_elem_of_singleton.
    + done.
Qed.

Lemma bfs_body_eq (st : bfs_state) (u : nat) (q : list nat) :
  b_queue st = u :: q ->
  bfs_body st =
  for_each (getitem_default (b_graph st) u).1 bfs_visit
    (BfsState (getitem_default (b_graph st) u).2 (b_visited st) q
       (b_out st ++ [u])).
Proof.
  intros Hq. unfold bfs_body. rewrite Hq. by destruct (getitem_default _ _).
Qed.

Lemma visit_inv_init (st : bfs_state) (u : nat) (q : list nat) :
  bfs_inv st -> b_queue st = u :: q ->
  visit_inv u []
    (BfsState (getitem_default (b_graph st) u).2 (b_visited st) q
       (b_out st ++ [u])).
Proof.
  intros Hinv Hq.
  destruct (getitem_default_spec (b_graph st) u) as (_ & Hu & Hother).
  pose proof (bfs_inv_adj st u Hinv) as Hadj.
  destruct Hinv. rewrite Hq in *.
  assert (Heq : (b_out st ++ [u]) ++ q = b_out st ++ u :: q)
    by (by rewrite <- app_assoc).
  split; simpl; rewrite ?Heq; try done.
  - apply elem_of_app. right. apply list_elem_of_here.
  - intros u' w [Hu'| ->%list_elem_of_singleton]%elem_of_app Hne Hw; [eauto|done].
  - intros w Hw. by apply elem_of_nil in Hw.
  - intros v. destruct (decide (v = u)) as [->|Hne].
    + rewrite Hu, Hadj. rewrite decide_True; [done|].
      apply elem_of_app. right. apply list_elem_of_here.
    + rewrite (Hother v Hne), inv_graph0.
      destruct (decide (v ∈ b_out st)) as [Hin|Hnin].
      * rewrite decide_True; [done|]. apply elem_of_app. by left.
      * rewrite decide_False; [done|].
        intros [?| ->%list_elem_of_singleton]%elem_of_app; done.
Qed.

Lemma visit_inv_final (u : nat) (st : bfs_state) :
  visit_inv u (adj g0 u) st -> bfs_inv st.
Proof.
  intros []. split; try done.
  intros u' w Hu' Hw. destruct (decide (u' = u)) as [->|Hne]; eauto.
Qed.

(** The inner loop does not print. *)
Lemma bfs_visits_out (ns : list nat) (st st' : bfs_state) :
  for_each ns bfs_visit st = Ok st' -> b_out st' = b_out st.
Proof.
  apply (for_each_inv (fun _ s => b_out s = b_out st)); [done|].
  intros _ x s1 s2 Hs1 _ Hrun.
  destruct (bfs_visit_cases x s1) as [[_ H]|[[_ H]|[_ H]]];
    rewrite H in Hrun; [done| |]; by injection Hrun as <-.
Qed.

(** One round of the [while] loop keeps the invariant and prints one
    vertex. *)
Lemma bfs_body_inv (st st' : bfs_state) :
  bfs_inv st -> bfs_cond st = true -> bfs_body st = Ok st' ->
  bfs_inv st' /\ length (b_out st') = S (length (b_out st)).
Proof.
  intros Hinv Hcond Hrun.
  destruct (b_queue st) as [|u q] eqn:Hq.
  { unfold bfs_cond in Hcond. rewrite Hq in Hcond. done. }
  rewrite (bfs_body_eq st u q Hq) in Hrun.
  destruct (getitem_default_spec (b_graph st) u) as (Hns & _).
  rewrite Hns, (bfs_inv_adj st u Hinv) in Hrun.
  split.
  - apply (visit_inv_final u).
    eapply (for_each_inv (visit_inv u)); [| |exact Hrun].
    + by apply visit_inv_init.
    + intros done x s1 s2 Hs1 Hx Hstep. by eapply visit_inv_step.
  - rewrite (bfs_visits_out _ _ _ Hrun). simpl. rewrite length_app. simpl. lia.
Qed.

(** When every reachable vertex has a marker, one round of the loop ends
    normally. *)
Lemma bfs_body_total (st : bfs_state) :
  bfs_inv st -> bfs_cond st = true ->
  (forall v, reachable g0 s0 v -> (v < n)%nat) ->
  exists st', bfs_body st = Ok st'.
Proof.
  intros Hinv Hcond Hbound.
  destruct (b_queue st) as [|u q] eqn:Hq.
  { unfold bfs_cond in Hcond. rewrite Hq in Hcond. done. }
  rewrite (bfs_body_eq st u q Hq).
  destruct (getitem_default_spec (b_graph st) u) as (Hns & _).
  rewrite Hns, (bfs_inv_adj st u Hinv).
  destruct (for_each_total (visit_inv u) (adj g0 u) bfs_visit
              (BfsState (getitem_default (b_graph st) u).2 (b_visited st) q
                 (b_out st ++ [u]))) as (st' & Hrun & _); [| |by exists st'].
  - by apply visit_inv_init.
  - intros done x s1 Hs1 Hx.
    assert (Hxn : (x < length (b_visited s1))%nat).
    { rewrite (vis_len _ _ _ Hs1). apply Hbound.
      eapply rtc_r; [|exact Hx]. apply (vis_reach _ _ _ Hs1).
      apply elem_of_app. left. apply (vis_popped _ _ _ Hs1). }
    destruct (bfs_visit_cases x s1) as [[? _]|[[_ H]|[_ H]]]; [lia|..];
      eexists; (split; [exact H|]); by eapply visit_inv_step.
Qed.

(** The vertices printed and queued are distinct and have a marker, so
    there are at most [n] of them. *)
Lemma bfs_inv_bound (st : bfs_state) :
  bfs_inv st -> (length (b_out st) + length (b_queue st) <= n)%nat.
Proof.
  intros Hinv. rewrite <- length_app, <- (length_seq n 0).
  apply submseteq_length, NoDup_submseteq; [apply (inv_nodup _ Hinv)|].
  intros v Hv. apply elem_of_seq.
  apply (inv_seen _ Hinv), lookup_lt_Some in Hv.
  rewrite (inv_len _ Hinv) in Hv. lia.
Qed.

Lemma bfs_loop_inv (fuel : nat) (st st' : bfs_state) :
  bfs_inv st -> while fuel bfs_cond bfs_body st = Ok st' ->
  bfs_inv st' /\ b_queue st' = [].
Proof.
  intros Hinv Hrun.
  destruct (while_inv bfs_inv fuel bfs_cond bfs_body st st') as [Hinv' Hc];
    [|done..|].
  - intros s1 s2 H1 Hc Hb. by destruct (bfs_body_inv s1 s2).
  - split; [done|]. unfold bfs_cond in Hc.
    destruct (b_queue st'); [done|]. by rewrite bool_decide_true in Hc.
Qed.

(** With [n] rounds allowed the loop ends, normally or with an
    [IndexError]. *)
Lemma bfs_loop_outcome (fuel : nat) (st : bfs_state) :
  bfs_inv st -> (n <= fuel + length (b_out st))%nat ->
  ok_or_index_error (while fuel bfs_cond bfs_body st).
Proof.
  revert st. induction fuel as [|fuel IH]; intros st Hinv Hfuel; simpl;
    destruct (bfs_cond st) eqn:Hc; try done.
  - pose proof (bfs_inv_bound st Hinv). unfold bfs_cond in Hc.
    destruct (b_queue st); [done|]. simpl in *. lia.
  - pose proof (bfs_body_outcome st) as Hout.
    destruct (bfs_body st) as [st1| |] eqn:Hbody; simpl; [|done..].
    destruct (bfs_body_inv st st1) as [Hinv1 Hlen]; [done..|].
    apply IH; [done|lia].
Qed.

(** When every reachable vertex has a marker the loop ends normally. *)
Lemma bfs_loop_total (fuel : nat) (st : bfs_state) :
  bfs_inv st -> (n <= fuel + length (b_out st))%nat ->
  (forall v, reachable g0 s0 v -> (v < n)%nat) ->
  exists st', while fuel bfs_cond bfs_body st = Ok st'.
Proof.
  intros Hinv Hfuel Hbound. revert st Hinv Hfuel.
  induction fuel as [|fuel IH]; intros st Hinv Hfuel; simpl;
    destruct (bfs_cond st) eqn:Hc; eauto.
  - pose proof (bfs_inv_bound st Hinv). unfold bfs_cond in Hc.
    destruct (b_queue st); [done|]. simpl in *. lia.
  - destruct (bfs_body_total st) as [st1 Hbody]; [done..|].
    rewrite Hbody. simpl.
    destruct (bfs_body_inv st st1) as [Hinv1 Hlen]; [done..|].
    apply IH; [done|lia].
Qed.

(** What the invariant says once the queue is empty. *)
Lemma bfs_inv_final (st : bfs_state) :
  bfs_inv st -> b_queue st = [] ->
  NoDup (b_out st) /\
  (forall v, v ∈ b_out st <-> reachable g0 s0 v) /\
  (forall v, b_graph st !! v =
             if decide (v ∈ b_out st) then Some (adj g0 v) else g0 !! v).
Proof.
  intros [] Hq. rewrite Hq, app_nil_r in *.
  split; [done|]. split; [|done].
  intros v. split; [auto|]. revert v.
  apply (rtc_ind_r (fun v => v ∈ b_out st)); [done|].
  intros u w _ Huw Hu. by eapply inv_closed0.
Qed.

End bfs_invariant.

(** *** BFS: the statements before the loop *)

Lemma max_key_Ok (g : graph) (m : nat) :
  max_key g = Ok m -> m ∈ dom g /\ forall k, k ∈ dom g -> (k <= m)%nat.
Proof.
  unfold max_key. destruct (elements (dom g)) as [|k ks] eqn:Hks; [done|].
  intros [= Hm]. assert (m = max_list (k :: ks)) as -> by done. split.
  - apply elem_of_elements. rewrite Hks. by apply max_list_elem_of.
  - intros k' Hk'. apply max_list_elem_of_le. rewrite <- Hks.
    by apply elem_of_elements.
Qed.

Lemma max_key_empty (g : graph) : max_key g = Raise ValueError <-> g = ∅.
Proof.
  unfold max_key. destruct (elements (dom g)) as [|k ks] eqn:Hks.
  - split; [intros _|done].
    apply elements_empty_inv in Hks. by apply dom_empty_iff.
  - split; [done|]. intros ->. by rewrite dom_empty_L, elements_empty in Hks.
Qed.

Lemma setitem_out_of_range {A} (l : list A) (i : nat) (v : A) :
  (length l <= i)%nat -> setitem l (Z.of_nat i) v = Raise IndexError.
Proof.
  intros Hi. unfold setitem, norm_index.
  destruct (Z.ltb_spec (Z.of_nat i) 0); [lia|].
  destruct (Z.leb_spec 0 (Z.of_nat i)); [|lia].
  destruct (Z.ltb_spec (Z.of_nat i) (Z.of_nat (length l))); [lia|].
  done.
Qed.

Lemma bfs_init_Ok (g : graph) (s m : nat) :
  max_key g = Ok m -> (s <= m)%nat ->
  bfs_init g s =
  Ok (BfsState g (<[s := true]> (replicate (m + 1) false)) [s] []).
Proof.
  intros Hm Hs. unfold bfs_init, bfs_markers. rewrite Hm. simpl.
  rewrite setitem_Ok by (unfold len; rewrite length_replicate; lia).
  simpl. by rewrite Nat2Z.id.
Qed.

Lemma bfs_init_inv (g : graph) (s m : nat) :
  (s <= m)%nat ->
  bfs_inv g s (m + 1)
    (BfsState g (<[s := true]> (replicate (m + 1) false)) [s] []).
Proof.
  intros Hs. split; cbn [b_graph b_visited b_queue b_out app].
  - by rewrite length_insert, length_replicate.
  - intros v. rewrite list_lookup_insert_Some, lookup_replicate,
      length_replicate, list_elem_of_singleton.
    split; [intros [(-> & _ & _)|(_ & ? & _)]; done|].
    intros ->. left. split; [done|]. split; [done|lia].
  - apply NoDup_singleton.
  - apply list_elem_of_here.
  - intros v ->%list_elem_of_singleton. apply rtc_refl.
  - intros u w Hu. by apply elem_of_nil in Hu.
  - intros v. rewrite decide_False; [done|]. apply not_elem_of_nil.
Qed.

(** *** BFS: the whole function *)

(** A start vertex beyond the largest key has no marker: the assignment
    [visited[s] = True] raises. *)
Lemma bfs_start_beyond_max (fuel : nat) (g : graph) (s m : nat) :
  max_key g = Ok m -> (m < s)%nat -> bfs fuel g s = Raise IndexError.
Proof.
  intros Hm Hs. unfold bfs, bfs_init, bfs_markers. rewrite Hm. simpl.
  rewrite setitem_out_of_range by (rewrite length_replicate; lia). done.
Qed.

(** [bfs] gets past its first statements only on a non-empty dictionary
    and a start vertex within the markers. *)
Lemma bfs_init_inv_Ok (g : graph) (s : nat) (st : bfs_state) :
  bfs_init g s = Ok st ->
  exists m, max_key g = Ok m /\ (s <= m)%nat /\
    st = BfsState g (<[s := true]> (replicate (m + 1) false)) [s] [].
Proof.
  intros Hinit. destruct (max_key g) as [m| |] eqn:Hm;
    [|unfold bfs_init, bfs_markers in Hinit; rewrite Hm in Hinit; done..].
  exists m. split; [done|].
  destruct (decide (s <= m)%nat) as [Hs|Hs].
  - rewrite (bfs_init_Ok g s m Hm Hs) in Hinit. by injection Hinit as <-.
  - unfold bfs_init, bfs_markers in Hinit. rewrite Hm in Hinit. simpl in Hinit.
    rewrite setitem_out_of_range in Hinit by (rewrite length_replicate; lia).
    done.
Qed.

(** Whenever [bfs] returns, it has printed each vertex reachable from the
    start exactly once and nothing else, and the dictionary has gained the
    printed vertices as keys. *)
Lemma bfs_result_spec (fuel : nat) (g g' : graph) (s : nat) (out : list nat) :
  bfs fuel g s = Ok (g', out) ->
  NoDup out /\
  (forall v, v ∈ out <-> reachable g s v) /\
  (forall v, g' !! v = if decide (v ∈ out) then Some (adj g v) else g !! v).
Proof.
  unfold bfs. intros Hrun.
  destruct (bfs_init g s) as [st0| |] eqn:Hinit; try done. simpl in Hrun.
  destruct (while fuel bfs_cond bfs_body st0) as [st1| |] eqn:Hloop; try done.
  simpl in Hrun. injection Hrun as <- <-.
  destruct (bfs_init_inv_Ok g s st0 Hinit) as (m & Hm & Hs & ->).
  destruct (bfs_loop_inv g s (m + 1) fuel _ st1 (bfs_init_inv g s m Hs) Hloop)
    as [Hinv Hq].
  by apply (bfs_inv_final g s (m + 1)).
Qed.

(** With [max(self.graph) + 1] rounds allowed, [bfs] ends: it returns,
    or it raises [IndexError], or (on the empty dictionary) [ValueError]. *)
Lemma bfs_outcome (fuel : nat) (g : graph) (s m : nat) :
  max_key g = Ok m -> (m + 1 <= fuel)%nat ->
  ok_or_index_error (bfs fuel g s).
Proof.
  intros Hm Hfuel. destruct (decide (s <= m)%nat) as [Hs|Hs].
  2:{ rewrite (bfs_start_beyond_max fuel g s m) by (done || lia). done. }
  unfold bfs. rewrite (bfs_init_Ok g s m Hm Hs). simpl.
  pose proof (bfs_loop_outcome g s (m + 1) fuel _ (bfs_init_inv g s m Hs)) as H.
  simpl in H. specialize (H ltac:(lia)).
  by destruct (while fuel bfs_cond bfs_body _).
Qed.

(** When the start vertex and every vertex reachable from it are at most
    the largest key, [bfs] returns. *)
Lemma bfs_completes (fuel : nat) (g : graph) (s m : nat) :
  max_key g = Ok m -> (s <= m)%nat ->
  (forall v, reachable g s v -> (v <= m)%nat) -> (m + 1 <= fuel)%nat ->
  exists g' out, bfs fuel g s = Ok (g', out).
Proof.
  intros Hm Hs Hbound Hfuel.
  destruct (bfs_loop_total g s (m + 1) fuel _ (bfs_init_inv g s m Hs))
    as [st' Hloop]; [simpl; lia| |].
  { intros v Hv. apply Hbound in Hv. lia. }
  exists (b_graph st'), (b_out st').
  unfold bfs. rewrite (bfs_init_Ok g s m Hm Hs). simpl. by rewrite Hloop.
Qed.

(** *** DFS *)

(** The vertices of a graph: its keys and the targets of its edges. *)
Definition vertices (g : graph) : gset nat :=
  dom g ∪ ⋃ ((fun l => list_to_set l) <$> (map_to_list g).*2).

Lemma edge_target_vertex (g : graph) (u w : nat) :
  w ∈ adj g u -> w ∈ vertices g.
Proof.
  unfold adj, vertices. destruct (g !! u) as [l|] eqn:Hu; simpl.
  - intros Hw. apply elem_of_union. right. apply elem_of_union_list.
    exists (list_to_set l). split; [|by apply elem_of_list_to_set].
    apply list_elem_of_fmap. exists l. split; [done|].
    apply list_elem_of_fmap. exists (u, l). split; [done|].
    by apply elem_of_map_to_list.
  - intros Hw. by apply elem_of_nil in Hw.
Qed.

Section dfs_invariant.

(** The graph [dfs] was called with and a finite set of vertices that
    holds every target of an edge. *)
Context (g0 : graph) (U : gset nat).
Hypothesis U_closed : forall u w, w ∈ adj g0 u -> w ∈ U.

(** What a call [dfs_util(v, visited)] has done when it returns: [new]
    lists, in the order printed, the vertices it has added to [visited]. *)
Record dfs_post (v : nat) (st st' : dfs_state) (new : list nat) : Prop := DfsPost {
  post_out : d_out st' = d_out st ++ new;
  post_visited : d_visited st' = d_visited st ∪ list_to_set new;
  post_nodup : NoDup new;
  post_fresh : forall w, w ∈ new -> w ∉ d_visited st;
  post_self : v ∈ new;
  post_univ : forall w, w ∈ new -> w ∈ U;
  post_reach : forall w, w ∈ new -> reachable g0 v w;
  post_closed : forall u w, u ∈ new -> w ∈ adj g0 u -> w ∈ d_visited st';
  post_graph_new : forall u, u ∈ new -> d_graph st' !! u = Some (adj g0 u);
  post_graph_old : forall u, u ∉ new -> d_graph st' !! u = d_graph st !! u
}.

(** The invariant of the loop over the neighbours of [v], started in
    [st1]: as above, but only the neighbours in [done] are known to be
    visited. *)
Record dfs_loop_inv (v : nat) (st1 : dfs_state) (done : list nat)
    (st' : dfs_state) (new : list nat) : Prop := DfsLoopInv {
  loop_out : d_out st' = d_out st1 ++ new;
  loop_visited : d_visited st' = d_visited st1 ∪ list_to_set new;
  loop_nodup : NoDup new;
  loop_fresh : forall w, w ∈ new -> w ∉ d_visited st1;
  loop_univ : forall w, w ∈ new -> w ∈ U;
  loop_reach : forall w, w ∈ new -> reachable g0 v w;
  loop_closed : forall u w, u ∈ new -> w ∈ adj g0 u -> w ∈ d_visited st';
  loop_done : forall w, w ∈ done -> w ∈ d_visited st';
  loop_graph_new : forall u, u ∈ new -> d_graph st' !! u = Some (adj g0 u);
  loop_graph_old : forall u, u ∉ new -> d_graph st' !! u = d_graph st1 !! u
}.

(** A call made from the loop extends the invariant. *)
Lemma dfs_loop_inv_call (v x : nat) (st1 s s' : dfs_state)
    (done new newx : list nat) :
  dfs_loop_inv v st1 done s new -> x ∈ adj g0 v ->
  dfs_post x s s' newx ->
  dfs_loop_inv v st1 (done ++ [x]) s' (new ++ newx).
Proof.
  intros [] Hx [].
  assert (Hdisj : forall w, w ∈ newx -> w ∉ new).
  { intros w Hw Hw'. apply (post_fresh0 w Hw).
    rewrite loop_visited0. apply elem_of_union. right.
    by apply elem_of_list_to_set. }
  split.
  - by rewrite post_out0, loop_out0, app_assoc.
  - rewrite post_visited0, loop_visited0, list_to_set_app_L. set_solver.
  - apply NoDup_app. split; [done|]. split; [|done].
    intros w Hw Hw'. by apply (Hdisj w).
  - intros w [Hw|Hw]%elem_of_app; [auto|].
    intros Hin. apply (post_fresh0 w Hw). rewrite loop_visited0. set_solver.
  - intros w [Hw|Hw]%elem_of_app; auto.
  - intros w [Hw|Hw]%elem_of_app; [auto|].
    eapply rtc_l; [exact Hx|]. by apply post_reach0.
  - intros u w [Hu|Hu]%elem_of_app Hw; [|eauto].
    rewrite post_visited0. apply elem_of_union. left. eauto.
  - intros w [Hw| ->%list_elem_of_singleton]%elem_of_app.
    + rewrite post_visited0. apply elem_of_union. left. auto.
    + rewrite post_visited0. apply elem_of_union. right.
      by apply elem_of_list_to_set.
  - intros u [Hu|Hu]%elem_of_app; [|auto].
    rewrite post_graph_old0; [auto|]. intros Hu'. by apply (Hdisj u).
  - intros u Hu. rewrite post_graph_old0, loop_graph_old0; [done|..];
      intros Hu'; apply Hu, elem_of_app; auto.
Qed.

(** A neighbour that is already visited is skipped. *)
Lemma dfs_loop_inv_skip (v x : nat) (st1 s : dfs_state) (done new : list nat) :
  dfs_loop_inv v st1 done s new -> x ∈ d_visited s ->
  dfs_loop_inv v st1 (done ++ [x]) s new.
Proof.
  intros [] Hx. split; try done.
  intros w [Hw| ->%list_elem_of_singleton]%elem_of_app; auto.
Qed.

(** The state in which the loop over the neighbours of [v] starts. *)
Lemma dfs_loop_inv_init (v : nat) (st1 : dfs_state) :
  dfs_loop_inv v st1 [] st1 [].
Proof.
  split; try (intros ? H; by apply elem_of_nil in H).
  - by rewrite app_nil_r.
  - rewrite list_to_set_nil. by rewrite union_empty_r_L.
  - constructor.
  - intros u w H. by apply elem_of_nil in H.
  - done.
Qed.

(** The loop over all the neighbours of [v] completes the call. *)
Lemma dfs_loop_inv_final (v : nat) (st s' : dfs_state) (new : list nat) :
  v ∉ d_visited st -> v ∈ U ->
  (forall u, adj (d_graph st) u = adj g0 u) ->
  dfs_loop_inv v
    (DfsState (getitem_default (d_graph st) v).2 ({[v]} ∪ d_visited st)
       (d_out st ++ [v]))
    (adj g0 v) s' new ->
  dfs_post v st s' (v :: new).
Proof.
  intros Hv HvU Hadj [].
  destruct (getitem_default_spec (d_graph st) v) as (_ & Hgv & Hgother).
  simpl in *.
  assert (Hvnew : v ∉ new).
  { intros Hin. apply (loop_fresh0 v Hin). set_solver. }
  split.
  - by rewrite loop_out0, <- app_assoc.
  - rewrite loop_visited0, list_to_set_cons. set_solver.
  - by constructor.
  - intros w [->|Hw]%elem_of_cons; [done|].
    intros Hin. apply (loop_fresh0 w Hw). set_solver.
  - apply list_elem_of_here.
  - intros w [->|Hw]%elem_of_cons; auto.
  - intros w [->|Hw]%elem_of_cons; [apply rtc_refl|auto].
  - intros u w [->|Hu]%elem_of_cons Hw; eauto.
  - intros u [->|Hu]%elem_of_cons; [|auto].
    by rewrite loop_graph_old0, Hgv, Hadj.
  - intros u Hu. apply not_elem_of_cons in Hu as [Hne Hu].
    rewrite loop_graph_old0 by done. by apply Hgother.
Qed.

(** The adjacency sequences are the same all along. *)
Lemma dfs_loop_inv_adj (v : nat) (st s : dfs_state) (done new : list nat) :
  (forall u, adj (d_graph st) u = adj g0 u) ->
  dfs_loop_inv v
    (DfsState (getitem_default (d_graph st) v).2 ({[v]} ∪ d_visited st)
       (d_out st ++ [v]))
    done s new ->
  forall u, adj (d_graph s) u = adj g0 u.
Proof.
  intros Hadj [] u.
  destruct (getitem_default_spec (d_graph st) v) as (_ & Hgv & Hgother).
  simpl in *. unfold adj at 1.
  destruct (decide (u ∈ new)) as [Hu|Hu].
  - by rewrite loop_graph_new0.
  - rewrite loop_graph_old0 by done.
    destruct (decide (u = v)) as [->|Hne].
    + by rewrite Hgv, Hadj.
    + rewrite Hgother by done. apply Hadj.
Qed.

(** [dfs_util] returns when its fuel is at least the number of vertices
    not yet visited, and then it has done what [dfs_post] says. *)
Lemma dfs_util_spec (fuel : nat) (v : nat) (st : dfs_state) :
  v ∉ d_visited st -> v ∈ U -> d_visited st ⊆ U ->
  (forall u, adj (d_graph st) u = adj g0 u) ->
  (size (U ∖ d_visited st) <= fuel)%nat ->
  exists st' new, dfs_util fuel v st = Ok st' /\ dfs_post v st st' new.
Proof.
  revert v st.
  induction fuel as [|fuel IH]; intros v st Hv HvU Hsub Hadj Hfuel.
  - assert (size (U ∖ ({[v]} ∪ d_visited st)) < size (U ∖ d_visited st))%nat
      by (apply subset_size; set_solver).
    lia.
  - simpl. destruct (getitem_default (d_graph st) v) as [ns g1] eqn:Hgd.
    pose proof (getitem_default_spec (d_graph st) v) as (Hns & _).
    rewrite Hgd in Hns. simpl in Hns. rewrite Hadj in Hns. subst ns.
    set (st1 := DfsState g1 ({[v]} ∪ d_visited st) (d_out st ++ [v])).
    assert (Hst1 : st1 = DfsState (getitem_default (d_graph st) v).2
                           ({[v]} ∪ d_visited st) (d_out st ++ [v]))
      by (by rewrite Hgd).
    destruct (for_each_total
                (fun done s => exists new, dfs_loop_inv v st1 done s new)
                (adj g0 v)
                (fun neighbour st =>
                   if decide (neighbour ∈ d_visited st) then Ok st
                   else dfs_util fuel neighbour st) st1)
      as (s' & Hrun & new & Hinv).
    + exists []. apply dfs_loop_inv_init.
    + intros done x s [new Hinv] Hx.
      destruct (decide (x ∈ d_visited s)) as [Hin|Hnin].
      { exists s. split; [done|]. exists new. by apply dfs_loop_inv_skip. }
      destruct (IH x s) as (s2 & newx & Hcall & Hpost).
      * done.
      * by eapply U_closed.
      * rewrite (loop_visited _ _ _ _ _ Hinv). simpl.
        pose proof (loop_univ _ _ _ _ _ Hinv) as Hu.
        intros w [[->%elem_of_singleton|Hw]%elem_of_union
                 |Hw%elem_of_list_to_set]%elem_of_union; auto.
      * apply (dfs_loop_inv_adj v st s done new Hadj). by rewrite <- Hst1.
      * assert (size (U ∖ d_visited s) < size (U ∖ d_visited st))%nat; [|lia].
        apply subset_size. rewrite (loop_visited _ _ _ _ _ Hinv). simpl.
        set_solver.
      * exists s2. split; [done|]. exists (new ++ newx).
        by eapply dfs_loop_inv_call.
    + exists s', (v :: new). split; [done|].
      apply dfs_loop_inv_final; try done. by rewrite <- Hst1.
Qed.

End dfs_invariant.

(** [dfs] returns when its fuel exceeds the number of vertices of the
    graph; it has then printed each vertex reachable from the start exactly
    once and nothing else, and the dictionary has gained the printed
    vertices as keys. *)
Lemma dfs_spec (fuel : nat) (g : graph) (s : nat) :
  (S (size (vertices g)) <= fuel)%nat ->
  exists g' out, dfs fuel g s = Ok (g', out) /\
    NoDup out /\
    (forall v, v ∈ out <-> reachable g s v) /\
    (forall v, v ∈ out -> g' !! v = Some (adj g v)) /\
    (forall v, v ∉ out -> g' !! v = g !! v).
Proof.
  intros Hfuel.
  destruct (dfs_util_spec g ({[s]} ∪ vertices g)) with
    (fuel := fuel) (v := s) (st := DfsState g ∅ [])
    as (st' & new & Hrun & Hpost).
  - intros u w Hw. apply elem_of_union. right. by eapply edge_target_vertex.
  - apply not_elem_of_empty.
  - apply elem_of_union. left. by apply elem_of_singleton.
  - simpl. apply empty_subseteq.
  - done.
  - simpl. rewrite difference_empty_L, size_union_alt, size_singleton.
    pose proof (subseteq_size (vertices g ∖ {[s]}) (vertices g)) as Hle.
    specialize (Hle ltac:(set_solver)). lia.
  - destruct Hpost. simpl in *.
    exists (d_graph st'), new. unfold dfs. rewrite Hrun. simpl.
    rewrite post_out0. split; [done|]. split; [done|].
    split; [|split; [done|done]].
    intros v. split; [auto|]. revert v.
    apply (rtc_ind_r (fun v => v ∈ new)); [done|].
    intros u w _ Huw Hu.
    pose proof (post_closed0 u w Hu Huw) as Hw.
    rewrite post_visited0 in Hw. apply elem_of_union in Hw as [Hw|Hw].
    + by apply elem_of_empty in Hw.
    + by apply elem_of_list_to_set in Hw.
Qed.

(** What a traversal printed. *)
Definition printed (r : result (graph * list nat)) : result (list nat) :=
  bind r (fun p => Ok p.2).

Example graph_script :
  printed (bfs 4 script_graph 2) = Ok [2; 0; 3; 1]%nat /\
  printed (dfs 4 script_graph 2) = Ok [2; 0; 1; 3]%nat.
Proof. by vm_compute. Qed.

(** C6, at the graph with the single edge [(0, 1)] and the start vertex 0.
    Vertex 1 is reachable from 0 and [dfs(0)] prints [0 1], but the only
    key is 0, the marker list has the single entry [visited[0]], and
    [bfs(0)] raises [IndexError] when it reads [visited[1]]: it does not
    visit the reachable set. *)
Theorem bfs_raises_on_reachable_vertex :
  reachable (build [(0, 1)%nat]) 0 1 /\
  bfs_markers (build [(0, 1)%nat]) = Ok [false] /\
  (forall fuel, bfs (S fuel) (build [(0, 1)%nat]) 0 = Raise IndexError) /\
  printed (dfs 2 (build [(0, 1)%nat]) 0) = Ok [0; 1]%nat.
Proof.
  split; [|split; [by vm_compute|split; [|by vm_compute]]].
  - apply rtc_once. unfold edge. vm_compute. apply list_elem_of_here.
  - intros fuel. reflexivity.
Qed.

(** C7: on a graph whose largest key is [m], [bfs] creates [m + 1]
    markers; it raises [IndexError] whenever the start vertex exceeds [m];
    and whenever the start vertex and every vertex reachable from it are at
    most [m], it returns (with [m + 1] rounds of the loop allowed). *)
Theorem bfs_marker_bound (g : graph) (s m : nat) (fuel : nat) :
  max_key g = Ok m ->
  (exists visited, bfs_markers g = Ok visited /\
     length visited = (m + 1)%nat /\
     forall st, bfs_init g s = Ok st -> length (b_visited st) = (m + 1)%nat) /\
  ((m < s)%nat -> bfs fuel g s = Raise IndexError) /\
  ((s <= m)%nat -> (forall v, reachable g s v -> (v <= m)%nat) ->
   (m + 1 <= fuel)%nat ->
   exists g' out, bfs fuel g s = Ok (g', out)).
Proof.
  intros Hm. split; [|split].
  - exists (replicate (m + 1) false). unfold bfs_markers. rewrite Hm.
    split; [done|]. split; [by rewrite length_replicate|].
    intros st Hinit.
    destruct (bfs_init_inv_Ok g s st Hinit) as (m' & Hm' & Hs & ->).
    rewrite Hm in Hm'. injection Hm' as <-. simpl.
    by rewrite length_insert, length_replicate.
  - intros Hs. by apply (bfs_start_beyond_max fuel g s m).
  - intros Hs Hbound Hfuel. by apply (bfs_completes fuel g s m).
Qed.

(** Every vertex of the script's graph is at most 3. *)
Lemma script_graph_reachable_bound (v : nat) :
  reachable script_graph 2 v -> (v <= 3)%nat.
Proof.
  revert v. apply (rtc_ind_r (fun v => (v <= 3)%nat)); [lia|].
  intros u w _ Huw Hu. unfold edge in Huw.
  destruct u as [|[|[|[|u]]]]; [..|lia]; vm_compute in Huw;
    repeat (apply elem_of_cons in Huw as [->|Huw]; [lia|]);
    by apply elem_of_nil in Huw.
Qed.

(** The graph of the script, whose keys are 0 to 3, and the start vertex
    2. *)
Lemma bfs_marker_bound_witness :
  max_key script_graph = Ok 3%nat /\
  exists g' out, bfs 4 script_graph 2 = Ok (g', out).
Proof.
  assert (Hm : max_key script_graph = Ok 3%nat) by (by vm_compute).
  split; [exact Hm|].
  destruct (bfs_marker_bound script_graph 2 3 4 Hm) as (_ & _ & Hok).
  apply Hok; [lia | apply script_graph_reachable_bound | lia].
Defined.

(** What a traversal that printed [out] has done to the dictionary [g],
    leaving [g']: every printed vertex is a key, one that was no key before
    maps to the empty list, one that was a key keeps its adjacency
    sequence, and no other key is created or changed. *)
Definition keys_created (g g' : graph) (out : list nat) : Prop :=
  (forall v, v ∈ out -> g !! v = None -> g' !! v = Some []) /\
  (forall v, v ∈ out -> g' !! v = Some (adj g v)) /\
  (forall v, v ∉ out -> g' !! v = g !! v).

Lemma keys_created_intro (g g' : graph) (out : list nat) :
  (forall v, v ∈ out -> g' !! v = Some (adj g v)) ->
  (forall v, v ∉ out -> g' !! v = g !! v) ->
  keys_created g g' out.
Proof.
  intros Hnew Hold. split; [|by split].
  intros v Hv Hnone. rewrite (Hnew v Hv). unfold adj. by rewrite Hnone.
Qed.

(** The start vertex heads what [bfs] has printed and queued. *)
Lemma bfs_visits_head (s : nat) (ns : list nat) (st st' : bfs_state) :
  (exists rest, b_out st ++ b_queue st = s :: rest) ->
  for_each ns bfs_visit st = Ok st' ->
  exists rest, b_out st' ++ b_queue st' = s :: rest.
Proof.
  intros Hst.
  apply (for_each_inv (fun _ st => exists rest, b_out st ++ b_queue st = s :: rest));
    [done|].
  intros _ x s1 s2 [rest Hs1] _ Hrun.
  destruct (bfs_visit_cases x s1) as [[_ H]|[[_ H]|[_ H]]];
    rewrite H in Hrun; [done| |]; injection Hrun as <-; simpl.
  - by exists rest.
  - exists (rest ++ [x]). by rewrite app_assoc, Hs1.
Qed.

Lemma bfs_body_head (s : nat) (st st' : bfs_state) :
  (exists rest, b_out st ++ b_queue st = s :: rest) ->
  bfs_cond st = true -> bfs_body st = Ok st' ->
  exists rest, b_out st' ++ b_queue st' = s :: rest.
Proof.
  intros [rest Hst] Hcond Hbody.
  destruct (b_queue st) as [|u q] eqn:Hq.
  { unfold bfs_cond in Hcond. by rewrite Hq in Hcond. }
  rewrite (bfs_body_eq st u q Hq) in Hbody.
  eapply bfs_visits_head; [|exact Hbody]. simpl.
  exists rest. by rewrite <- app_assoc.
Qed.

(** The inner loop does not write to the dictionary. *)
Lemma bfs_visits_graph (ns : list nat) (st st' : bfs_state) :
  for_each ns bfs_visit st = Ok st' -> b_graph st' = b_graph st.
Proof.
  apply (for_each_inv (fun _ s => b_graph s = b_graph st)); [done|].
  intros _ x s1 s2 Hs1 _ Hrun.
  destruct (bfs_visit_cases x s1) as [[_ H]|[[_ H]|[_ H]]];
    rewrite H in Hrun; [done| |]; by injection Hrun as <-.
Qed.

(** *** BFS: the dictionary when the call is left *)

(** On the runs that end normally the store is the one [bfs] returns. *)
Lemma bfs_body_store_Ok (st st' : bfs_state) :
  bfs_body st = Ok st' -> bfs_body_store st = (b_graph st', b_out st').
Proof.
  intros Hrun. unfold bfs_body_store.
  destruct (b_queue st) as [|u q] eqn:Hq.
  { unfold bfs_body in Hrun. by rewrite Hq in Hrun. }
  rewrite (bfs_body_eq st u q Hq) in Hrun.
  by rewrite (bfs_visits_graph _ _ _ Hrun), (bfs_visits_out _ _ _ Hrun).
Qed.

Lemma bfs_loop_store_Ok (fuel : nat) (st st' : bfs_state) :
  while fuel bfs_cond bfs_body st = Ok st' ->
  bfs_loop_store fuel st = (b_graph st', b_out st').
Proof.
  revert st. induction fuel as [|fuel IH]; intros st; simpl;
    destruct (bfs_cond st); try done; try (by intros [= <-]).
  destruct (bfs_body st) as [st1| |] eqn:Hbody; simpl; [|done..].
  apply IH.
Qed.

Lemma bfs_store_Ok (fuel : nat) (g g' : graph) (s : nat) (out : list nat) :
  bfs fuel g s = Ok (g', out) -> bfs_store fuel g s = (g', out).
Proof.
  unfold bfs, bfs_store. intros Hrun.
  destruct (bfs_init g s) as [st0| |]; try done. simpl in Hrun.
  destruct (while fuel bfs_cond bfs_body st0) as [st1| |] eqn:Hloop; try done.
  simpl in Hrun. injection Hrun as <- <-. by apply bfs_loop_store_Ok.
Qed.

(** The keys of the printed vertices are in the store, the other entries
    are those of the graph [bfs] was called with, and what was printed is
    reachable from the start. *)
Definition store_ok (g0 : graph) (s0 : nat) (p : graph * list nat) : Prop :=
  (forall v, p.1 !! v = if decide (v ∈ p.2) then Some (adj g0 v) else g0 !! v) /\
  (forall v, v ∈ p.2 -> reachable g0 s0 v).

Lemma bfs_inv_store (g0 : graph) (s0 n : nat) (st : bfs_state) :
  bfs_inv g0 s0 n st -> store_ok g0 s0 (b_graph st, b_out st).
Proof.
  intros Hinv. split; simpl; [apply (inv_graph _ _ _ _ Hinv)|].
  intros v Hv. apply (inv_reach _ _ _ _ Hinv), elem_of_app. by left.
Qed.

Lemma bfs_body_store_ok (g0 : graph) (s0 n : nat) (st : bfs_state) :
  bfs_inv g0 s0 n st -> store_ok g0 s0 (bfs_body_store st).
Proof.
  intros Hinv. unfold bfs_body_store.
  destruct (b_queue st) as [|u q] eqn:Hq; [by eapply bfs_inv_store|].
  pose proof (visit_inv_init g0 s0 n st u q Hinv Hq) as Hvis.
  split; simpl; [apply (vis_graph _ _ _ _ _ _ Hvis)|].
  intros v Hv. apply (vis_reach _ _ _ _ _ _ Hvis). simpl.
  apply elem_of_app. by left.
Qed.

Lemma bfs_loop_store_ok (g0 : graph) (s0 n fuel : nat) (st : bfs_state) :
  bfs_inv g0 s0 n st -> store_ok g0 s0 (bfs_loop_store fuel st).
Proof.
  revert st. induction fuel as [|fuel IH]; intros st Hinv; simpl;
    destruct (bfs_cond st) eqn:Hc; try (by eapply bfs_inv_store).
  destruct (bfs_body st) as [st1| |] eqn:Hbody;
    [|by eapply bfs_body_store_ok..].
  apply IH. by destruct (bfs_body_inv g0 s0 n st st1).
Qed.

(** A loop that raises has printed the start vertex. *)
Lemma bfs_loop_store_start (s fuel : nat) (st : bfs_state) (e : exn) :
  (exists rest, b_out st ++ b_queue st = s :: rest) ->
  while fuel bfs_cond bfs_body st = Raise e ->
  s ∈ (bfs_loop_store fuel st).2.
Proof.
  revert st. induction fuel as [|fuel IH]; intros st Hhead; simpl;
    destruct (bfs_cond st) eqn:Hc; try done.
  destruct (bfs_body st) as [st1|e1|] eqn:Hbody; simpl; [| |done].
  - apply IH. by eapply bfs_body_head.
  - intros _. destruct Hhead as [rest Hhead]. unfold bfs_body_store.
    destruct (b_queue st) as [|u q] eqn:Hq.
    { unfold bfs_cond in Hc. by rewrite Hq in Hc. }
    simpl. destruct (b_out st) as [|a o]; simpl in *.
    + injection Hhead as -> _. apply list_elem_of_here.
    + injection Hhead as -> _. apply list_elem_of_here.
Qed.

(** What a traversal from [s] that printed [out] and left the dictionary
    [g'] has visited and written: it has printed the start vertex and the
    vertices reachable from it, and no other; their keys have been
    created, as [keys_created] says; so every reachable vertex that was
    no key is now a key with the empty list, and if there is one, the
    dictionary is not the one the traversal was given. *)
Definition visits_and_creates (g : graph) (s : nat) (g' : graph)
    (out : list nat) : Prop :=
  s ∈ out /\
  (forall v, v ∈ out <-> reachable g s v) /\
  keys_created g g' out /\
  (forall v, reachable g s v -> g !! v = None -> g' !! v = Some []) /\
  ((exists v, reachable g s v /\ g !! v = None) -> g' <> g).

Lemma visits_and_creates_intro (g : graph) (s : nat) (g' : graph)
    (out : list nat) :
  (forall v, v ∈ out <-> reachable g s v) ->
  (forall v, v ∈ out -> g' !! v = Some (adj g v)) ->
  (forall v, v ∉ out -> g' !! v = g !! v) ->
  visits_and_creates g s g' out.
Proof.
  intros Hreach Hnew Hold.
  assert (Hcreated : forall v,
            reachable g s v -> g !! v = None -> g' !! v = Some []).
  { intros v Hv%Hreach Hnone. rewrite (Hnew v Hv). unfold adj.
    by rewrite Hnone. }
  split; [apply Hreach, rtc_refl|]. split; [done|].
  split; [by apply keys_created_intro|]. split; [done|].
  intros (v & Hv & Hnone) ->. rewrite (Hcreated v Hv Hnone) in Hnone. done.
Qed.

(** C10: the traversals write to the dictionary.  [dfs] returns (its fuel
    exceeding the number of vertices) and has then printed the start
    vertex and exactly the vertices reachable from it, and created the key
    of each of them: one that was no key now maps to the empty list, so
    the dictionary has changed if there was one.  So has every [bfs] that
    returns; and [bfs] does return when the start vertex and the vertices
    reachable from it are at most the largest key.  A [bfs] that raises
    leaves the dictionary written too: the keys of the vertices it printed
    before the exception have been created, and once the statements before
    the loop are passed the start vertex is one of them. *)
Theorem traversal_creates_keys (g : graph) (s : nat) (fuel : nat) :
  (S (size (vertices g)) <= fuel)%nat ->
  (exists g' out,
     dfs fuel g s = Ok (g', out) /\ visits_and_creates g s g' out) /\
  (forall fuel' g' out,
     bfs fuel' g s = Ok (g', out) ->
     visits_and_creates g s g' out /\ bfs_store fuel' g s = (g', out)) /\
  (forall m fuel',
     max_key g = Ok m -> (s <= m)%nat ->
     (forall v, reachable g s v -> (v <= m)%nat) -> (m + 1 <= fuel')%nat ->
     exists g' out,
       bfs fuel' g s = Ok (g', out) /\ visits_and_creates g s g' out) /\
  (forall fuel' e g' out,
     bfs fuel' g s = Raise e -> bfs_store fuel' g s = (g', out) ->
     keys_created g g' out /\
     (forall v, v ∈ out -> reachable g s v) /\
     (forall m, max_key g = Ok m -> (s <= m)%nat -> s ∈ out)).
Proof.
  intros Hfuel.
  assert (Hbfs : forall fuel' g' out,
            bfs fuel' g s = Ok (g', out) -> visits_and_creates g s g' out).
  { intros fuel' g' out Hrun.
    destruct (bfs_result_spec fuel' g g' s out Hrun) as (_ & Hreach & Hg).
    apply visits_and_creates_intro; [done|..]; intros v Hv; rewrite Hg.
    - by rewrite decide_True.
    - by rewrite decide_False. }
  split; [|split; [|split]].
  - destruct (dfs_spec fuel g s Hfuel)
      as (g' & out & Hrun & _ & Hreach & Hnew & Hold).
    exists g', out. split; [done|]. by apply visits_and_creates_intro.
  - intros fuel' g' out Hrun. split; [by apply (Hbfs fuel')|].
    by apply bfs_store_Ok.
  - intros m fuel' Hm Hs Hbound Hfuel'.
    destruct (bfs_completes fuel' g s m Hm Hs Hbound Hfuel') as (g' & out & Hrun).
    exists g', out. split; [done|]. by apply (Hbfs fuel').
  - intros fuel' e g' out Hrun Hstore. unfold bfs in Hrun.
    unfold bfs_store in Hstore.
    destruct (bfs_init g s) as [st0|e0|] eqn:Hinit; simpl in Hrun; [| |done].
    + destruct (while fuel' bfs_cond bfs_body st0) as [st1|e1|] eqn:Hloop;
        simpl in Hrun; try done.
      destruct (bfs_init_inv_Ok g s st0 Hinit) as (m & Hm & Hs & ->).
      pose proof (bfs_loop_store_ok g s (m + 1) fuel' _ (bfs_init_inv g s m Hs))
        as [Hgraph Hreach].
      assert (Hhead : exists rest,
                b_out (BfsState g (<[s := true]> (replicate (m + 1) false)) [s] [])
                ++ b_queue (BfsState g (<[s := true]> (replicate (m + 1) false)) [s] [])
                = s :: rest) by (by exists []).
      pose proof (bfs_loop_store_start s fuel' _ e1 Hhead Hloop) as Hstart.
      rewrite Hstore in Hgraph, Hreach, Hstart. simpl in *.
      split; [|by split].
      apply keys_created_intro; intros v Hv; rewrite Hgraph.
      * by rewrite decide_True.
      * by rewrite decide_False.
    + injection Hstore as <- <-. split; [|split].
      * apply keys_created_intro; [|done].
        intros v Hv. by apply elem_of_nil in Hv.
      * intros v Hv. by apply elem_of_nil in Hv.
      * intros m Hm Hs. by rewrite (bfs_init_Ok g s m Hm Hs) in Hinit.
Qed.

(** On the graph with the single edge [(5, 1)], whose only key is 5, [dfs]
    from 5 visits 5 and 1 and returns a dictionary in which 1 has become a
    key. *)
Lemma traversal_creates_keys_witness :
  exists g' out,
    dfs 3 (build [(5, 1)%nat]) 5 = Ok (g', out) /\
    visits_and_creates (build [(5, 1)%nat]) 5 g' out.
Proof.
  apply (traversal_creates_keys (build [(5, 1)%nat]) 5 3).
  vm_compute. lia.
Defined.

(** There both traversals print [5 1] and leave the dictionary with the new
    key 1, mapped to the empty list: the graph after the call is not the
    graph before it. *)
Example traversal_mutates_graph :
  bfs 6 (build [(5, 1)%nat]) 5 = Ok (<[1%nat := []]> (build [(5, 1)%nat]), [5; 1]%nat) /\
  dfs 3 (build [(5, 1)%nat]) 5 = Ok (<[1%nat := []]> (build [(5, 1)%nat]), [5; 1]%nat) /\
  build [(5, 1)%nat] !! 1%nat = None.
Proof. by vm_compute. Qed.

(** On the graph with the edges [(0, 1)], [(0, 2)] and [(2, 9)], whose
    keys are 0 and 2, [bfs(0)] prints [0 1 2] and raises [IndexError] at
    the marker of 9; the key 1, created when 1 was taken off the queue, is
    in the dictionary the exception leaves. *)
Example bfs_raises_after_creating_key :
  let g := build [(0, 1); (0, 2); (2, 9)]%nat in
  bfs 4 g 0 = Raise IndexError /\
  bfs_store 4 g 0 = (<[1%nat := []]> g, [0; 1; 2]%nat) /\
  g !! 1%nat = None.
Proof. by vm_compute. Qed.

(** *** More about the graph operations *)

(** What a key holds after [add_edge(u, v)]. *)
Lemma add_edge_lookup (g : graph) (u v w : nat) :
  add_edge g u v !! w =
  if decide (w = u) then Some (adj g u ++ [v]) else g !! w.
Proof.
  unfold add_edge, getitem_default, adj.
  destruct (g !! u) as [l|] eqn:Hu; simpl;
    destruct (decide (w = u)) as [->|Hne];
    by rewrite ?lookup_insert_eq, ?lookup_insert_ne.
Qed.

(** X20: [add_edge(u, v)] puts [v] at the end of the adjacency sequence of
    [u] (an edge added twice is recorded twice), makes [u] a key, and
    changes nothing else; [v] does not become a key. *)
Theorem add_edge_appends (g : graph) (u v : nat) :
  adj (add_edge g u v) u = adj g u ++ [v] /\
  (forall w, w <> u -> add_edge g u v !! w = g !! w) /\
  dom (add_edge g u v) = {[u]} ∪ dom g.
Proof.
  split; [|split].
  - unfold adj at 1. by rewrite add_edge_lookup, decide_True.
  - intros w Hw. by rewrite add_edge_lookup, decide_False.
  - apply set_eq. intros w.
    rewrite elem_of_union, elem_of_singleton, !elem_of_dom, add_edge_lookup.
    destruct (decide (w = u)) as [->|Hne]; [|naive_solver].
    split; [by left|]. intros _. by eexists.
Qed.

Lemma build_edges_snoc (edges : list (nat * nat)) (e : nat * nat) :
  build (edges ++ [e]) = add_edge (build edges) e.1 e.2.
Proof. unfold build. by rewrite fold_left_app. Qed.

Lemma adj_build (edges : list (nat * nat)) (u : nat) :
  adj (build edges) u = (filter (fun e => e.1 = u) edges).*2.
Proof.
  induction edges as [|e edges IH] using rev_ind; [done|].
  rewrite build_edges_snoc, filter_app, fmap_app, <- IH.
  rewrite filter_cons, filter_nil. unfold adj at 1.
  rewrite add_edge_lookup.
  destruct (decide (e.1 = u)) as [<-|Hne]; simpl.
  - by rewrite decide_True.
  - rewrite app_nil_r. by rewrite decide_False by done.
Qed.

(** X21: the graph after a sequence of [add_edge] calls on a new
    [Graph()] records exactly the edges added: the adjacency sequence of a
    vertex lists the targets of its edges in the order of the calls, and
    the keys are the sources of the edges. *)
Theorem build_records_edges (edges : list (nat * nat)) (u v : nat) :
  adj (build edges) u = (filter (fun e => e.1 = u) edges).*2 /\
  (edge (build edges) u v <-> (u, v) ∈ edges) /\
  (u ∈ dom (build edges) <-> u ∈ edges.*1).
Proof.
  split; [apply adj_build|]. split.
  - unfold edge. rewrite adj_build, list_elem_of_fmap. split.
    + intros ([u' v'] & -> & [Hu Hin]%list_elem_of_filter). simpl in Hu.
      by subst u'.
    + intros Hin. exists (u, v). split; [done|].
      by apply list_elem_of_filter.
  - induction edges as [|e edges IH] using rev_ind.
    + unfold build. simpl. rewrite dom_empty_L. set_solver.
    + rewrite build_edges_snoc, fmap_app, elem_of_app, <- IH. simpl.
      rewrite list_elem_of_singleton, !elem_of_dom, add_edge_lookup.
      destruct (decide (u = e.1)) as [->|Hne]; [|naive_solver].
      split; [by right|]. intros _. by eexists.
Qed.

(** Graphs with the same adjacency sequences have the same paths. *)
Lemma reachable_ext (g g' : graph) (s v : nat) :
  (forall u, adj g' u = adj g u) -> reachable g s v -> reachable g' s v.
Proof.
  intros Hadj. apply rtc_subrel. intros u w Huw. unfold edge.
  by rewrite Hadj.
Qed.

Lemma keys_created_adj (g g' : graph) (out : list nat) (u : nat) :
  keys_created g g' out -> adj g' u = adj g u.
Proof.
  intros (_ & Hnew & Hold). unfold adj at 1.
  destruct (decide (u ∈ out)) as [Hu|Hu].
  - by rewrite (Hnew u Hu).
  - by rewrite (Hold u Hu).
Qed.

(** [dfs_util] prints its vertex first. *)
Lemma dfs_util_prints_first (fuel : nat) (v : nat) (st st' : dfs_state) :
  dfs_util fuel v st = Ok st' ->
  exists rest, d_out st' = d_out st ++ v :: rest.
Proof.
  revert v st st'. induction fuel as [|fuel IH]; intros v st st'; [done|].
  simpl. destruct (getitem_default (d_graph st) v) as [ns g1].
  apply (for_each_inv (fun _ s => exists rest, d_out s = d_out st ++ v :: rest)).
  - by exists [].
  - intros _ x s1 s2 [rest Hs1] _ Hbody.
    destruct (decide (x ∈ d_visited s1)); [injection Hbody as <-; by exists rest|].
    destruct (IH _ _ _ Hbody) as [rest' Hs2].
    exists (rest ++ x :: rest'). rewrite Hs2, Hs1. by rewrite <- app_assoc.
Qed.

(** X22: [dfs(s)] returns on every graph and every start vertex (its
    fuel exceeding the number of vertices); it prints the start vertex
    first, then every vertex reachable from it, each exactly once, and no
    other vertex. *)
Theorem dfs_visits_reachable (fuel : nat) (g : graph) (s : nat) :
  (S (size (vertices g)) <= fuel)%nat ->
  exists g' rest,
    dfs fuel g s = Ok (g', s :: rest) /\
    NoDup (s :: rest) /\
    (forall v, v ∈ s :: rest <-> reachable g s v).
Proof.
  intros Hfuel.
  destruct (dfs_spec fuel g s Hfuel) as (g' & out & Hrun & Hnd & Hreach & _).
  assert (exists rest, out = s :: rest) as [rest ->].
  { unfold dfs in Hrun.
    destruct (dfs_util fuel s (DfsState g ∅ [])) as [st'| |] eqn:Hutil; try done.
    simpl in Hrun. injection Hrun as _ <-.
    by apply dfs_util_prints_first in Hutil. }
  by exists g', rest.
Qed.

(** The graph of the script, explored from vertex 2. *)
Lemma dfs_visits_reachable_witness :
  exists g' rest,
    dfs 5 script_graph 2 = Ok (g', 2%nat :: rest) /\
    NoDup (2%nat :: rest) /\
    (forall v, v ∈ 2%nat :: rest <-> reachable script_graph 2 v).
Proof.
  apply (dfs_visits_reachable 5 script_graph 2). vm_compute. lia.
Defined.

Lemma bfs_prints_start_first (fuel : nat) (g g' : graph) (s : nat)
    (out : list nat) :
  bfs fuel g s = Ok (g', out) -> exists rest, out = s :: rest.
Proof.
  unfold bfs. intros Hrun.
  destruct (bfs_init g s) as [st0| |] eqn:Hinit; try done. simpl in Hrun.
  destruct (while fuel bfs_cond bfs_body st0) as [st1| |] eqn:Hloop; try done.
  simpl in Hrun. injection Hrun as <- <-.
  destruct (bfs_init_inv_Ok g s st0 Hinit) as (m & _ & _ & ->).
  assert (Hstep : forall s1 s2,
            (exists rest, b_out s1 ++ b_queue s1 = s :: rest) ->
            bfs_cond s1 = true -> bfs_body s1 = Ok s2 ->
            exists rest, b_out s2 ++ b_queue s2 = s :: rest).
  { intros s1 s2 [rest Hs1] Hcond Hbody.
    destruct (b_queue s1) as [|u q] eqn:Hq.
    { unfold bfs_cond in Hcond. by rewrite Hq in Hcond. }
    rewrite (bfs_body_eq s1 u q Hq) in Hbody.
    eapply bfs_visits_head; [|exact Hbody]. simpl.
    exists rest. by rewrite <- app_assoc. }
  assert (Hstart : exists rest,
            b_out (BfsState g (<[s := true]> (replicate (m + 1) false)) [s] [])
            ++ b_queue (BfsState g (<[s := true]> (replicate (m + 1) false)) [s] [])
            = s :: rest) by (by exists []).
  destruct (while_inv
              (fun st => exists rest, b_out st ++ b_queue st = s :: rest)
              fuel bfs_cond bfs_body _ st1 Hstep Hstart Hloop)
    as [[rest Hrest] Hc].
  exists rest. unfold bfs_cond in Hc.
  destruct (b_queue st1); [by rewrite app_nil_r in Hrest|].
  by rewrite bool_decide_true in Hc.
Qed.

(** X23: whenever [bfs(s)] returns, it has printed the start vertex
    first, then every vertex reachable from it, each exactly once, and no
    other vertex. *)
Theorem bfs_visits_reachable (fuel : nat) (g g' : graph) (s : nat)
    (out : list nat) :
  bfs fuel g s = Ok (g', out) ->
  (exists rest, out = s :: rest) /\
  NoDup out /\
  (forall v, v ∈ out <-> reachable g s v).
Proof.
  intros Hrun. split; [by eapply bfs_prints_start_first|].
  destruct (bfs_result_spec fuel g g' s out Hrun) as (Hnd & Hreach & _).
  by split.
Qed.

(** The run of the script. *)
Lemma bfs_visits_reachable_witness :
  (exists rest, [2; 0; 3; 1]%nat = 2%nat :: rest) /\
  NoDup [2; 0; 3; 1]%nat /\
  (forall v, v ∈ [2; 0; 3; 1]%nat <-> reachable script_graph 2 v).
Proof.
  apply (bfs_visits_reachable 4 script_graph
           (<[3%nat := [3%nat]]> (<[2%nat := [0; 3]%nat]>
             (<[1%nat := [2%nat]]> (<[0%nat := [1; 2]%nat]> ∅))))
           2 [2; 0; 3; 1]%nat).
  by vm_compute.
Defined.

Lemma max_key_nonempty (g : graph) (k : nat) :
  k ∈ dom g -> exists m, max_key g = Ok m.
Proof.
  intros Hk. unfold max_key.
  destruct (elements (dom g)) as [|k' ks] eqn:Hks; [|by eexists].
  apply elements_empty_inv in Hks. rewrite Hks in Hk.
  by apply elem_of_empty in Hk.
Qed.

(** X24: after [dfs(s)] the graph is settled.  The dictionary [dfs]
    leaves has the adjacency sequences it had, every printed vertex is now
    a key, and on it [bfs(s)] returns - even when it raised [IndexError]
    before - and so does [dfs(s)]; both print the same vertices as the
    first [dfs] and leave the dictionary as they found it. *)
Theorem traversals_after_dfs (fuel : nat) (g : graph) (s : nat) :
  (S (size (vertices g)) <= fuel)%nat ->
  exists g1 out m,
    dfs fuel g s = Ok (g1, out) /\
    (forall u, adj g1 u = adj g u) /\
    max_key g1 = Ok m /\
    (forall fuel', (m + 1 <= fuel')%nat ->
       exists out', bfs fuel' g1 s = Ok (g1, out') /\ out' ≡ₚ out) /\
    (forall fuel', (S (size (vertices g1)) <= fuel')%nat ->
       exists out', dfs fuel' g1 s = Ok (g1, out') /\ out' ≡ₚ out).
Proof.
  intros Hfuel.
  destruct (dfs_spec fuel g s Hfuel) as (g1 & out & Hrun & Hnd & Hreach & Hnew & Hold).
  assert (Hadj : forall u, adj g1 u = adj g u).
  { intros u. apply (keys_created_adj g g1 out). by apply keys_created_intro. }
  assert (Hs : s ∈ out) by (apply Hreach, rtc_refl).
  destruct (max_key_nonempty g1 s) as [m Hm].
  { apply elem_of_dom. rewrite (Hnew s Hs). by eexists. }
  assert (Hreach1 : forall v, reachable g1 s v <-> v ∈ out).
  { intros v. rewrite Hreach. split; apply reachable_ext; auto. }
  assert (Hsame : forall g2 out2,
            NoDup out2 -> (forall v, v ∈ out2 <-> reachable g1 s v) ->
            (forall v, v ∈ out2 -> g2 !! v = Some (adj g1 v)) ->
            (forall v, v ∉ out2 -> g2 !! v = g1 !! v) ->
            g2 = g1 /\ out2 ≡ₚ out).
  { intros g2 out2 Hnd2 Hreach2 Hnew2 Hold2. split.
    - apply map_eq. intros v. destruct (decide (v ∈ out2)) as [Hv|Hv].
      + rewrite (Hnew2 v Hv), Hadj. symmetry. apply Hnew.
        by apply Hreach1, Hreach2.
      + by apply Hold2.
    - apply NoDup_Permutation; [done..|]. intros v.
      by rewrite Hreach2, Hreach1. }
  exists g1, out, m. split; [done|]. split; [done|]. split; [done|]. split.
  - intros fuel' Hfuel'.
    destruct (bfs_completes fuel' g1 s m Hm) as (g2 & out2 & Hrun2); [| |done|].
    { apply (max_key_Ok g1 m Hm), elem_of_dom.
      rewrite (Hnew s Hs). by eexists. }
    { intros v Hv%Hreach1. apply (max_key_Ok g1 m Hm), elem_of_dom.
      rewrite (Hnew v Hv). by eexists. }
    destruct (bfs_result_spec fuel' g1 g2 s out2 Hrun2) as (Hnd2 & Hreach2 & Hg2).
    destruct (Hsame g2 out2) as [-> Hperm]; try done.
    + intros v Hv. by rewrite Hg2, decide_True.
    + intros v Hv. by rewrite Hg2, decide_False.
    + by exists out2.
  - intros fuel' Hfuel'.
    destruct (dfs_spec fuel' g1 s Hfuel')
      as (g2 & out2 & Hrun2 & Hnd2 & Hreach2 & Hnew2 & Hold2).
    destruct (Hsame g2 out2) as [-> Hperm]; try done.
    by exists out2.
Qed.

(** The graph with the single edge [(0, 5)], on which [bfs(0)] raises
    [IndexError] before [dfs(0)] has run. *)
Lemma traversals_after_dfs_witness :
  bfs 2 (build [(0, 5)%nat]) 0 = Raise IndexError /\
  exists g1 out m,
    dfs 3 (build [(0, 5)%nat]) 0 = Ok (g1, out) /\
    (forall u, adj g1 u = adj (build [(0, 5)%nat]) u) /\
    max_key g1 = Ok m /\
    (forall fuel', (m + 1 <= fuel')%nat ->
       exists out', bfs fuel' g1 0 = Ok (g1, out') /\ out' ≡ₚ out) /\
    (forall fuel', (S (size (vertices g1)) <= fuel')%nat ->
       exists out', dfs fuel' g1 0 = Ok (g1, out') /\ out' ≡ₚ out).
Proof.
  split; [reflexivity|].
  apply (traversals_after_dfs 3 (build [(0, 5)%nat]) 0). vm_compute. lia.
Defined.

Lemma bfs_loop_no_value_error (fuel : nat) (st : bfs_state) :
  while fuel bfs_cond bfs_body st <> Raise ValueError.
Proof.
  revert st. induction fuel as [|fuel IH]; intros st; simpl;
    destruct (bfs_cond st); try done.
  pose proof (bfs_body_outcome st) as Hout.
  destruct (bfs_body st) as [st1|e|]; simpl; [apply IH| |done].
  simpl in Hout. by subst e.
Qed.

(** X25: [bfs] raises [ValueError] - the [max()] of an empty dictionary -
    exactly on the graph that has no key, that is, before any [add_edge]
    and any traversal; the start vertex plays no part. *)
Theorem bfs_value_error_iff_empty (fuel : nat) (g : graph) (s : nat) :
  bfs fuel g s = Raise ValueError <-> g = ∅.
Proof.
  split.
  - intros Hrun. apply max_key_empty.
    unfold bfs, bfs_init, bfs_markers in Hrun.
    destruct (max_key g) as [m|e|] eqn:Hm; simpl in Hrun; [|congruence|done].
    exfalso.
    destruct (setitem (replicate (m + 1) false) (Z.of_nat s) true)
      as [visited|e|] eqn:Hset; simpl in Hrun.
    + destruct (while fuel bfs_cond bfs_body _) as [st|e|] eqn:Hloop;
        simpl in Hrun; try done.
      injection Hrun as ->. by apply bfs_loop_no_value_error in Hloop.
    + unfold setitem in Hset. destruct (norm_index _ _); congruence.
    + done.
  - intros ->. reflexivity.
Qed.

(** *** BFS: the order of the printed vertices *)

Section bfs_levels.

Context (g0 : graph) (s0 : nat) (n : nat).

(** [ls] labels each vertex printed or queued, in this order, with the
    length of a path from the start: the labels never decrease, those in
    the queue are at most one more than the label at its head, and the
    successors of a printed vertex are labelled at most one more than it. *)
Record level_inv (st : bfs_state) (ls : list nat) : Prop := LevelInv {
  lv_len : length ls = length (b_out st ++ b_queue st);
  lv_start :
    (b_out st ++ b_queue st) !! 0%nat = Some s0 /\ ls !! 0%nat = Some 0%nat;
  lv_sorted : forall i j di dj,
    (i <= j)%nat -> ls !! i = Some di -> ls !! j = Some dj -> (di <= dj)%nat;
  lv_window : forall d0 j dj,
    ls !! length (b_out st) = Some d0 -> ls !! j = Some dj -> (dj <= S d0)%nat;
  lv_path : forall i v d,
    (b_out st ++ b_queue st) !! i = Some v -> ls !! i = Some d ->
    nsteps (edge g0) d s0 v;
  lv_closed : forall i u d w,
    (i < length (b_out st))%nat ->
    (b_out st ++ b_queue st) !! i = Some u -> ls !! i = Some d ->
    w ∈ adj g0 u ->
    exists j d', (b_out st ++ b_queue st) !! j = Some w /\
                 ls !! j = Some d' /\ (d' <= S d)%nat
}.

(** The same inside the loop over the successors of [u], printed at
    position [p] with label [du]; [done] are the successors handled. *)
Record level_visit (u p du : nat) (done : list nat) (st : bfs_state)
    (ls : list nat) : Prop := LevelVisit {
  lvv_len : length ls = length (b_out st ++ b_queue st);
  lvv_start :
    (b_out st ++ b_queue st) !! 0%nat = Some s0 /\ ls !! 0%nat = Some 0%nat;
  lvv_sorted : forall i j di dj,
    (i <= j)%nat -> ls !! i = Some di -> ls !! j = Some dj -> (di <= dj)%nat;
  lvv_out : length (b_out st) = S p;
  lvv_popped : (b_out st ++ b_queue st) !! p = Some u /\ ls !! p = Some du;
  lvv_window : forall j dj, ls !! j = Some dj -> (dj <= S du)%nat;
  lvv_path : forall i v d,
    (b_out st ++ b_queue st) !! i = Some v -> ls !! i = Some d ->
    nsteps (edge g0) d s0 v;
  lvv_closed : forall i u' d w,
    (i < p)%nat ->
    (b_out st ++ b_queue st) !! i = Some u' -> ls !! i = Some d ->
    w ∈ adj g0 u' ->
    exists j d', (b_out st ++ b_queue st) !! j = Some w /\
                 ls !! j = Some d' /\ (d' <= S d)%nat;
  lvv_done : forall w, w ∈ done ->
    exists j d', (b_out st ++ b_queue st) !! j = Some w /\
                 ls !! j = Some d' /\ (d' <= S du)%nat
}.

Lemma level_visit_init (st : bfs_state) (ls : list nat) (u : nat)
    (q : list nat) (g : graph) :
  level_inv st ls -> b_queue st = u :: q ->
  exists du,
    level_visit u (length (b_out st)) du []
      (BfsState g (b_visited st) q (b_out st ++ [u])) ls.
Proof.
  intros [Hlen Hstart Hsorted Hwindow Hpath Hclosed] Hq. rewrite Hq in *.
  assert (Hu : (b_out st ++ u :: q) !! length (b_out st) = Some u)
    by apply list_lookup_middle, eq_refl.
  destruct (lookup_lt_is_Some_2 ls (length (b_out st))) as [du Hdu].
  { rewrite Hlen. by eapply lookup_lt_Some. }
  exists du.
  assert (Heq : (b_out st ++ [u]) ++ q = b_out st ++ u :: q)
    by (by rewrite <- app_assoc).
  split; cbn [b_graph b_visited b_queue b_out]; rewrite ?Heq; try done.
  - rewrite length_app. simpl. lia.
  - intros j dj. by apply Hwindow.
  - intros w Hw. by apply elem_of_nil in Hw.
Qed.

Lemma level_visit_step (u p du : nat) (done : list nat) (x : nat)
    (st st' : bfs_state) (ls : list nat) :
  visit_inv g0 s0 n u done st -> level_visit u p du done st ls ->
  x ∈ adj g0 u -> bfs_visit x st = Ok st' ->
  exists ls', level_visit u p du (done ++ [x]) st' ls'.
Proof.
  intros Hvis [Hlen Hstart Hsorted Hout Hpop Hwindow Hpath Hclosed Hdone] Hx Hrun.
  destruct (bfs_visit_cases x st) as [[_ H]|[[Hseen H]|[Hunseen H]]];
    rewrite H in Hrun; [done| |]; injection Hrun as <-.
  - exists ls. split; try done.
    intros w [Hw|Hw%list_elem_of_singleton]%elem_of_app; [auto|]. subst w.
    apply (vis_seen _ _ _ _ _ _ Hvis), list_elem_of_lookup in Hseen.
    destruct Hseen as [j Hj].
    destruct (lookup_lt_is_Some_2 ls j) as [d' Hd'].
    { rewrite Hlen. by eapply lookup_lt_Some. }
    exists j, d'. split; [done|]. split; [done|]. by eapply Hwindow.
  - exists (ls ++ [S du]).
    set (L := b_out st ++ b_queue st) in *.
    assert (Hext : forall j w d, L !! j = Some w -> ls !! j = Some d ->
              (L ++ [x]) !! j = Some w /\ (ls ++ [S du]) !! j = Some d).
    { intros j w d Hw Hd. split; by apply lookup_app_l_Some. }
    split; cbn [b_graph b_visited b_queue b_out];
      rewrite ?(app_assoc (b_out st) (b_queue st) [x]); fold L.
    + rewrite !length_app. simpl. lia.
    + destruct Hstart. by apply Hext.
    + intros i j di dj Hij [[_ Hi]|[Hi <-]]%lookup_snoc_Some
        [[Hj' Hj]|[Hj <-]]%lookup_snoc_Some.
      * eauto.
      * eauto.
      * lia.
      * done.
    + done.
    + destruct Hpop. by apply Hext.
    + intros j dj [[_ Hj]|[_ <-]]%lookup_snoc_Some; [eauto|done].
    + intros i v d [[Hi Hv]|[Hi <-]]%lookup_snoc_Some
        [[Hi' Hd]|[Hi' <-]]%lookup_snoc_Some; [eauto|lia|lia|].
      destruct Hpop as [Hpu Hpd]. eapply nsteps_r; [by eapply Hpath|exact Hx].
    + intros i u' d w Hi [[_ Hu']|[Hi' _]]%lookup_snoc_Some
        [[_ Hd]|[Hi'' _]]%lookup_snoc_Some Hw.
      * destruct (Hclosed i u' d w Hi Hu' Hd) as (j & d' & Hj & Hd' & Hle);
          [done|].
        exists j, d'. split; [by apply lookup_app_l_Some|].
        split; [by apply lookup_app_l_Some|done].
      * apply lookup_lt_Some in Hu'. lia.
      * apply lookup_lt_Some in Hd. lia.
      * unfold L in Hi'. rewrite length_app in Hi'. lia.
    + intros w [Hw| ->%list_elem_of_singleton]%elem_of_app.
      * destruct (Hdone w Hw) as (j & d' & Hj & Hd' & Hle).
        exists j, d'. split; [by apply lookup_app_l_Some|].
        split; [by apply lookup_app_l_Some|done].
      * exists (length L), (S du). split; [by apply list_lookup_middle|].
        split; [by apply list_lookup_middle|done].
Qed.

Lemma level_visit_final (u p du : nat) (st : bfs_state) (ls : list nat) :
  level_visit u p du (adj g0 u) st ls -> level_inv st ls.
Proof.
  intros [Hlen Hstart Hsorted Hout Hpop Hwindow Hpath Hclosed Hdone].
  destruct Hpop as [Hpu Hpd]. split; try done.
  - intros d0 j dj Hd0 Hj. rewrite Hout in Hd0.
    pose proof (Hsorted p (S p) du d0 ltac:(lia) Hpd Hd0).
    pose proof (Hwindow j dj Hj). lia.
  - intros i u' d w Hi Hu' Hd Hw. rewrite Hout in Hi.
    destruct (decide (i = p)) as [->|Hne].
    + rewrite Hpu in Hu'. rewrite Hpd in Hd.
      injection Hu' as <-. injection Hd as <-. by apply Hdone.
    + eapply Hclosed; [|done..]. lia.
Qed.

Lemma level_inv_body (st st' : bfs_state) :
  bfs_inv g0 s0 n st -> (exists ls, level_inv st ls) ->
  bfs_cond st = true -> bfs_body st = Ok st' ->
  exists ls, level_inv st' ls.
Proof.
  intros Hinv [ls Hls] Hcond Hrun.
  destruct (b_queue st) as [|u q] eqn:Hq.
  { unfold bfs_cond in Hcond. rewrite Hq in Hcond. done. }
  rewrite (bfs_body_eq st u q Hq) in Hrun.
  destruct (getitem_default_spec (b_graph st) u) as (Hns & _).
  rewrite Hns, (bfs_inv_adj g0 s0 n st u Hinv) in Hrun.
  destruct (level_visit_init st ls u q (getitem_default (b_graph st) u).2
              Hls Hq) as [du Hinit].
  set (st1 := BfsState (getitem_default (b_graph st) u).2 (b_visited st) q
                (b_out st ++ [u])) in *.
  set (I := fun done s =>
              visit_inv g0 s0 n u done s /\
              exists ls, level_visit u (length (b_out st)) du done s ls).
  assert (H0 : I [] st1).
  { split; [by apply visit_inv_init|by exists ls]. }
  assert (Hstep : forall done x s1 s2,
            I done s1 -> x ∈ adj g0 u -> bfs_visit x s1 = Ok s2 ->
            I (done ++ [x]) s2).
  { intros done x s1 s2 [Hv1 [ls1 Hl1]] Hx Hstep. split.
    - by eapply visit_inv_step.
    - by eapply level_visit_step. }
  destruct (for_each_inv I (adj g0 u) bfs_visit st1 st' H0 Hstep Hrun)
    as [_ [ls' Hls']].
  exists ls'. by eapply level_visit_final.
Qed.

(** Once the queue is empty, every vertex at the end of a path of [k]
    edges from the start has been printed with a label of at most [k]. *)
Lemma level_inv_shortest (st : bfs_state) (ls : list nat) (k w : nat) :
  level_inv st ls -> b_queue st = [] ->
  nsteps (edge g0) k s0 w ->
  exists j d, b_out st !! j = Some w /\ ls !! j = Some d /\ (d <= k)%nat.
Proof.
  intros [Hlen Hstart Hsorted Hwindow Hpath Hclosed] Hq.
  rewrite Hq, app_nil_r in *.
  revert w. induction k as [|k IH]; intros w Hw.
  - inversion Hw; subst. destruct Hstart.
    exists 0%nat, 0%nat. auto.
  - apply nsteps_inv_r in Hw. destruct Hw as (v & Hv & Hvw).
    destruct (IH v Hv) as (i & d & Hi & Hd & Hle).
    destruct (Hclosed i v d w) as (j & d' & Hj & Hd' & Hle'); [|done..|].
    { by eapply lookup_lt_Some. }
    exists j, d'. split; [done|]. split; [done|lia].
Qed.

End bfs_levels.

(** X26: [bfs] prints the vertices in the order of their distance from
    the start.  Whenever [bfs(s)] returns, a vertex printed before another
    is joined to [s] by a path with no more edges than any path from [s]
    to the other. *)
Theorem bfs_prints_nearest_first (fuel : nat) (g g' : graph) (s : nat)
    (out : list nat) (i j u v k : nat) :
  bfs fuel g s = Ok (g', out) ->
  (i <= j)%nat -> out !! i = Some u -> out !! j = Some v ->
  nsteps (edge g) k s v ->
  exists k', (k' <= k)%nat /\ nsteps (edge g) k' s u.
Proof.
  unfold bfs. intros Hrun Hij Hu Hv Hpath.
  destruct (bfs_init g s) as [st0| |] eqn:Hinit; try done. simpl in Hrun.
  destruct (while fuel bfs_cond bfs_body st0) as [st1| |] eqn:Hloop; try done.
  simpl in Hrun. injection Hrun as <- <-.
  destruct (bfs_init_inv_Ok g s st0 Hinit) as (m & Hm & Hs & ->).
  pose proof (bfs_init_inv g s m Hs) as Hinv0.
  set (I := fun st => bfs_inv g s (m + 1) st /\ exists ls, level_inv g s st ls).
  assert (Hstep : forall s1 s2,
            I s1 -> bfs_cond s1 = true -> bfs_body s1 = Ok s2 -> I s2).
  { intros s1 s2 [H1 Hl1] Hc Hb. split.
    - by destruct (bfs_body_inv g s (m + 1) s1 s2).
    - by eapply level_inv_body. }
  assert (H0 : I (BfsState g (<[s := true]> (replicate (m + 1) false)) [s] [])).
  { split; [done|]. exists [0%nat]. split; simpl; try done.
    - intros i' j' di dj _ Hi' Hj'.
      apply list_lookup_singleton_Some in Hi' as [_ <-].
      by apply list_lookup_singleton_Some in Hj' as [_ <-].
    - intros d0 j' dj _ Hj'.
      apply list_lookup_singleton_Some in Hj' as [_ <-]. lia.
    - intros i' v' d Hi' Hd.
      apply list_lookup_singleton_Some in Hi' as [_ <-].
      apply list_lookup_singleton_Some in Hd as [_ <-]. apply nsteps_O.
    - intros i' u' d w Hi'. lia. }
  destruct (while_inv I fuel bfs_cond bfs_body _ st1 Hstep H0 Hloop)
    as [[Hinv [ls Hls]] Hc].
  assert (Hq : b_queue st1 = []).
  { unfold bfs_cond in Hc. destruct (b_queue st1); [done|].
    by rewrite bool_decide_true in Hc. }
  destruct (level_inv_shortest g s st1 ls k v Hls Hq Hpath)
    as (j' & d & Hj' & Hd & Hle).
  pose proof (inv_nodup _ _ _ _ Hinv) as Hnd. rewrite Hq, app_nil_r in Hnd.
  assert (j' = j) as -> by (by eapply NoDup_lookup).
  destruct Hls as [Hlen _ Hsorted _ Hlpath _]. rewrite Hq, app_nil_r in *.
  destruct (lookup_lt_is_Some_2 ls i) as [di Hdi].
  { rewrite Hlen. by eapply lookup_lt_Some. }
  exists di. split.
  - pose proof (Hsorted i j di d Hij Hdi Hd). lia.
  - by eapply Hlpath.
Qed.

(** In the graph of the script vertex [0], printed second by [bfs(2)],
    is one edge away from [2], as near as vertex [1], printed last, can
    be. *)
Lemma bfs_prints_nearest_first_witness :
  exists k', (k' <= 2)%nat /\ nsteps (edge script_graph) k' 2%nat 0%nat.
Proof.
  apply (bfs_prints_nearest_first 4 script_graph
           (<[3%nat := [3%nat]]> (<[2%nat := [0; 3]%nat]>
             (<[1%nat := [2%nat]]> (<[0%nat := [1; 2]%nat]> ∅))))
           2%nat [2; 0; 3; 1]%nat 1%nat 3%nat 0%nat 1%nat 2%nat).
  - by vm_compute.
  - lia.
  - reflexivity.
  - reflexivity.
  - apply (nsteps_l _ _ _ 0%nat); [vm_compute; set_solver|].
    apply (nsteps_l _ _ _ 1%nat); [vm_compute; set_solver|].
    apply nsteps_O.
Defined.

End Graph.
